(** * goelement: node trees over an HTML token stream, and path lookups

    A shallow embedding of [goelement.go].

    - Pointers are addresses into an explicit store; [nil] is [None].
      The store holds the allocated [Node]s and the allocated
      [html.Attribute] variables that the attribute maps point to.
    - The code runs in a small state-and-error monad.  A nil dereference
      is the error [NilDeref]: the Go program panics there.
    - Recursion that follows pointers through the store takes fuel.  The
      entry points supply one more than the store has nodes
      ([MatchesPath]: one more than the path has bytes), which is enough
      on every tree that [dive] builds ([lookups_end_on_built_trees]).
    - The tokenizer is the list of the tokens it will deliver.
    - The package is taken as the go command builds it from the
      checkout for a 64-bit platform: a range clause declares its
      variable anew in every iteration (Go 1.22; the checkout has no
      go.mod that would ask for an older language version), and an
      [int] has 64 bits.
    - A [*NodePath] argument is passed as the record it points to, and a
      child slice holds addresses: [dive] only ever appends the address
      of a node it has just made. *)

From stdpp Require Import base option list gmap strings.
From Stdlib Require Import Ascii Lia.

(** ** The [strings] functions the package calls *)

Module strings.

(** [strings.Split(s, sep)] for a one-byte separator: the pieces of [s]
    between the separators, one more than there are separators. *)
Fixpoint Split (s : string) (sep : ascii) : list string :=
  match s with
  | EmptyString => [EmptyString]
  | String c s' =>
      if Ascii.eqb c sep then EmptyString :: Split s' sep
      else match Split s' sep with
           | [] => [String c EmptyString]
           | seg :: segs => String c seg :: segs
           end
  end.

Definition HasPrefix (s prefix : string) : bool := String.prefix prefix s.

Definition TrimPrefix (s prefix : string) : string :=
  if HasPrefix s prefix
  then String.substring (String.length prefix)
                        (String.length s - String.length prefix) s
  else s.

Definition Join (elems : list string) (sep : string) : string :=
  String.concat sep elems.

End strings.

(** ** Data model *)

(** An address in the store. *)
Abbreviation addr := nat (only parsing).

(** A [*T]: [None] is [nil]. *)
Abbreviation ptr := (option nat) (only parsing).

Inductive TokenType :=
| ErrorToken
| TextToken
| StartTagToken
| EndTagToken
| SelfClosingTagToken
| CommentToken
| DoctypeToken.

(** [html.Attribute] *)
Record html_Attribute := mkAttribute {
  Namespace : string;
  Key : string;
  Val : string
}.

(** [html.Token]; the field [Type] is spelled [Typ]. *)
Record html_Token := mkToken {
  Typ : TokenType;
  Data : string;
  Attr : list html_Attribute
}.

Record NodePath := mkNodePath {
  NP_Path : string;
  NP_ID : string;
  NP_Class : string
}.

(** [Node]: the embedded token, the parent pointer, the slice of child
    pointers and the map from attribute name to [*html.Attribute]. *)
Record Node := mkNode {
  Token : html_Token;
  Parent : ptr;
  Children : list addr;
  Attributes : gmap string addr
}.

(** The store: the allocated nodes and the allocated attribute variables,
    each addressed by its position. *)
Record Store := mkStore {
  nodes : list Node;
  cells : list html_Attribute
}.

(** ** The monad *)

Inductive error :=
| NilDeref    (* Go panics: nil pointer dereference *)
| Dangling    (* an address outside the store *)
| OutOfFuel.  (* the pointer walk did not end within the store's size *)

Inductive res (A : Type) :=
| Ret (a : A)
| Err (e : error).
Arguments Ret {A} a.
Arguments Err {A} e.

Definition M (A : Type) : Type := Store -> res (A * Store).

Definition ret {A} (a : A) : M A := fun s => Ret (a, s).

Definition fail {A} (e : error) : M A := fun _ => Err e.

Definition bind {A B} (m : M A) (k : A -> M B) : M B :=
  fun s => match m s with
           | Ret (a, s') => k a s'
           | Err e => Err e
           end.

Declare Scope go_scope.
Delimit Scope go_scope with go.
Notation "'do' x <- c1 ; c2" := (bind c1 (fun x => c2))
  (at level 10, x name, c1 at level 100, c2 at level 200) : go_scope.
Notation "'exec' c1 ; c2" := (bind c1 (fun _ => c2))
  (at level 10, c1 at level 100, c2 at level 200) : go_scope.
Open Scope go_scope.

(** [*p] for a node pointer. *)
Definition deref (p : ptr) : M Node :=
  fun s => match p with
           | None => Err NilDeref
           | Some a => match nodes s !! a with
                       | Some n => Ret (n, s)
                       | None => Err Dangling
                       end
           end.

(** [&Node{...}] *)
Definition allocNode (n : Node) : M addr :=
  fun s => Ret (length (nodes s), mkStore (nodes s ++ [n]) (cells s)).

(** [p.Children = cs] *)
Definition setChildren (p : ptr) (cs : list addr) : M unit :=
  fun s => match p with
           | None => Err NilDeref
           | Some a =>
               match nodes s !! a with
               | Some n =>
                   Ret (tt, mkStore (<[a := mkNode (Token n) (Parent n) cs (Attributes n)]>
                                       (nodes s))
                                    (cells s))
               | None => Err Dangling
               end
           end.

(** A new variable of type [html.Attribute], holding the zero value. *)
Definition allocCell : M addr :=
  fun s => Ret (length (cells s),
                mkStore (nodes s) (cells s ++ [mkAttribute "" "" ""])).

Definition storeCell (a : addr) (v : html_Attribute) : M unit :=
  fun s => match cells s !! a with
           | Some _ => Ret (tt, mkStore (nodes s) (<[a := v]> (cells s)))
           | None => Err Dangling
           end.

Definition loadCell (a : addr) : M html_Attribute :=
  fun s => match cells s !! a with
           | Some v => Ret (v, s)
           | None => Err Dangling
           end.

(** The fuel the entry points give to a walk over the nodes. *)
Definition size : M nat := fun s => Ret (length (nodes s), s).

(** Field reads through a node pointer. *)
Definition getData (node : ptr) : M string :=
  do n <- deref node; ret (Data (Token n)).

Definition getParent (node : ptr) : M ptr :=
  do n <- deref node; ret (Parent n).

Definition getChildren (node : ptr) : M (list addr) :=
  do n <- deref node; ret (Children n).

Definition getAttributes (node : ptr) : M (gmap string addr) :=
  do n <- deref node; ret (Attributes n).

(** ** [for _, child := range children] *)

(** The loop whose body returns from the function as soon as a call
    answers a non-nil pointer; [nil] when the slice is used up. *)
Fixpoint rangeUntil (body : addr -> M ptr) (children : list addr) : M ptr :=
  match children with
  | [] => ret None
  | child :: children' =>
      do result <- body child;
      match result with
      | Some _ => ret result
      | None => rangeUntil body children'
      end
  end.

(** The loop whose body appends to the slice [found] of its caller. *)
Fixpoint rangeAppend (body : addr -> list ptr -> M (list ptr))
    (children : list addr) (found : list ptr) : M (list ptr) :=
  match children with
  | [] => ret found
  | child :: children' =>
      do found <- body child found;
      rangeAppend body children' found
  end.

(** ** Searches by tag name *)

Fixpoint FindTagReverse_fuel (fuel : nat) (node : ptr) (tag : string) : M ptr :=
  match fuel with
  | O => fail OutOfFuel
  | S fuel' =>
      do d <- getData node;
      if String.eqb d tag then ret node
      else
        do p <- getParent node;
        match p with
        | None => ret None
        | Some _ => FindTagReverse_fuel fuel' p tag
        end
  end.

Definition FindTagReverse (node : ptr) (tag : string) : M ptr :=
  do k <- size; FindTagReverse_fuel (S k) node tag.

Fixpoint FindTag_fuel (fuel : nat) (node : ptr) (tag : string) : M ptr :=
  match fuel with
  | O => fail OutOfFuel
  | S fuel' =>
      do d <- getData node;
      if String.eqb d tag then ret node
      else
        do cs <- getChildren node;
        rangeUntil (fun child => FindTag_fuel fuel' (Some child) tag) cs
  end.

Definition FindTag (node : ptr) (tag : string) : M ptr :=
  do k <- size; FindTag_fuel (S k) node tag.

(** ** Class and id filters *)

Definition HasClass (node : ptr) (class : string) : M bool :=
  if String.eqb class "" then ret true
  else
    do attrs <- getAttributes node;
    match attrs !! "class" with
    | None => ret false
    | Some check => do a <- loadCell check; ret (String.eqb (Val a) class)
    end.

Definition HasID (node : ptr) (ID : string) : M bool :=
  if String.eqb ID "" then ret true
  else
    do attrs <- getAttributes node;
    match attrs !! "id" with
    | None => ret false
    | Some check => do a <- loadCell check; ret (String.eqb (Val a) ID)
    end.

(** ** Path matching *)

Fixpoint MatchesPath_fuel (fuel : nat) (node : ptr) (path : string) : M bool :=
  match fuel with
  | O => fail OutOfFuel
  | S fuel' =>
      if String.eqb path "" then ret true
      else
        let split := strings.Split path "/" in
        let current := nth (length split - 1) split "" in
        let directChild := strings.HasPrefix current "." in
        let current := strings.TrimPrefix current "." in
        if Nat.eqb (length split) 1 then
          do d <- getData node; ret (String.eqb current d)
        else
          do d <- getData node;
          if negb (String.eqb current d) then ret false
          else
            let newPath := strings.Join (take (length split - 1) split) "/" in
            if directChild then
              do p <- getParent node; MatchesPath_fuel fuel' p newPath
            else
              let parentName :=
                strings.TrimPrefix (nth (length split - 2) split "") "." in
              do parent <- FindTagReverse node parentName;
              match parent with
              | Some _ => MatchesPath_fuel fuel' parent newPath
              | None => ret false
              end
  end.

(** Every call drops one segment, and a path has at most one segment
    more than it has bytes. *)
Definition MatchesPath (node : ptr) (path : string) : M bool :=
  MatchesPath_fuel (S (String.length path)) node path.

(** The condition of [FindPath] and [findAll]:
    [node.MatchesPath(path) == true && node.HasClass(class) && node.HasID(ID)],
    evaluated left to right and cut short at the first [false]. *)
Definition matches (node : ptr) (nodePath : NodePath) : M bool :=
  do m <- MatchesPath node (NP_Path nodePath);
  if negb m then ret false
  else
    do c <- HasClass node (NP_Class nodePath);
    if negb c then ret false
    else HasID node (NP_ID nodePath).

Fixpoint FindPath_fuel (fuel : nat) (node : ptr) (nodePath : NodePath) : M ptr :=
  match fuel with
  | O => fail OutOfFuel
  | S fuel' =>
      do b <- matches node nodePath;
      if b then ret node
      else
        do cs <- getChildren node;
        rangeUntil (fun child => FindPath_fuel fuel' (Some child) nodePath) cs
  end.

Definition FindPath (node : ptr) (nodePath : NodePath) : M ptr :=
  do k <- size; FindPath_fuel (S k) node nodePath.

(** [findAll] appends to the slice its caller owns; the slice is passed
    in and handed back. *)
Fixpoint findAll_fuel (fuel : nat) (node : ptr) (nodePath : NodePath)
    (found : list ptr) : M (list ptr) :=
  match fuel with
  | O => fail OutOfFuel
  | S fuel' =>
      do b <- matches node nodePath;
      let found := if b then found ++ [node] else found in
      do cs <- getChildren node;
      rangeAppend (fun child => findAll_fuel fuel' (Some child) nodePath) cs found
  end.

Definition findAll (node : ptr) (nodePath : NodePath) (found : list ptr)
    : M (list ptr) :=
  do k <- size; findAll_fuel (S k) node nodePath found.

Definition FindPathAll (node : ptr) (nodePath : NodePath) : M (list ptr) :=
  findAll node nodePath [].

(** ** Node utilities *)

Fixpoint createPath_fuel (fuel : nat) (node : ptr) (path : string) : M string :=
  match fuel with
  | O => fail OutOfFuel
  | S fuel' =>
      do d <- getData node;
      let path := "/" +:+ d +:+ path in
      do p <- getParent node;
      match p with
      | None => ret path
      | Some _ => createPath_fuel fuel' p path
      end
  end.

Definition createPath (node : ptr) (path : string) : M string :=
  do k <- size; createPath_fuel (S k) node path.

Definition Path (node : ptr) : M string := createPath node "".

Fixpoint getChildTree_fuel (fuel : nat) (node : ptr) (found : list ptr)
    : M (list ptr) :=
  match fuel with
  | O => fail OutOfFuel
  | S fuel' =>
      let found := found ++ [node] in
      do cs <- getChildren node;
      rangeAppend (fun child => getChildTree_fuel fuel' (Some child)) cs found
  end.

Definition getChildTree (node : ptr) (found : list ptr) : M (list ptr) :=
  do k <- size; getChildTree_fuel (S k) node found.

Definition FlattenChildren (node : ptr) : M (list ptr) :=
  do cs <- getChildren node;
  rangeAppend (fun child => getChildTree (Some child)) cs [].

(** ** [PrintStructure] *)

(** [for i := 0; i < indent; i++ { fmt.Print(character) }] run [k] times. *)
Fixpoint repeatString (character : string) (k : nat) : string :=
  match k with
  | O => ""
  | S k' => character +:+ repeatString character k'
  end.

(** The line feed [fmt.Println] ends its output with. *)
Definition newline : string := String (ascii_of_nat 10) "".

(** The loop over the children whose body prints. *)
Fixpoint rangePrint (body : addr -> string -> M string)
    (children : list addr) (out : string) : M string :=
  match children with
  | [] => ret out
  | child :: children' =>
      do out <- body child out;
      rangePrint body children' out
  end.

(** A Go [int] has 64 bits: its values are the integers from [-2^63] to
    [2^63 - 1], and an addition that leaves this range wraps around. *)
Definition int_wrap (z : Z) : Z := ((z + 2 ^ 63) mod 2 ^ 64 - 2 ^ 63)%Z.

Definition int_add (a b : Z) : Z := int_wrap (a + b).

(** [PrintStructure] writes to the standard output; the text written so
    far is passed in and handed back.  [indent] is a Go [int]: the loop
    runs [indent] times when it is positive and not at all otherwise,
    and [indent+1] is the addition of [int]. *)
Fixpoint PrintStructure_fuel (fuel : nat) (node : ptr) (indent : Z)
    (character : string) (out : string) : M string :=
  match fuel with
  | O => fail OutOfFuel
  | S fuel' =>
      let out := out +:+ repeatString character (Z.to_nat indent) in
      do d <- getData node;
      let out := out +:+ d +:+ newline in
      do cs <- getChildren node;
      do out <- rangePrint
                  (fun child =>
                     PrintStructure_fuel fuel' (Some child) (int_add indent 1)
                                         character)
                  cs out;
      do cs <- getChildren node;
      if Nat.eqb (length cs) 0 then ret out
      else
        let out := out +:+ repeatString character (Z.to_nat indent) in
        do d <- getData node;
        ret (out +:+ d +:+ newline)
  end.

Definition PrintStructure (node : ptr) (indent : Z) (character : string)
    : M string :=
  do k <- size; PrintStructure_fuel (S k) node indent character "".

(** ** Tree construction *)

(** [newNode] and its loop [for _, attr := range token.Attr], whose body
    is [attrs[attr.Key] = &attr].  The loop is taken as the go command
    builds it from the checkout, which has no go.mod: with the range
    clause of Go 1.22, where every iteration declares a variable [attr]
    of its own, assigns the element to it, and [&attr] is the address of
    that variable. *)
Fixpoint newNode_range (l : list html_Attribute)
    (attrs : gmap string addr) : M (gmap string addr) :=
  match l with
  | [] => ret attrs
  | x :: l' =>
      do attr <- allocCell;
      exec storeCell attr x;
      do v <- loadCell attr;
      newNode_range l' (<[Key v := attr]> attrs)
  end.

Definition newNode (token : html_Token) (parent : ptr) : M addr :=
  do attrs <- newNode_range (Attr token) ∅;
  allocNode (mkNode token parent [] attrs).

(** [parent.Children = append(parent.Children, node)] *)
Definition appendChild (parent : ptr) (node : addr) : M unit :=
  do cs <- getChildren parent;
  setChildren parent (cs ++ [node]).

(** [dive]: the tokenizer is the list of the tokens it will deliver; when
    the list is used up, [Next] answers [ErrorToken] (end of input). *)
Fixpoint dive_loop (tokenizer : list html_Token) (parent root : ptr) : M ptr :=
  match tokenizer with
  | [] => ret root
  | current :: tokenizer' =>
      match Typ current with
      | ErrorToken => ret root
      | StartTagToken =>
          do node <- newNode current parent;
          do root <- match root with
                     | None => ret (Some node)
                     | Some _ => exec appendChild parent node; ret root
                     end;
          dive_loop tokenizer' (Some node) root
      | SelfClosingTagToken =>
          do node <- newNode current parent;
          exec appendChild parent node;
          dive_loop tokenizer' parent root
      | EndTagToken =>
          do tag <- FindTagReverse parent (Data current);
          match tag with
          | Some _ =>
              do p <- getParent tag;
              dive_loop tokenizer' p root
          | None => dive_loop tokenizer' parent root
          end
      | TextToken | CommentToken | DoctypeToken =>
          dive_loop tokenizer' parent root
      end
  end.

Definition dive (tokenizer : list html_Token) : M ptr :=
  dive_loop tokenizer None None.

Definition emptyStore : Store := mkStore [] [].

(** ** Token streams used in the examples *)

Definition startTag (name : string) (attr : list html_Attribute) : html_Token :=
  mkToken StartTagToken name attr.
Definition endTag (name : string) : html_Token := mkToken EndTagToken name [].
Definition selfClosing (name : string) (attr : list html_Attribute) : html_Token :=
  mkToken SelfClosingTagToken name attr.
Definition text (data : string) : html_Token := mkToken TextToken data [].

(** ** Specification-level notions *)

(** A computation that only reads: when it returns, the store it leaves
    is the store it was given. *)
Definition readonly {A} (m : M A) : Prop :=
  forall s a s', m s = Ret (a, s') -> s' = s.

(** What [newNode] leaves behind: the variables of the loop are
    allocated one after the other from [attr] on, each holds its element
    of the list, and the map sends the key of an element to the variable
    of that element, a later element replacing an earlier one with the
    same key. *)
Fixpoint newNode_attrs (attr : addr) (l : list html_Attribute)
    (attrs : gmap string addr) : gmap string addr :=
  match l with
  | [] => attrs
  | x :: l' => newNode_attrs (S attr) l' (<[Key x := attr]> attrs)
  end.

Definition newNode_store (token : html_Token) (parent : ptr) (s : Store) : Store :=
  mkStore
    (nodes s ++ [mkNode token parent []
                   (newNode_attrs (length (cells s)) (Attr token) ∅)])
    (cells s ++ Attr token).

(** The last (key, value) pair with the key [k] in an attribute list. *)
Fixpoint lastWithKey (k : string) (l : list html_Attribute)
    : option html_Attribute :=
  match l with
  | [] => None
  | x :: l' =>
      match lastWithKey k l' with
      | Some a => Some a
      | None => if String.eqb (Key x) k then Some x else None
      end
  end.

(** The node at [p] with one more child. *)
Definition withChild (n : Node) (c : addr) : Node :=
  mkNode (Token n) (Parent n) (Children n ++ [c]) (Attributes n).

(** The nodes of a store form a tree laid out in allocation order: a
    parent is allocated before its children, only the first node has no
    parent, and the parent pointers and the child slices agree. *)
Record wf_nodes (ns : list Node) : Prop := {
  wf_parent : forall i n p,
    ns !! i = Some n -> Parent n = Some p -> p < i;
  wf_root : forall i n,
    ns !! i = Some n -> Parent n = None -> i = 0;
  wf_children : forall i n c,
    ns !! i = Some n -> c ∈ Children n ->
    exists cn, ns !! c = Some cn /\ Parent cn = Some i;
  wf_attached : forall c cn p,
    ns !! c = Some cn -> Parent cn = Some p ->
    exists pn, ns !! p = Some pn /\ c ∈ Children pn
}.

(** The loop invariant of [dive]: the cursor points into the store, and
    the root, once there is one, is the first node. *)
Definition cursor_ok (ns : list Node) (parent : ptr) : Prop :=
  match parent with
  | Some p => p < length ns
  | None => True
  end.

Definition root_ok (ns : list Node) (root : ptr) : Prop :=
  match root with
  | Some r => r = 0 /\ 0 < length ns
  | None => ns = []
  end.

(** One turn of the loop of [dive]: the new cursor and the new root. *)
Definition dive_step (current : html_Token) (parent root : ptr)
    : M (ptr * ptr) :=
  match Typ current with
  | StartTagToken =>
      do node <- newNode current parent;
      do root <- match root with
                 | None => ret (Some node)
                 | Some _ => exec appendChild parent node; ret root
                 end;
      ret (Some node, root)
  | SelfClosingTagToken =>
      do node <- newNode current parent;
      exec appendChild parent node;
      ret (parent, root)
  | EndTagToken =>
      do tag <- FindTagReverse parent (Data current);
      match tag with
      | Some _ => do p <- getParent tag; ret (p, root)
      | None => ret (parent, root)
      end
  | _ => ret (parent, root)
  end.

(** The store after a new node for [current] was hung under [q]. *)
Definition attach_store (current : html_Token) (q : addr) (qn : Node)
    (s : Store) : Store :=
  mkStore
    (<[q := withChild qn (length (nodes s))]>
       (nodes (newNode_store current (Some q) s)))
    (cells (newNode_store current (Some q) s)).

(** What a turn of the loop that does not panic has done. *)
Inductive stepped (current : html_Token) (parent root : ptr) (s : Store)
    : ptr -> ptr -> Store -> Prop :=
| stepped_first :
    Typ current = StartTagToken -> root = None ->
    stepped current parent root s
      (Some (length (nodes s))) (Some (length (nodes s)))
      (newNode_store current parent s)
| stepped_start q qn :
    Typ current = StartTagToken -> root <> None ->
    parent = Some q ->
    nodes (newNode_store current parent s) !! q = Some qn ->
    stepped current parent root s
      (Some (length (nodes s))) root (attach_store current q qn s)
| stepped_selfclosing q qn :
    Typ current = SelfClosingTagToken ->
    parent = Some q ->
    nodes (newNode_store current parent s) !! q = Some qn ->
    stepped current parent root s parent root (attach_store current q qn s)
| stepped_end_found t tn :
    Typ current = EndTagToken ->
    nodes s !! t = Some tn ->
    stepped current parent root s (Parent tn) root s
| stepped_skip :
    Typ current <> StartTagToken -> Typ current <> SelfClosingTagToken ->
    stepped current parent root s parent root s.

Definition tree_inv (s : Store) (parent root : ptr) : Prop :=
  wf_nodes (nodes s) /\ cursor_ok (nodes s) parent /\ root_ok (nodes s) root.

#[global] Instance TokenType_eq_dec : EqDecision TokenType.
Proof. solve_decision. Defined.

(** The stream without its text tokens. *)
Definition noText (tokenizer : list html_Token) : list html_Token :=
  filter (fun t => Typ t <> TextToken) tokenizer.

(** A node made from a start tag or a self-closing tag. *)
Definition fromTag (n : Node) : Prop :=
  Typ (Token n) = StartTagToken \/ Typ (Token n) = SelfClosingTagToken.

(** Every attribute pointer of every node points to an attribute
    variable of the store. *)
Definition attrs_ok (s : Store) : Prop :=
  forall i n k c,
    nodes s !! i = Some n -> Attributes n !! k = Some c ->
    c < length (cells s).


(** [onChain s p r]: [r] is [p] or is reached from [p] through parent
    pointers: the open nodes, when [p] is the cursor. *)
Inductive onChain (s : Store) : addr -> addr -> Prop :=
| onChain_self p : onChain s p p
| onChain_up p n q r :
    nodes s !! p = Some n -> Parent n = Some q ->
    onChain s q r -> onChain s p r.

(** [chain s r n tags]: walking down from [r] through child slices
    reaches [n], and [tags] are the tag names met on the way, [r]'s
    first and [n]'s last. *)
Inductive chain (s : Store) (r : addr) : addr -> list string -> Prop :=
| chain_root n :
    nodes s !! r = Some n ->
    chain s r r [Data (Token n)]
| chain_step m mn c cn tags :
    chain s r m tags ->
    nodes s !! m = Some mn ->
    c ∈ Children mn ->
    nodes s !! c = Some cn ->
    chain s r c (tags ++ [Data (Token cn)]).

(** ["/t1/t2/.../tn"] *)
Fixpoint slashed (tags : list string) : string :=
  match tags with
  | [] => ""
  | t :: tags' => "/" +:+ t +:+ slashed tags'
  end.

(** The store a token stream leaves behind. *)
Definition store_of (tokenizer : list html_Token) : Store :=
  match dive tokenizer emptyStore with
  | Ret (_, s) => s
  | Err _ => emptyStore
  end.

(** The byte [c] occurs in [s]. *)
Fixpoint hasByte (c : ascii) (s : string) : bool :=
  match s with
  | EmptyString => false
  | String x s' => Ascii.eqb x c || hasByte c s'
  end.

(** ** Well-nested streams *)

(** A token the switch of [dive] has no case for. *)
Definition skipped (t : html_Token) : Prop :=
  Typ t = TextToken \/ Typ t = CommentToken \/ Typ t = DoctypeToken.

(** Content: text, self-closing tags, and elements whose end tag names
    the tag of their start tag and whose content is content again. *)
Inductive balanced : list html_Token -> Prop :=
| balanced_nil : balanced []
| balanced_skipped t ts :
    skipped t -> balanced ts -> balanced (t :: ts)
| balanced_selfClosing t ts :
    Typ t = SelfClosingTagToken -> balanced ts -> balanced (t :: ts)
| balanced_element open body close ts :
    Typ open = StartTagToken -> Typ close = EndTagToken ->
    Data close = Data open ->
    balanced body -> balanced ts ->
    balanced (open :: body ++ close :: ts).

(** A document: one top-level element, with nothing but skipped tokens
    before and after it. *)
Inductive document : list html_Token -> Prop :=
| document_skipped t ts :
    skipped t -> document ts -> document (t :: ts)
| document_root open body close post :
    Typ open = StartTagToken -> Typ close = EndTagToken ->
    Data close = Data open ->
    balanced body -> Forall skipped post ->
    document (open :: body ++ close :: post).

(** The nodes of [s] are still in [s'], with their token and parent. *)
Definition keeps (s s' : Store) : Prop :=
  forall i n, nodes s !! i = Some n ->
    exists n', nodes s' !! i = Some n' /\
      Token n' = Token n /\ Parent n' = Parent n.

(** ** Document order, as the specification words it *)

Definition childrenOf (ns : list Node) (a : addr) : list addr :=
  match ns !! a with
  | Some n => Children n
  | None => []
  end.

(** Depth-first pre-order: a node, then the pre-order of each child, the
    children left to right. *)
Fixpoint preorder_fuel (fuel : nat) (ns : list Node) (a : addr) : list addr :=
  match fuel with
  | O => []
  | S fuel' => a :: flat_map (preorder_fuel fuel' ns) (childrenOf ns a)
  end.

Definition preorder (ns : list Node) (a : addr) : list addr :=
  preorder_fuel (S (length ns)) ns a.

(** All the nodes of a sequence that match, in the order of the sequence. *)
Fixpoint collect (nodePath : NodePath) (l : list addr) (found : list ptr)
    : M (list ptr) :=
  match l with
  | [] => ret found
  | a :: l' =>
      do b <- matches (Some a) nodePath;
      collect nodePath l' (if b then found ++ [Some a] else found)
  end.

(** The first node of a sequence that matches, or nil. *)
Fixpoint firstMatch (nodePath : NodePath) (l : list addr) : M ptr :=
  match l with
  | [] => ret None
  | a :: l' =>
      do b <- matches (Some a) nodePath;
      if b then ret (Some a) else firstMatch nodePath l'
  end.

(** The node matches: the condition returns [true]. *)
Definition matchesb (s : Store) (nodePath : NodePath) (a : addr) : bool :=
  match matches (Some a) nodePath s with
  | Ret (true, _) => true
  | _ => false
  end.

(** ** Notions for the further properties *)

(** A token [dive] makes a node from. *)
Definition isTag (t : html_Token) : bool :=
  match Typ t with
  | StartTagToken | SelfClosingTagToken => true
  | _ => false
  end.

(** The tokens [dive] reads: those before the first [ErrorToken]. *)
Fixpoint beforeError (tokenizer : list html_Token) : list html_Token :=
  match tokenizer with
  | [] => []
  | t :: tokenizer' =>
      match Typ t with
      | ErrorToken => []
      | _ => t :: beforeError tokenizer'
      end
  end.

(** The node at [a] has the tag name [tag]. *)
Definition hasTag (ns : list Node) (tag : string) (a : addr) : bool :=
  match ns !! a with
  | Some n => String.eqb (Data (Token n)) tag
  | None => false
  end.

(** A node, its parent, its parent's parent, and so on to the root. *)
Fixpoint upward_fuel (fuel : nat) (ns : list Node) (p : addr) : list addr :=
  match fuel with
  | O => []
  | S fuel' =>
      p :: match ns !! p with
           | Some n =>
               match Parent n with
               | Some q => upward_fuel fuel' ns q
               | None => []
               end
           | None => []
           end
  end.

Definition upward (ns : list Node) (p : addr) : list addr :=
  upward_fuel (S (length ns)) ns p.

(** The parent pointer of the node at [r]. *)
Definition parentOf (ns : list Node) (r : addr) : ptr :=
  match ns !! r with
  | Some n => Parent n
  | None => None
  end.

(** No segment of the path carries the direct-child marker. *)
Definition markerFree (path : string) : Prop :=
  Forall (fun seg => strings.HasPrefix seg "." = false)
         (strings.Split path "/").

(** A tag name as the tokenizer delivers one: not empty, without a
    slash, not starting with a dot. *)
Definition plainTag (t : string) : Prop :=
  t <> "" /\ hasByte "/" t = false /\ strings.HasPrefix t "." = false.

(** A list of addresses in increasing order. *)
Definition increasing (l : list addr) : Prop :=
  forall j k c1 c2, l !! j = Some c1 -> l !! k = Some c2 -> j < k -> c1 < c2.

(** How often the byte [c] occurs in [s]. *)
Fixpoint countByte (c : ascii) (s : string) : nat :=
  match s with
  | EmptyString => 0
  | String x s' => (if Ascii.eqb x c then 1 else 0) + countByte c s'
  end.

(** A token [dive] acts on: a start tag, a self-closing tag or an end
    tag. *)
Definition actedOn (t : html_Token) : bool :=
  match Typ t with
  | StartTagToken | SelfClosingTagToken | EndTagToken => true
  | _ => false
  end.

(** Neither the indentation string nor a tag name of the store holds a
    line feed. *)
Definition noLineFeed (s : Store) (character : string) : Prop :=
  hasByte (ascii_of_nat 10) character = false /\
  forall i n, nodes s !! i = Some n ->
    hasByte (ascii_of_nat 10) (Data (Token n)) = false.

(** The tag name of the node at [a]. *)
Definition tagOf (ns : list Node) (a : addr) : string :=
  match ns !! a with
  | Some n => Data (Token n)
  | None => ""
  end.

(** One line of [PrintStructure]: the indentation, a tag name, a line
    feed. *)
Definition lineOf (character : string) (indent : Z) (d : string) : string :=
  repeatString character (Z.to_nat indent) +:+ d +:+ newline.

(** One such line for each node of a sequence, all at one indentation. *)
Fixpoint linesOf (ns : list Node) (character : string) (indent : Z)
    (l : list addr) : string :=
  match l with
  | [] => ""
  | c :: l' =>
      lineOf character indent (tagOf ns c) +:+ linesOf ns character indent l'
  end.

(** The node at [a] has children. *)
Definition hasChildren (ns : list Node) (a : addr) : bool :=
  negb (Nat.eqb (length (childrenOf ns a)) 0).

(** The lines [PrintStructure] writes for a sequence of nodes: one for
    each node and one more for each node with children. *)
Definition linesFor (ns : list Node) (l : list addr) : nat :=
  length l + length (List.filter (hasChildren ns) l).

(** What [dive] keeps besides the tree shape: the cursor and every node
    with children were made from start tags, so was the first node, and
    no child slice holds a node twice. *)
Definition built_inv (s : Store) (parent : ptr) : Prop :=
  (forall p pn, parent = Some p -> nodes s !! p = Some pn ->
     Typ (Token pn) = StartTagToken) /\
  (forall i n, nodes s !! i = Some n -> Children n <> [] ->
     Typ (Token n) = StartTagToken) /\
  (forall n, nodes s !! 0 = Some n -> Typ (Token n) = StartTagToken) /\
  (forall i n, nodes s !! i = Some n -> NoDup (Children n)).

(** ** Documents used below *)

(** [<div><section><h1>X</h1></section></div>] *)
Definition doc_h1 : list html_Token :=
  [startTag "div" []; startTag "section" []; startTag "h1" []; text "X";
   endTag "h1"; endTag "section"; endTag "div"].

(** [<div></div>] *)
Definition doc_div : list html_Token := [startTag "div" []; endTag "div"].

(** [<a></a><b></b>] *)
Definition doc_two_roots : list html_Token :=
  [startTag "a" []; endTag "a"; startTag "b" []; endTag "b"].


(** [<a><q><a><b></b></a></q><b></b></a>] *)
Definition doc_nested : list html_Token :=
  [startTag "a" []; startTag "q" []; startTag "a" []; startTag "b" [];
   endTag "b"; endTag "a"; endTag "q"; startTag "b" []; endTag "b";
   endTag "a"].

(** [<p>Test</p>] *)
Definition doc_p : list html_Token :=
  [startTag "p" []; text "Test"; endTag "p"].

(** [<div><img/><p>X</p></div>] *)
Definition doc_img : list html_Token :=
  [startTag "div" []; selfClosing "img" []; startTag "p" []; text "X";
   endTag "p"; endTag "div"].

(** * Properties *)

(** ** The monad *)

Lemma bind_Ret {A B} (m : M A) (k : A -> M B) s a s' :
  m s = Ret (a, s') -> bind m k s = k a s'.
Proof. intros H. unfold bind. by rewrite H. Qed.

Lemma bind_Err {A B} (m : M A) (k : A -> M B) s e :
  m s = Err e -> bind m k s = Err e.
Proof. intros H. unfold bind. by rewrite H. Qed.

Lemma bind_inv {A B} (m : M A) (k : A -> M B) s b s2 :
  bind m k s = Ret (b, s2) ->
  exists a s1, m s = Ret (a, s1) /\ k a s1 = Ret (b, s2).
Proof.
  unfold bind. destruct (m s) as [[a s1]|e]; [|discriminate].
  intros H. by exists a, s1.
Qed.

(** ** Lookups only read *)

Lemma readonly_ret {A} (a : A) : readonly (ret a).
Proof. intros s b s' H. unfold ret in H. congruence. Qed.

Lemma readonly_fail {A} e : readonly (@fail A e).
Proof. intros s b s' H. discriminate. Qed.

Lemma readonly_bind {A B} (m : M A) (k : A -> M B) :
  readonly m -> (forall a, readonly (k a)) -> readonly (bind m k).
Proof.
  intros Hm Hk s b s2 H.
  apply bind_inv in H as (a & s1 & H1 & H2).
  apply Hm in H1 as ->. by apply Hk in H2.
Qed.

Lemma readonly_deref p : readonly (deref p).
Proof.
  intros s n s' H. unfold deref in H.
  destruct p as [a|]; [|discriminate].
  destruct (nodes s !! a); [|discriminate]. congruence.
Qed.

Lemma readonly_loadCell a : readonly (loadCell a).
Proof.
  intros s v s' H. unfold loadCell in H.
  destruct (cells s !! a); [|discriminate]. congruence.
Qed.

Lemma readonly_size : readonly size.
Proof. intros s k s' H. unfold size in H. congruence. Qed.

Create HintDb ro.
#[local] Hint Resolve readonly_ret readonly_fail readonly_deref
  readonly_loadCell readonly_size : ro.

(** Peel binds and branches until the primitives are reached. *)
Ltac ro_step :=
  lazymatch goal with
  | |- readonly (bind _ _) => apply readonly_bind; [|intros ?]
  | |- readonly (if ?b then _ else _) => destruct b
  | |- readonly (match ?o with Some _ => _ | None => _ end) => destruct o
  | |- readonly (let _ := _ in _) => cbv zeta
  end.
Ltac ro := repeat ro_step; eauto with ro.

Lemma readonly_getData p : readonly (getData p).
Proof. unfold getData. ro. Qed.

Lemma readonly_getParent p : readonly (getParent p).
Proof. unfold getParent. ro. Qed.

Lemma readonly_getChildren p : readonly (getChildren p).
Proof. unfold getChildren. ro. Qed.

Lemma readonly_getAttributes p : readonly (getAttributes p).
Proof. unfold getAttributes. ro. Qed.

#[local] Hint Resolve readonly_getData readonly_getParent
  readonly_getChildren readonly_getAttributes : ro.

Lemma readonly_rangeUntil body cs :
  (forall c, readonly (body c)) -> readonly (rangeUntil body cs).
Proof. intros Hb. induction cs as [|c cs IH]; simpl; ro. Qed.

Lemma readonly_rangeAppend body cs found :
  (forall c acc, readonly (body c acc)) ->
  readonly (rangeAppend body cs found).
Proof.
  intros Hb. revert found.
  induction cs as [|c cs IH]; intros found; simpl; ro.
Qed.

Lemma readonly_FindTagReverse_fuel fuel node tag :
  readonly (FindTagReverse_fuel fuel node tag).
Proof. revert node. induction fuel as [|fuel IH]; intros node; simpl; ro. Qed.

Lemma readonly_FindTagReverse node tag : readonly (FindTagReverse node tag).
Proof. unfold FindTagReverse. ro. apply readonly_FindTagReverse_fuel. Qed.

#[local] Hint Resolve readonly_FindTagReverse : ro.

Lemma readonly_FindTag_fuel fuel node tag :
  readonly (FindTag_fuel fuel node tag).
Proof.
  revert node. induction fuel as [|fuel IH]; intros node; simpl; ro.
  apply readonly_rangeUntil. intros c. apply IH.
Qed.

Lemma readonly_FindTag node tag : readonly (FindTag node tag).
Proof. unfold FindTag. ro. apply readonly_FindTag_fuel. Qed.

Lemma readonly_HasClass node class : readonly (HasClass node class).
Proof. unfold HasClass. ro. Qed.

Lemma readonly_HasID node ID : readonly (HasID node ID).
Proof. unfold HasID. ro. Qed.

Lemma readonly_MatchesPath_fuel fuel node path :
  readonly (MatchesPath_fuel fuel node path).
Proof.
  revert node path. induction fuel as [|fuel IH]; intros node path; simpl; ro.
Qed.

Lemma readonly_MatchesPath node path : readonly (MatchesPath node path).
Proof. apply readonly_MatchesPath_fuel. Qed.

#[local] Hint Resolve readonly_HasClass readonly_HasID readonly_MatchesPath : ro.

Lemma readonly_matches node nodePath : readonly (matches node nodePath).
Proof. unfold matches. ro. Qed.

#[local] Hint Resolve readonly_matches : ro.

Lemma readonly_FindPath_fuel fuel node nodePath :
  readonly (FindPath_fuel fuel node nodePath).
Proof.
  revert node. induction fuel as [|fuel IH]; intros node; simpl; ro.
  apply readonly_rangeUntil. intros c. apply IH.
Qed.

Lemma readonly_FindPath node nodePath : readonly (FindPath node nodePath).
Proof. unfold FindPath. ro. apply readonly_FindPath_fuel. Qed.

Lemma readonly_findAll_fuel fuel node nodePath found :
  readonly (findAll_fuel fuel node nodePath found).
Proof.
  revert node found.
  induction fuel as [|fuel IH]; intros node found; simpl; ro;
    apply readonly_rangeAppend; intros c acc; apply IH.
Qed.

Lemma readonly_FindPathAll node nodePath : readonly (FindPathAll node nodePath).
Proof. unfold FindPathAll, findAll. ro. apply readonly_findAll_fuel. Qed.

Lemma readonly_createPath_fuel fuel node path :
  readonly (createPath_fuel fuel node path).
Proof.
  revert node path. induction fuel as [|fuel IH]; intros node path; simpl; ro.
Qed.

Lemma readonly_Path node : readonly (Path node).
Proof. unfold Path, createPath. ro. apply readonly_createPath_fuel. Qed.

Lemma readonly_getChildTree_fuel fuel node found :
  readonly (getChildTree_fuel fuel node found).
Proof.
  revert node found.
  induction fuel as [|fuel IH]; intros node found; simpl; ro.
  apply readonly_rangeAppend. intros c acc. apply IH.
Qed.

Lemma readonly_getChildTree node found : readonly (getChildTree node found).
Proof. unfold getChildTree. ro. apply readonly_getChildTree_fuel. Qed.

Lemma readonly_FlattenChildren node : readonly (FlattenChildren node).
Proof.
  unfold FlattenChildren. ro.
  apply readonly_rangeAppend. intros c acc. apply readonly_getChildTree.
Qed.

Lemma readonly_twice {A} (m : M A) s a s' :
  readonly m -> m s = Ret (a, s') -> s' = s /\ m s' = Ret (a, s').
Proof. intros Hm H. pose proof (Hm _ _ _ H) as ->. done. Qed.

(** ** Strings *)

Lemma append_assoc (a b c : string) : (a +:+ b) +:+ c = a +:+ (b +:+ c).
Proof.
  induction a as [|x a IH]; [done|].
  change (String x ((a +:+ b) +:+ c) = String x (a +:+ (b +:+ c))).
  by rewrite IH.
Qed.

Lemma append_nil_r (a : string) : a +:+ "" = a.
Proof.
  induction a as [|x a IH]; [done|].
  change (String x (a +:+ "") = String x a). by rewrite IH.
Qed.

Lemma slashed_app (l1 l2 : list string) :
  slashed (l1 ++ l2) = slashed l1 +:+ slashed l2.
Proof.
  induction l1 as [|t l1 IH]; [done|].
  change (slashed ((t :: l1) ++ l2)) with ("/" +:+ t +:+ slashed (l1 ++ l2)).
  change (slashed (t :: l1)) with ("/" +:+ t +:+ slashed l1).
  by rewrite IH, !append_assoc.
Qed.

Lemma slashed_Join (tags : list string) :
  tags <> [] -> slashed tags = "/" +:+ strings.Join tags "/".
Proof.
  induction tags as [|t tags IH]; [done|]. intros _.
  destruct tags as [|t' tags].
  - change ("/" +:+ t +:+ "" = "/" +:+ t). by rewrite append_nil_r.
  - change (slashed (t :: t' :: tags))
      with ("/" +:+ t +:+ slashed (t' :: tags)).
    rewrite IH by done.
    change (strings.Join (t :: t' :: tags) "/")
      with (t +:+ "/" +:+ strings.Join (t' :: tags) "/").
    done.
Qed.

Lemma length_append (a b : string) :
  String.length (a +:+ b) = String.length a + String.length b.
Proof.
  induction a as [|x a IH]; [done|].
  change (S (String.length (a +:+ b)) = S (String.length a + String.length b)).
  by rewrite IH.
Qed.

Lemma Split_nonempty p sep : strings.Split p sep <> [].
Proof.
  destruct p as [|c p]; [done|]. cbn [strings.Split].
  destruct (Ascii.eqb c sep); [done|]. by destruct (strings.Split p sep).
Qed.

Lemma Split_no_sep t sep : hasByte sep t = false -> strings.Split t sep = [t].
Proof.
  induction t as [|c t IH]; [done|]. cbn [hasByte strings.Split].
  intros [Hc Ht]%orb_false_elim. rewrite Hc, (IH Ht). done.
Qed.

Lemma Split_append_sep a b sep :
  hasByte sep a = false ->
  strings.Split (a +:+ String sep b) sep = a :: strings.Split b sep.
Proof.
  induction a as [|c a IH].
  - intros _. change (strings.Split (String sep b) sep = "" :: strings.Split b sep).
    cbn [strings.Split]. by rewrite Ascii.eqb_refl.
  - cbn [hasByte]. intros [Hc Ha]%orb_false_elim.
    change (strings.Split (String c (a +:+ String sep b)) sep
            = String c a :: strings.Split b sep).
    cbn [strings.Split]. rewrite Hc, (IH Ha). done.
Qed.

Lemma Join_cons_cons x y l sep :
  strings.Join (x :: y :: l) sep = x +:+ sep +:+ strings.Join (y :: l) sep.
Proof. reflexivity. Qed.

(** Joining the pieces gives the string back. *)
Lemma Join_Split p sep :
  strings.Join (strings.Split p sep) (String sep "") = p.
Proof.
  induction p as [|c p IH]; [done|]. cbn [strings.Split].
  pose proof (Split_nonempty p sep) as Hne.
  destruct (strings.Split p sep) as [|seg segs] eqn:E; [done|].
  destruct (Ascii.eqb_spec c sep) as [->|Hc].
  - rewrite Join_cons_cons, IH. done.
  - destruct segs as [|seg' segs].
    + change (String c seg = String c p). f_equal. exact IH.
    + rewrite Join_cons_cons. rewrite Join_cons_cons in IH.
      change (String c (seg +:+ String sep "" +:+ strings.Join (seg' :: segs) (String sep ""))
              = String c p).
      by rewrite IH.
Qed.

Lemma Join_snoc l x sep :
  l <> [] -> strings.Join (l ++ [x]) sep = strings.Join l sep +:+ sep +:+ x.
Proof.
  induction l as [|y l IH]; [done|]. intros _.
  destruct l as [|z l].
  - reflexivity.
  - change ((y :: z :: l) ++ [x]) with (y :: z :: (l ++ [x])).
    rewrite !Join_cons_cons.
    change (z :: l ++ [x]) with ((z :: l) ++ [x]).
    rewrite IH by done. by rewrite !append_assoc.
Qed.

Lemma take_pred_snoc {A} (l : list A) (d : A) :
  l <> [] ->
  take (length l - 1) l ++ [nth (length l - 1) l d] = l.
Proof.
  induction l as [|x l IH]; [done|]. intros _.
  destruct l as [|y l]; [done|].
  replace (length (x :: y :: l) - 1) with (S (length (y :: l) - 1))
    by (simpl; lia).
  cbn [take nth app]. f_equal. by apply IH.
Qed.

(** The path [MatchesPath] goes on with is shorter than the one it got. *)
Lemma newPath_shorter path :
  let split := strings.Split path "/" in
  length split <> 1 ->
  String.length (strings.Join (take (length split - 1) split) "/")
    < String.length path.
Proof.
  intros split Hlen.
  pose proof (Split_nonempty path "/") as Hne. fold split in Hne.
  pose proof (Join_Split path "/") as HJ. fold split in HJ.
  rewrite <- (take_pred_snoc split "" Hne) in HJ.
  rewrite Join_snoc in HJ.
  - apply (f_equal String.length) in HJ. rewrite !length_append in HJ.
    simpl in HJ. lia.
  - destruct split as [|x [|y l]]; done.
Qed.

(** ** What the primitives and [newNode] do to the store *)

Lemma deref_Some s a n :
  nodes s !! a = Some n -> deref (Some a) s = Ret (n, s).
Proof. intros H. unfold deref. by rewrite H. Qed.

Lemma deref_inv p s n s' :
  deref p s = Ret (n, s') ->
  exists a, p = Some a /\ nodes s !! a = Some n /\ s' = s.
Proof.
  unfold deref. destruct p as [a|]; [|discriminate].
  destruct (nodes s !! a) as [n'|] eqn:E; [|discriminate].
  intros H. exists a. by simplify_eq.
Qed.

Lemma getData_Some s a n :
  nodes s !! a = Some n -> getData (Some a) s = Ret (Data (Token n), s).
Proof. intros H. unfold getData. by rewrite (bind_Ret _ _ _ _ _ (deref_Some _ _ _ H)). Qed.

Lemma getParent_Some s a n :
  nodes s !! a = Some n -> getParent (Some a) s = Ret (Parent n, s).
Proof. intros H. unfold getParent. by rewrite (bind_Ret _ _ _ _ _ (deref_Some _ _ _ H)). Qed.

Lemma getChildren_Some s a n :
  nodes s !! a = Some n -> getChildren (Some a) s = Ret (Children n, s).
Proof. intros H. unfold getChildren. by rewrite (bind_Ret _ _ _ _ _ (deref_Some _ _ _ H)). Qed.

Lemma getAttributes_Some s a n :
  nodes s !! a = Some n -> getAttributes (Some a) s = Ret (Attributes n, s).
Proof. intros H. unfold getAttributes. by rewrite (bind_Ret _ _ _ _ _ (deref_Some _ _ _ H)). Qed.

Lemma getParent_inv p s q s' :
  getParent p s = Ret (q, s') ->
  exists a n, p = Some a /\ nodes s !! a = Some n /\ q = Parent n /\ s' = s.
Proof.
  unfold getParent. intros H.
  apply bind_inv in H as (n & s1 & H1 & H2).
  apply deref_inv in H1 as (a & -> & Hn & ->).
  unfold ret in H2. exists a, n. by simplify_eq.
Qed.

Lemma getData_nil s : getData None s = Err NilDeref.
Proof. reflexivity. Qed.

Lemma getChildren_nil s : getChildren None s = Err NilDeref.
Proof. reflexivity. Qed.

Lemma newNode_range_spec l : forall attrs s,
  newNode_range l attrs s =
    Ret (newNode_attrs (length (cells s)) l attrs,
         mkStore (nodes s) (cells s ++ l)).
Proof.
  induction l as [|x l IH]; intros attrs s.
  - simpl. unfold ret. rewrite app_nil_r. by destruct s.
  - assert (forall z, <[length (cells s) := x]> (cells s ++ [z]) = cells s ++ [x])
      as Hins.
    { intros z.
      replace (length (cells s)) with (length (cells s) + 0) by lia.
      by rewrite insert_app_r. }
    cbn [newNode_range newNode_attrs].
    unfold bind at 1. unfold allocCell at 1.
    unfold bind at 1. unfold storeCell at 1. cbn [cells nodes].
    rewrite lookup_app_r by done. rewrite Nat.sub_diag. cbn [lookup list_lookup].
    unfold bind at 1. unfold loadCell at 1. cbn [cells nodes].
    rewrite Hins.
    rewrite lookup_app_r by done. rewrite Nat.sub_diag. cbn [lookup list_lookup].
    rewrite IH. cbn [cells nodes].
    rewrite length_app. cbn [length].
    replace (length (cells s) + 1) with (S (length (cells s))) by lia.
    by rewrite <- app_assoc.
Qed.

Lemma newNode_spec token parent s :
  newNode token parent s = Ret (length (nodes s), newNode_store token parent s).
Proof.
  unfold newNode. unfold bind at 1. rewrite newNode_range_spec.
  reflexivity.
Qed.

Lemma appendChild_Some s p pn c :
  nodes s !! p = Some pn ->
  appendChild (Some p) c s =
    Ret (tt, mkStore (<[p := withChild pn c]> (nodes s)) (cells s)).
Proof.
  intros H. unfold appendChild.
  rewrite (bind_Ret _ _ _ _ _ (getChildren_Some _ _ _ H)).
  unfold setChildren. by rewrite H.
Qed.

Lemma appendChild_nil s c : appendChild None c s = Err NilDeref.
Proof. reflexivity. Qed.

Lemma appendChild_inv parent c s u s' :
  appendChild parent c s = Ret (u, s') ->
  exists p pn, parent = Some p /\ nodes s !! p = Some pn /\
    s' = mkStore (<[p := withChild pn c]> (nodes s)) (cells s).
Proof.
  destruct parent as [p|]; [|discriminate].
  destruct (nodes s !! p) as [pn|] eqn:E.
  - rewrite (appendChild_Some _ _ _ _ E). intros H. exists p, pn. by simplify_eq.
  - unfold appendChild, bind, getChildren, bind, deref. by rewrite E.
Qed.

(** ** The loop of [dive], turn by turn *)

Lemma dive_loop_cons current ts parent root s :
  dive_loop (current :: ts) parent root s =
    match Typ current with
    | ErrorToken => Ret (root, s)
    | _ => bind (dive_step current parent root)
                (fun pr => dive_loop ts (fst pr) (snd pr)) s
    end.
Proof.
  cbn [dive_loop]. unfold dive_step.
  destruct (Typ current); try reflexivity.
  - unfold bind. destruct (newNode current parent s) as [[node s1]|]; [|done].
    destruct root as [r|]; [|done].
    destruct (appendChild parent node s1) as [[u s2]|]; done.
  - unfold bind. destruct (FindTagReverse parent (Data current) s)
      as [[[t|] s1]|]; [|done..].
    destruct (getParent (Some t) s1) as [[p s2]|]; done.
  - unfold bind. destruct (newNode current parent s) as [[node s1]|]; [|done].
    destruct (appendChild parent node s1) as [[u s2]|]; done.
Qed.

Lemma nodes_newNode_store current parent s :
  nodes (newNode_store current parent s) =
    nodes s ++ [mkNode current parent []
                  (newNode_attrs (length (cells s)) (Attr current) ∅)].
Proof. reflexivity. Qed.

Lemma dive_step_stepped current parent root s p r s' :
  dive_step current parent root s = Ret ((p, r), s') ->
  stepped current parent root s p r s'.
Proof.
  unfold dive_step. destruct (Typ current) eqn:Ety.
  all: try (unfold ret; intros H; simplify_eq; apply stepped_skip; congruence).
  - (* start tag *)
    intros H. apply bind_inv in H as (node & s1 & H1 & H).
    rewrite newNode_spec in H1. simplify_eq.
    apply bind_inv in H as (r' & s2 & H2 & H). unfold ret in H. simplify_eq.
    destruct root as [r0|].
    + apply bind_inv in H2 as (u & s3 & H2 & H). unfold ret in H. simplify_eq.
      apply appendChild_inv in H2 as (q & qn & -> & Hq & ->).
      by apply (stepped_start _ _ _ _ q qn).
    + unfold ret in H2. simplify_eq. by apply stepped_first.
  - (* end tag *)
    intros H. apply bind_inv in H as (tag & s1 & H1 & H).
    apply readonly_FindTagReverse in H1 as ->.
    destruct tag as [t|].
    + apply bind_inv in H as (p' & s2 & H2 & H). unfold ret in H. simplify_eq.
      apply getParent_inv in H2 as (a & n & Ha & Hn & -> & ->).
      by apply (stepped_end_found _ _ _ _ a n).
    + unfold ret in H. simplify_eq. apply stepped_skip; congruence.
  - (* self-closing tag *)
    intros H. apply bind_inv in H as (node & s1 & H1 & H).
    rewrite newNode_spec in H1. simplify_eq.
    apply bind_inv in H as (u & s3 & H2 & H). unfold ret in H. simplify_eq.
    apply appendChild_inv in H2 as (q & qn & -> & Hq & ->).
    by apply (stepped_selfclosing _ _ _ _ q qn).
Qed.

(** ** The stores [dive] builds are trees *)

Lemma wf_nodes_nil : wf_nodes [].
Proof. split; intros *; rewrite lookup_nil; done. Qed.

Lemma wf_nodes_first token attrs : wf_nodes [mkNode token None [] attrs].
Proof.
  split.
  - intros i n p [-> <-]%list_lookup_singleton_Some. done.
  - by intros i n [-> <-]%list_lookup_singleton_Some.
  - intros i n c [-> <-]%list_lookup_singleton_Some Hc. simpl in Hc.
    by apply elem_of_nil in Hc.
  - intros c cn p [-> <-]%list_lookup_singleton_Some. done.
Qed.

Section attach.
Variables (ns : list Node) (q : addr) (qn new : Node).
Hypothesis Hq : ns !! q = Some qn.

Local Abbreviation ns' := (<[q := withChild qn (length ns)]> (ns ++ [new])).

Lemma attach_lookup i n :
  ns' !! i = Some n <->
    (i = q /\ n = withChild qn (length ns)) \/
    (i <> q /\ ns !! i = Some n) \/
    (i = length ns /\ n = new).
Proof.
  pose proof (lookup_lt_Some _ _ _ Hq) as Hlt.
  rewrite list_lookup_insert_Some, lookup_snoc_Some.
  rewrite length_app. simpl. split.
  - intros [(-> & <- & _)|(Hne & [[_ H]|[-> <-]])]; eauto.
  - intros [[-> ->]|[[Hne H]|[-> ->]]].
    + left. split_and!; [done..|lia].
    + right. split; [done|]. left. split; [|done].
      by apply lookup_lt_Some in H.
    + right. split; [lia|]. by right.
Qed.

(** Every node of the new list is an old node with the same parent, or
    the new node. *)
Lemma attach_inv i n :
  ns' !! i = Some n ->
  (exists n0, ns !! i = Some n0 /\ Parent n = Parent n0 /\
     Token n = Token n0 /\
     (Children n = Children n0 \/
      i = q /\ Children n = Children n0 ++ [length ns])) \/
  (i = length ns /\ n = new).
Proof.
  intros [[-> ->]|[[Hne H]|[-> ->]]]%attach_lookup.
  - left. exists qn. split_and!; [done..|]. right. done.
  - left. exists n. split_and!; [done..|]. by left.
  - by right.
Qed.

(** Every old node is still there, with its parent and its children. *)
Lemma attach_old i n0 :
  ns !! i = Some n0 ->
  exists n, ns' !! i = Some n /\ Parent n = Parent n0 /\
    (forall c, c ∈ Children n0 -> c ∈ Children n).
Proof.
  intros H. destruct (decide (i = q)) as [->|Hne].
  - exists (withChild qn (length ns)). rewrite attach_lookup.
    assert (n0 = qn) as -> by congruence.
    split_and!; [by left|done|].
    intros c Hc. simpl. apply elem_of_app. by left.
  - exists n0. rewrite attach_lookup. split_and!; [|done..].
    right. by left.
Qed.

Lemma attach_new : ns' !! length ns = Some new.
Proof.
  apply attach_lookup. pose proof (lookup_lt_Some _ _ _ Hq). right. right. done.
Qed.

Lemma wf_nodes_attach :
  Parent new = Some q -> Children new = [] ->
  wf_nodes ns -> wf_nodes ns'.
Proof.
  intros Hnew_parent Hnew_children [Hp Hr Hc Ha].
  pose proof (lookup_lt_Some _ _ _ Hq) as Hlt.
  split.
  - intros i n p Hi Hpar.
    apply attach_inv in Hi as [(n0 & Hi & HP & _)|[-> ->]].
    + rewrite HP in Hpar. eauto.
    + assert (p = q) as -> by congruence. done.
  - intros i n Hi Hpar.
    apply attach_inv in Hi as [(n0 & Hi & HP & _)|[-> ->]].
    + rewrite HP in Hpar. eauto.
    + rewrite Hnew_parent in Hpar. done.
  - intros i n c Hi Hin.
    apply attach_inv in Hi as [(n0 & Hi & HP & _ & HC)|[-> ->]].
    + destruct HC as [HC|[-> HC]]; rewrite HC in Hin.
      * destruct (Hc _ _ _ Hi Hin) as (cn & Hcn & Hcp).
        destruct (attach_old _ _ Hcn) as (cn' & Hcn' & HP' & _).
        exists cn'. split; [done|]. congruence.
      * apply elem_of_app in Hin as [Hin|Hin].
        -- destruct (Hc _ _ _ Hi Hin) as (cn & Hcn & Hcp).
           destruct (attach_old _ _ Hcn) as (cn' & Hcn' & HP' & _).
           exists cn'. split; [done|]. congruence.
        -- apply list_elem_of_singleton in Hin as ->.
           exists new. split; [apply attach_new|done].
    + rewrite Hnew_children in Hin. by apply elem_of_nil in Hin.
  - intros c cn p Hi Hpar.
    apply attach_inv in Hi as [(n0 & Hi & HP & _)|[-> ->]].
    + rewrite HP in Hpar.
      destruct (Ha _ _ _ Hi Hpar) as (pn & Hpn & Hin).
      destruct (attach_old _ _ Hpn) as (pn' & Hpn' & _ & Hsub).
      exists pn'. eauto.
    + assert (p = q) as -> by congruence.
      exists (withChild qn (length ns)). split.
      * apply attach_lookup. by left.
      * simpl. apply elem_of_app. right. by apply list_elem_of_singleton.
Qed.
End attach.

(** An invariant of the turns is an invariant of the loop. *)
Lemma dive_loop_ind (I : Store -> ptr -> ptr -> Prop) (all : list html_Token) :
  (forall current parent root s p r s',
      current ∈ all -> I s parent root ->
      stepped current parent root s p r s' -> I s' p r) ->
  forall ts, ts ⊆ all ->
  forall parent root s root' s',
    I s parent root ->
    dive_loop ts parent root s = Ret (root', s') ->
    exists parent', I s' parent' root'.
Proof.
  intros Hstep ts. induction ts as [|current ts IH];
    intros Hsub parent root s root' s' HI H.
  - unfold dive_loop, ret in H. simplify_eq. by exists parent.
  - rewrite dive_loop_cons in H.
    assert (current ∈ all) as Hin by (apply Hsub; left).
    assert (ts ⊆ all) as Hsub' by (intros x Hx; apply Hsub; by right).
    assert (bind (dive_step current parent root)
              (fun pr => dive_loop ts (fst pr) (snd pr)) s = Ret (root', s') ->
            exists parent', I s' parent' root') as Hgo.
    { intros H'. apply bind_inv in H' as ([p r] & s1 & H1 & H2).
      apply dive_step_stepped in H1. simpl in H2.
      eapply IH; [done| |done]. eauto. }
    destruct (Typ current); try (by apply Hgo).
    simplify_eq. by exists parent.
Qed.

Lemma stepped_tree_inv current parent root s p r s' :
  tree_inv s parent root ->
  stepped current parent root s p r s' ->
  tree_inv s' p r.
Proof.
  intros (Hwf & Hcur & Hroot) Hst.
  destruct Hst as [Hty ->|q qn Hty Hr -> Hq|q qn Hty -> Hq|t tn Hty Ht|Hty1 Hty2].
  - (* the first start tag *)
    simpl in Hroot. unfold tree_inv.
    rewrite nodes_newNode_store, Hroot. rewrite Hroot in Hcur.
    destruct parent as [p|]; [simpl in Hcur; lia|].
    split_and!; [apply wf_nodes_first|simpl; lia|simpl; split; [done|lia]].
  - (* a start tag under the cursor *)
    simpl in Hcur. rewrite nodes_newNode_store in Hq.
    rewrite lookup_app_l in Hq by done.
    unfold tree_inv, attach_store. cbn [nodes]. rewrite nodes_newNode_store.
    split_and!.
    + by apply wf_nodes_attach.
    + simpl. rewrite length_insert, length_app. simpl. lia.
    + destruct root as [r0|]; [|done]. destruct Hroot as [-> Hlen].
      simpl. rewrite length_insert, length_app. simpl. split; [done|lia].
  - (* a self-closing tag under the cursor *)
    simpl in Hcur. rewrite nodes_newNode_store in Hq.
    rewrite lookup_app_l in Hq by done.
    unfold tree_inv, attach_store. cbn [nodes]. rewrite nodes_newNode_store.
    split_and!.
    + by apply wf_nodes_attach.
    + simpl. rewrite length_insert, length_app. simpl. lia.
    + destruct root as [r0|].
      * destruct Hroot as [-> Hlen].
        simpl. rewrite length_insert, length_app. simpl. split; [done|lia].
      * simpl in Hroot. rewrite Hroot in Hq. by rewrite lookup_nil in Hq.
  - (* an end tag that finds its opener *)
    split_and!; [done| |done].
    destruct (Parent tn) as [p'|] eqn:E; [|done]. simpl.
    pose proof (wf_parent _ Hwf _ _ _ Ht E).
    apply lookup_lt_Some in Ht. lia.
  - done.
Qed.

Lemma dive_tree ts root s :
  dive ts emptyStore = Ret (root, s) ->
  wf_nodes (nodes s) /\ root_ok (nodes s) root.
Proof.
  intros H. unfold dive in H.
  assert (tree_inv emptyStore None None) as H0.
  { split_and!; [apply wf_nodes_nil|done..]. }
  assert (forall current parent root s p r s',
             current ∈ ts -> tree_inv s parent root ->
             stepped current parent root s p r s' -> tree_inv s' p r) as Hstep.
  { intros * _. apply stepped_tree_inv. }
  destruct (dive_loop_ind tree_inv ts Hstep ts (reflexivity _) _ _ _ _ _ H0 H)
    as (parent' & Hwf & _ & Hroot).
  done.
Qed.

(** ** [Path] walks the chain of ancestors *)

Lemma wf_first_no_parent ns n :
  wf_nodes ns -> ns !! 0 = Some n -> Parent n = None.
Proof.
  intros Hwf H. destruct (Parent n) as [p|] eqn:E; [|done].
  pose proof (wf_parent _ Hwf _ _ _ H E). lia.
Qed.

Lemma createPath_fuel_unfold fuel s i n acc :
  nodes s !! i = Some n ->
  createPath_fuel (S fuel) (Some i) acc s =
    match Parent n with
    | None => Ret ("/" +:+ Data (Token n) +:+ acc, s)
    | Some p => createPath_fuel fuel (Some p) ("/" +:+ Data (Token n) +:+ acc) s
    end.
Proof.
  intros H. cbn [createPath_fuel].
  rewrite (bind_Ret _ _ _ _ _ (getData_Some _ _ _ H)).
  rewrite (bind_Ret _ _ _ _ _ (getParent_Some _ _ _ H)).
  by destruct (Parent n).
Qed.

Lemma createPath_chain s i tags :
  wf_nodes (nodes s) ->
  chain s 0 i tags ->
  forall fuel acc, i < fuel ->
    createPath_fuel fuel (Some i) acc s = Ret (slashed tags +:+ acc, s).
Proof.
  intros Hwf Hch. induction Hch as [n Hn|m mn c cn tags Hch IH Hm Hc Hcn];
    intros fuel acc Hlt.
  - destruct fuel as [|fuel]; [lia|].
    rewrite (createPath_fuel_unfold _ _ _ _ _ Hn).
    rewrite (wf_first_no_parent _ _ Hwf Hn).
    change (slashed [Data (Token n)]) with ("/" +:+ Data (Token n) +:+ "").
    by rewrite !append_assoc.
  - destruct fuel as [|fuel]; [lia|].
    rewrite (createPath_fuel_unfold _ _ _ _ _ Hcn).
    destruct (wf_children _ Hwf _ _ _ Hm Hc) as (cn' & Hcn' & Hpar).
    assert (cn' = cn) as -> by congruence.
    rewrite Hpar.
    pose proof (wf_parent _ Hwf _ _ _ Hcn Hpar).
    rewrite IH by lia.
    rewrite slashed_app.
    change (slashed [Data (Token cn)]) with ("/" +:+ Data (Token cn) +:+ "").
    by rewrite !append_assoc.
Qed.

Lemma chain_nonempty s r i tags : chain s r i tags -> tags <> [].
Proof. intros [n Hn|m mn c cn tags' _ _ _ _]; [done|]. by destruct tags'. Qed.

Lemma Path_chain s i tags :
  wf_nodes (nodes s) ->
  chain s 0 i tags ->
  Path (Some i) s = Ret ("/" +:+ strings.Join tags "/", s).
Proof.
  intros Hwf Hch. unfold Path, createPath, bind, size.
  assert (i < length (nodes s)) as Hlt.
  { destruct Hch as [n Hn|m mn c cn tags' _ _ _ Hcn];
      eapply lookup_lt_Some; eassumption. }
  rewrite (createPath_chain _ _ _ Hwf Hch) by lia.
  rewrite append_nil_r, slashed_Join; [done|].
  by eapply chain_nonempty.
Qed.

(** Every node of a tree hangs on a chain from the first node. *)
Lemma chain_exists s :
  wf_nodes (nodes s) ->
  forall i n, nodes s !! i = Some n -> exists tags, chain s 0 i tags.
Proof.
  intros Hwf i. induction i as [i IH] using lt_wf_ind. intros n Hn.
  destruct (Parent n) as [p|] eqn:E.
  - pose proof (wf_parent _ Hwf _ _ _ Hn E) as Hlt.
    destruct (wf_attached _ Hwf _ _ _ Hn E) as (pn & Hpn & Hin).
    destruct (IH p Hlt pn Hpn) as (tags & Hch).
    exists (tags ++ [Data (Token n)]). by eapply chain_step.
  - pose proof (wf_root _ Hwf _ _ Hn E) as ->.
    exists [Data (Token n)]. by apply chain_root.
Qed.

(** ** A nil cursor *)

Lemma FindTagReverse_nil tag s : FindTagReverse None tag s = Err NilDeref.
Proof. reflexivity. Qed.

Lemma selfClosing_at_nil_cursor current ts root s :
  Typ current = SelfClosingTagToken ->
  dive_loop (current :: ts) None root s = Err NilDeref.
Proof.
  intros Hty. cbn [dive_loop]. rewrite Hty.
  rewrite (bind_Ret _ _ _ _ _ (newNode_spec _ _ _)).
  by rewrite (bind_Err _ _ _ _ (appendChild_nil _ _)).
Qed.

Lemma startTag_at_nil_cursor current ts r s :
  Typ current = StartTagToken ->
  dive_loop (current :: ts) None (Some r) s = Err NilDeref.
Proof.
  intros Hty. cbn [dive_loop]. rewrite Hty.
  rewrite (bind_Ret _ _ _ _ _ (newNode_spec _ _ _)).
  apply bind_Err. by rewrite (bind_Err _ _ _ _ (appendChild_nil _ _)).
Qed.

Lemma endTag_at_nil_cursor current ts root s :
  Typ current = EndTagToken ->
  dive_loop (current :: ts) None root s = Err NilDeref.
Proof.
  intros Hty. cbn [dive_loop]. rewrite Hty.
  by rewrite (bind_Err _ _ _ _ (FindTagReverse_nil _ _)).
Qed.

(** With an open cursor, an end tag that no open node answers to is
    passed over: the loop goes on from the same cursor, root and store. *)
Lemma stray_endTag_at_open_cursor current ts p root s :
  Typ current = EndTagToken ->
  FindTagReverse (Some p) (Data current) s = Ret (None, s) ->
  dive_loop (current :: ts) (Some p) root s = dive_loop ts (Some p) root s.
Proof.
  intros Hty H. cbn [dive_loop]. rewrite Hty.
  by rewrite (bind_Ret _ _ _ _ _ H).
Qed.

(** ** Text tokens *)

Lemma dive_loop_noText ts : forall parent root s,
  dive_loop ts parent root s = dive_loop (noText ts) parent root s.
Proof.
  induction ts as [|current ts IH]; intros parent root s; [done|].
  unfold noText. rewrite filter_cons. fold (noText ts).
  destruct (decide (Typ current <> TextToken)) as [Hne|Heq].
  - rewrite !dive_loop_cons.
    destruct (Typ current); try done.
    all: unfold bind; destruct (dive_step current parent root s)
      as [[[p r] s1]|]; [apply IH|done].
  - apply dec_stable in Heq. cbn [dive_loop]. rewrite Heq. apply IH.
Qed.

Lemma stepped_fromTag (all : list html_Token) current parent root s p r s' :
  current ∈ all ->
  Forall (fun n => Token n ∈ all /\ fromTag n) (nodes s) ->
  stepped current parent root s p r s' ->
  Forall (fun n => Token n ∈ all /\ fromTag n) (nodes s').
Proof.
  intros Hin HF Hst.
  assert (forall par attrs,
    Typ current = StartTagToken \/ Typ current = SelfClosingTagToken ->
    Forall (fun n => Token n ∈ all /\ fromTag n)
      (nodes s ++ [mkNode current par [] attrs])) as Hnew.
  { intros par attrs Hty. apply Forall_app. split; [done|].
    apply Forall_singleton. done. }
  destruct Hst as [Hty ->|q qn Hty Hr -> Hq|q qn Hty -> Hq|t tn Hty Ht|Hty1 Hty2];
    try done.
  - rewrite nodes_newNode_store. apply Hnew. by left.
  - unfold attach_store. cbn [nodes]. rewrite nodes_newNode_store in *.
    pose proof (Hnew (Some q) (newNode_attrs (length (cells s)) (Attr current) ∅)
                  (or_introl Hty)) as HF'.
    apply Forall_insert; [done|].
    by apply (Forall_lookup_1 _ _ _ _ HF' Hq).
  - unfold attach_store. cbn [nodes]. rewrite nodes_newNode_store in *.
    pose proof (Hnew (Some q) (newNode_attrs (length (cells s)) (Attr current) ∅)
                  (or_intror Hty)) as HF'.
    apply Forall_insert; [done|].
    by apply (Forall_lookup_1 _ _ _ _ HF' Hq).
Qed.

Lemma dive_fromTag ts root s :
  dive ts emptyStore = Ret (root, s) ->
  Forall (fun n => Token n ∈ ts /\ fromTag n) (nodes s).
Proof.
  intros H. unfold dive in H.
  pose (I := fun (s : Store) (_ _ : ptr) =>
               Forall (fun n => Token n ∈ ts /\ fromTag n) (nodes s)).
  assert (I emptyStore None None) as H0 by apply Forall_nil_2.
  assert (forall current parent root s p r s',
             current ∈ ts -> I s parent root ->
             stepped current parent root s p r s' -> I s' p r) as Hstep.
  { intros *. apply stepped_fromTag. }
  by destruct (dive_loop_ind I ts Hstep ts (reflexivity _) _ _ _ _ _ H0 H)
    as (parent' & HI).
Qed.

(** ** [FindPathAll] and [FindPath] follow document order *)

Lemma bind_assoc {A B C} (m : M A) (k : A -> M B) (h : B -> M C) s :
  bind (bind m k) h s = bind m (fun a => bind (k a) h) s.
Proof. unfold bind. by destruct (m s) as [[a s1]|]. Qed.

Lemma bind_ext {A B} (m : M A) (k1 k2 : A -> M B) s :
  (forall a s', k1 a s' = k2 a s') -> bind m k1 s = bind m k2 s.
Proof. intros H. unfold bind. by destruct (m s) as [[a s1]|]. Qed.

Lemma bind_ext_readonly {A B} (m : M A) (k1 k2 : A -> M B) s :
  readonly m ->
  (forall a, m s = Ret (a, s) -> k1 a s = k2 a s) ->
  bind m k1 s = bind m k2 s.
Proof.
  intros Hm H. unfold bind. destruct (m s) as [[a s1]|] eqn:E; [|done].
  pose proof (Hm _ _ _ E) as ->. by apply H.
Qed.

Lemma collect_app q l1 : forall l2 found s,
  collect q (l1 ++ l2) found s = bind (collect q l1 found) (collect q l2) s.
Proof.
  induction l1 as [|a l1 IH]; intros l2 found s; [done|].
  cbn [app collect]. rewrite bind_assoc.
  apply bind_ext. intros b s1. apply IH.
Qed.

Lemma firstMatch_app q l1 : forall l2 s,
  firstMatch q (l1 ++ l2) s =
    bind (firstMatch q l1)
         (fun r => match r with
                   | Some _ => ret r
                   | None => firstMatch q l2
                   end) s.
Proof.
  induction l1 as [|a l1 IH]; intros l2 s; [done|].
  cbn [app firstMatch]. rewrite bind_assoc.
  apply bind_ext. intros [] s1; [done|apply IH].
Qed.

Lemma readonly_collect q l : forall found, readonly (collect q l found).
Proof. induction l as [|a l IH]; intros found; simpl; ro. Qed.

Lemma readonly_firstMatch q l : readonly (firstMatch q l).
Proof. induction l as [|a l IH]; simpl; ro. Qed.

Lemma rangeAppend_collect q s (body : addr -> list ptr -> M (list ptr))
    (pre : addr -> list addr) cs :
  (forall c, c ∈ cs -> forall found, body c found s = collect q (pre c) found s) ->
  forall found,
    rangeAppend body cs found s = collect q (flat_map pre cs) found s.
Proof.
  induction cs as [|c cs IH]; intros Hb found; [done|].
  cbn [rangeAppend flat_map]. rewrite collect_app.
  unfold bind. rewrite Hb by left.
  destruct (collect q (pre c) found s) as [[found' s1]|] eqn:E; [|done].
  apply readonly_collect in E as ->.
  apply IH. intros c' Hc'. apply Hb. by right.
Qed.

Lemma rangeUntil_firstMatch q s (body : addr -> M ptr)
    (pre : addr -> list addr) cs :
  (forall c, c ∈ cs -> body c s = firstMatch q (pre c) s) ->
  rangeUntil body cs s = firstMatch q (flat_map pre cs) s.
Proof.
  induction cs as [|c cs IH]; intros Hb; [done|].
  cbn [rangeUntil flat_map]. rewrite firstMatch_app.
  unfold bind. rewrite Hb by left.
  destruct (firstMatch q (pre c) s) as [[[r|] s1]|] eqn:E; [done| |done].
  apply readonly_firstMatch in E as ->.
  apply IH. intros c' Hc'. apply Hb. by right.
Qed.

Section document_order.
Variables (s : Store) (q : NodePath).
Hypothesis Hwf : wf_nodes (nodes s).

Lemma wf_child_bounds a n c :
  nodes s !! a = Some n -> c ∈ Children n -> a < c < length (nodes s).
Proof.
  intros Hn Hc. destruct (wf_children _ Hwf _ _ _ Hn Hc) as (cn & Hcn & Hp).
  pose proof (wf_parent _ Hwf _ _ _ Hcn Hp).
  apply lookup_lt_Some in Hcn. lia.
Qed.

Lemma findAll_fuel_preorder fuel : forall a found,
  a < length (nodes s) -> length (nodes s) <= a + fuel ->
  findAll_fuel fuel (Some a) q found s =
    collect q (preorder_fuel fuel (nodes s) a) found s.
Proof.
  induction fuel as [|fuel IH]; intros a found Ha Hfuel; [lia|].
  destruct (lookup_lt_is_Some_2 _ _ Ha) as [n Hn].
  cbn [findAll_fuel preorder_fuel collect].
  apply bind_ext_readonly; [apply readonly_matches|]. intros b _.
  rewrite (bind_Ret _ _ _ _ _ (getChildren_Some _ _ _ Hn)).
  unfold childrenOf. rewrite Hn.
  apply rangeAppend_collect. intros c Hc found'.
  pose proof (wf_child_bounds _ _ _ Hn Hc). apply IH; lia.
Qed.

Lemma FindPath_fuel_preorder fuel : forall a,
  a < length (nodes s) -> length (nodes s) <= a + fuel ->
  FindPath_fuel fuel (Some a) q s =
    firstMatch q (preorder_fuel fuel (nodes s) a) s.
Proof.
  induction fuel as [|fuel IH]; intros a Ha Hfuel; [lia|].
  destruct (lookup_lt_is_Some_2 _ _ Ha) as [n Hn].
  cbn [FindPath_fuel preorder_fuel firstMatch].
  apply bind_ext_readonly; [apply readonly_matches|]. intros [] _; [done|].
  rewrite (bind_Ret _ _ _ _ _ (getChildren_Some _ _ _ Hn)).
  unfold childrenOf. rewrite Hn.
  apply rangeUntil_firstMatch. intros c Hc.
  pose proof (wf_child_bounds _ _ _ Hn Hc). apply IH; lia.
Qed.

End document_order.

Lemma collect_firstMatch q s l : forall found res s',
  collect q l found s = Ret (res, s') ->
  exists rest,
    res = found ++ rest /\
    rest = Some <$> List.filter (matchesb s q) l /\
    firstMatch q l s = Ret (default None (head rest), s).
Proof.
  induction l as [|a l IH]; intros found res s' H.
  - unfold collect, ret in H. simplify_eq. exists []. by rewrite app_nil_r.
  - cbn [collect] in H. apply bind_inv in H as (b & s1 & Hm & H).
    pose proof (readonly_matches _ _ _ _ _ Hm) as ->.
    apply IH in H as (rest & -> & Hrest & Hfirst).
    cbn [firstMatch List.filter]. unfold matchesb at 1.
    rewrite (bind_Ret _ _ _ _ _ Hm), Hm.
    destruct b.
    + exists (Some a :: rest). rewrite <- app_assoc. split_and!; [done| |done].
      by rewrite Hrest.
    + by exists rest.
Qed.

(** While no match panics, [collect] returns. *)
Lemma collect_returns q s l : forall found,
  (forall a, a ∈ l -> exists b, matches (Some a) q s = Ret (b, s)) ->
  exists res, collect q l found s = Ret (res, s).
Proof.
  induction l as [|a l IH]; intros found Hm; [by exists found|].
  destruct (Hm a) as [b Hb]; [left|].
  cbn [collect]. rewrite (bind_Ret _ _ _ _ _ Hb).
  apply IH. intros a' Ha'. apply Hm. by right.
Qed.

(** On a tree, [FindPathAll] is [collect] and [FindPath] is [firstMatch]
    over the pre-order of the nodes below the receiver; when [FindPathAll]
    returns, it returns the matching nodes of that order and [FindPath]
    returns the first of them, or nil when there is none. *)
Lemma FindPathAll_FindPath_document_order s q a :
  wf_nodes (nodes s) -> a < length (nodes s) ->
  FindPathAll (Some a) q s = collect q (preorder (nodes s) a) [] s /\
  FindPath (Some a) q s = firstMatch q (preorder (nodes s) a) s /\
  (forall found s', FindPathAll (Some a) q s = Ret (found, s') ->
     found = Some <$> List.filter (matchesb s q) (preorder (nodes s) a) /\
     FindPath (Some a) q s = Ret (default None (head found), s) /\
     (FindPath (Some a) q s = Ret (None, s) <-> found = [])).
Proof.
  intros Hwf Ha.
  assert (FindPathAll (Some a) q s = collect q (preorder (nodes s) a) [] s) as HA.
  { unfold FindPathAll, findAll, bind, size, preorder.
    apply findAll_fuel_preorder; [done|done|lia]. }
  assert (FindPath (Some a) q s = firstMatch q (preorder (nodes s) a) s) as HF.
  { unfold FindPath, bind, size, preorder.
    apply FindPath_fuel_preorder; [done|done|lia]. }
  split_and!; [done..|].
  intros found s' H. rewrite HA in H.
  apply collect_firstMatch in H as (rest & -> & Hrest & Hfirst).
  rewrite HF, Hfirst. simpl. split_and!; [done..|].
  rewrite Hrest. destruct (List.filter _ _); simpl; split; intros; simplify_eq; done.
Qed.

(** ** The attribute map of a new node *)

Lemma newNode_attrs_values l : forall attr (m : gmap string addr) k c,
  newNode_attrs attr l m !! k = Some c ->
  attr <= c < attr + length l \/ m !! k = Some c.
Proof.
  induction l as [|x l IH]; intros attr m k c H; cbn [newNode_attrs] in H;
    [by right|].
  apply IH in H as [H|H]; [left; simpl; lia|].
  apply lookup_insert_Some in H as [[_ <-]|[_ H]]; [left; simpl; lia|by right].
Qed.




Lemma lastWithKey_None k l : lastWithKey k l = None <-> k ∉ (Key <$> l).
Proof.
  induction l as [|x l IH]; cbn [lastWithKey].
  - split; [intros _; apply not_elem_of_nil|done].
  - rewrite fmap_cons, not_elem_of_cons.
    destruct (lastWithKey k l) as [b|].
    + split; [done|]. intros [_ H]. by apply IH in H.
    + destruct (String.eqb_spec (Key x) k) as [->|Hne].
      * split; [done|]. by intros [? _].
      * split; [|done]. intros _. split; [done|]. by apply IH.
Qed.

(** [lastWithKey] is the pair at the last position that has the key. *)
Lemma lastWithKey_last k l a :
  lastWithKey k l = Some a <->
  exists j, l !! j = Some a /\ Key a = k /\
    forall j' b, j < j' -> l !! j' = Some b -> Key b <> k.
Proof.
  revert a. induction l as [|x l IH]; intros a; cbn [lastWithKey].
  - split; [done|]. by intros (j & Hj & _).
  - destruct (lastWithKey k l) as [b|] eqn:E.
    + split.
      * intros [= <-]. destruct (proj1 (IH b) eq_refl) as (j & Hj & Hk & Hlast).
        exists (S j). split_and!; [done..|].
        intros [|j'] c Hlt Hc; [lia|]. apply (Hlast j' c); [lia|done].
      * intros (j & Hj & Hk & Hlast).
        destruct (proj1 (IH b) eq_refl) as (jb & Hjb & Hkb & Hlastb).
        destruct j as [|j].
        -- exfalso. apply (Hlast (S jb) b); [lia|done..].
        -- f_equal. simpl in Hj.
           destruct (Nat.lt_trichotomy j jb) as [Hlt|[->|Hlt]].
           ++ exfalso. apply (Hlast (S jb) b); [lia|done..].
           ++ congruence.
           ++ exfalso. by apply (Hlastb j a).
    + destruct (String.eqb_spec (Key x) k) as [Hx|Hx].
      * split.
        -- intros [= <-]. exists 0. split_and!; [done..|].
           intros [|j'] c Hlt Hc; [lia|]. simpl in Hc.
           apply lastWithKey_None in E. intros Hk. apply E.
           apply list_elem_of_fmap. exists c. split; [done|].
           by eapply list_elem_of_lookup_2.
        -- intros (j & Hj & Hk & _). destruct j as [|j]; [by injection Hj as ->|].
           simpl in Hj. apply lastWithKey_None in E. exfalso. apply E.
           apply list_elem_of_fmap. exists a. split; [done|].
           by eapply list_elem_of_lookup_2.
      * split; [done|]. intros (j & Hj & Hk & _).
        destruct j as [|j]; [injection Hj as ->; done|].
        simpl in Hj. apply lastWithKey_None in E. exfalso. apply E.
        apply list_elem_of_fmap. exists a. split; [done|].
        by eapply list_elem_of_lookup_2.
Qed.




(** ** [FindTagReverse] and [MatchesPath], call by call *)

Lemma FindTagReverse_fuel_unfold fuel s i n tag :
  nodes s !! i = Some n ->
  FindTagReverse_fuel (S fuel) (Some i) tag s =
    if String.eqb (Data (Token n)) tag then Ret (Some i, s)
    else match Parent n with
         | None => Ret (None, s)
         | Some p => FindTagReverse_fuel fuel (Some p) tag s
         end.
Proof.
  intros H. cbn [FindTagReverse_fuel].
  rewrite (bind_Ret _ _ _ _ _ (getData_Some _ _ _ H)).
  destruct (String.eqb (Data (Token n)) tag); [done|].
  rewrite (bind_Ret _ _ _ _ _ (getParent_Some _ _ _ H)).
  by destruct (Parent n).
Qed.

(** The search starts at the receiver: a node with the tag finds itself. *)
Lemma FindTagReverse_self s i n :
  nodes s !! i = Some n ->
  FindTagReverse (Some i) (Data (Token n)) s = Ret (Some i, s).
Proof.
  intros H. unfold FindTagReverse, bind, size.
  rewrite (FindTagReverse_fuel_unfold _ _ _ _ _ H).
  by rewrite String.eqb_refl.
Qed.

Lemma FindTagReverse_fuel_found fuel : forall node tag s r s',
  FindTagReverse_fuel fuel node tag s = Ret (Some r, s') ->
  exists n, nodes s !! r = Some n /\ Data (Token n) = tag.
Proof.
  induction fuel as [|fuel IH]; intros node tag s r s' H; [done|].
  destruct node as [a|]; [|done].
  destruct (nodes s !! a) as [n|] eqn:Hn.
  - rewrite (FindTagReverse_fuel_unfold _ _ _ _ _ Hn) in H.
    destruct (String.eqb_spec (Data (Token n)) tag) as [Heq|Hne].
    + simplify_eq. by exists n.
    + destruct (Parent n) as [p|]; [by eapply IH|done].
  - cbn [FindTagReverse_fuel] in H. unfold bind, getData, bind, deref in H.
    by rewrite Hn in H.
Qed.

(** On a tree the search ends: at a node at or above the receiver, or
    with nil. *)
Lemma FindTagReverse_fuel_total s tag fuel :
  wf_nodes (nodes s) ->
  forall a, a < length (nodes s) -> a < fuel ->
  exists r, FindTagReverse_fuel fuel (Some a) tag s = Ret (r, s) /\
            cursor_ok (nodes s) r.
Proof.
  intros Hwf. induction fuel as [|fuel IH]; intros a Ha Hfuel; [lia|].
  destruct (lookup_lt_is_Some_2 _ _ Ha) as [n Hn].
  rewrite (FindTagReverse_fuel_unfold _ _ _ _ _ Hn).
  destruct (String.eqb (Data (Token n)) tag); [by exists (Some a)|].
  destruct (Parent n) as [p|] eqn:E; [|by exists None].
  pose proof (wf_parent _ Hwf _ _ _ Hn E). apply IH; lia.
Qed.

Lemma FindTagReverse_total s tag a :
  wf_nodes (nodes s) -> a < length (nodes s) ->
  exists r, FindTagReverse (Some a) tag s = Ret (r, s) /\
            cursor_ok (nodes s) r.
Proof.
  intros Hwf Ha. unfold FindTagReverse, bind, size.
  apply FindTagReverse_fuel_total; [done|done|lia].
Qed.

Lemma MatchesPath_fuel_unfold fuel node path :
  path <> "" ->
  MatchesPath_fuel (S fuel) node path =
    let split := strings.Split path "/" in
    let current := nth (length split - 1) split "" in
    let directChild := strings.HasPrefix current "." in
    let current := strings.TrimPrefix current "." in
    if Nat.eqb (length split) 1 then
      do d <- getData node; ret (String.eqb current d)
    else
      do d <- getData node;
      if negb (String.eqb current d) then ret false
      else
        let newPath := strings.Join (take (length split - 1) split) "/" in
        if directChild then
          do p <- getParent node; MatchesPath_fuel fuel p newPath
        else
          let parentName :=
            strings.TrimPrefix (nth (length split - 2) split "") "." in
          do parent <- FindTagReverse node parentName;
          match parent with
          | Some _ => MatchesPath_fuel fuel parent newPath
          | None => ret false
          end.
Proof.
  intros Hne. cbn [MatchesPath_fuel].
  by destruct (String.eqb_spec path "").
Qed.

Lemma TrimPrefix_no_prefix t p :
  strings.HasPrefix t p = false -> strings.TrimPrefix t p = t.
Proof. intros H. unfold strings.TrimPrefix. by rewrite H. Qed.

Lemma MatchesPath_fuel_one_segment fuel s i n t :
  nodes s !! i = Some n ->
  hasByte "/" t = false -> strings.HasPrefix t "." = false ->
  MatchesPath_fuel (S fuel) (Some i) t s
    = Ret (String.eqb t (Data (Token n)) || String.eqb t "", s).
Proof.
  intros Hn Hsep Hdot. cbn [MatchesPath_fuel].
  destruct (String.eqb_spec t "") as [->|Hne]; [by rewrite orb_true_r|].
  rewrite orb_false_r. cbv zeta.
  rewrite (Split_no_sep _ _ Hsep). cbn [length Nat.sub nth Nat.eqb].
  rewrite (TrimPrefix_no_prefix _ _ Hdot).
  by rewrite (bind_Ret _ _ _ _ _ (getData_Some _ _ _ Hn)).
Qed.

(** A path of two unmarked segments [a/b]: the node must have the tag
    [b], and the upward search for [a], which starts at the node itself,
    must find a node. *)
Lemma MatchesPath_two_segments s i n a b :
  nodes s !! i = Some n ->
  hasByte "/" a = false -> strings.HasPrefix a "." = false ->
  hasByte "/" b = false -> strings.HasPrefix b "." = false ->
  MatchesPath (Some i) (a +:+ "/" +:+ b) s =
    if String.eqb b (Data (Token n)) then
      match FindTagReverse (Some i) a s with
      | Ret (Some _, _) => Ret (true, s)
      | Ret (None, _) => Ret (false, s)
      | Err e => Err e
      end
    else Ret (false, s).
Proof.
  intros Hn Hsa Hda Hsb Hdb. unfold MatchesPath.
  rewrite MatchesPath_fuel_unfold by (by destruct a).
  cbv zeta. change (a +:+ "/" +:+ b) with (a +:+ String "/" b).
  rewrite (Split_append_sep _ _ _ Hsa), (Split_no_sep _ _ Hsb).
  cbn [length Nat.sub nth Nat.eqb take].
  rewrite (TrimPrefix_no_prefix _ _ Hdb), (TrimPrefix_no_prefix _ _ Hda), Hdb.
  rewrite (bind_Ret _ _ _ _ _ (getData_Some _ _ _ Hn)).
  destruct (String.eqb b (Data (Token n))); [|done]. cbn [negb].
  change (strings.Join [a] "/") with a.
  unfold bind.
  destruct (FindTagReverse (Some i) a s) as [[r s1]|] eqn:E; [|done].
  pose proof (readonly_FindTagReverse _ _ _ _ _ E) as ->.
  destruct r as [r|]; [|done].
  unfold FindTagReverse, bind, size in E.
  apply FindTagReverse_fuel_found in E as (rn & Hrn & Hdata).
  rewrite length_append. change (String.length (String "/" b)) with (S (String.length b)).
  replace (String.length a + S (String.length b))
    with (S (String.length a + String.length b)) by lia.
  rewrite (MatchesPath_fuel_one_segment _ _ _ _ _ Hrn Hsa Hda).
  by rewrite Hdata, String.eqb_refl.
Qed.

(** So a path that names one tag twice is matched by every node with
    that tag, whatever is above it. *)
Lemma MatchesPath_same_tag_twice s i n :
  nodes s !! i = Some n ->
  hasByte "/" (Data (Token n)) = false ->
  strings.HasPrefix (Data (Token n)) "." = false ->
  MatchesPath (Some i) (Data (Token n) +:+ "/" +:+ Data (Token n)) s
    = Ret (true, s).
Proof.
  intros Hn Hs Hd.
  rewrite (MatchesPath_two_segments _ _ _ _ _ Hn Hs Hd Hs Hd).
  by rewrite String.eqb_refl, (FindTagReverse_self _ _ _ Hn).
Qed.

(** On a tree [MatchesPath] ends: with an answer, or with the panic of a
    nil dereference. *)
Lemma MatchesPath_fuel_total s :
  wf_nodes (nodes s) ->
  forall fuel path node,
    String.length path < fuel -> cursor_ok (nodes s) node ->
    (exists b, MatchesPath_fuel fuel node path s = Ret (b, s)) \/
    MatchesPath_fuel fuel node path s = Err NilDeref.
Proof.
  intros Hwf fuel. induction fuel as [|fuel IH]; intros path node Hlen Hnode; [lia|].
  destruct (String.eqb_spec path "") as [->|Hne]; [left; by exists true|].
  rewrite MatchesPath_fuel_unfold by done. cbv zeta.
  destruct node as [a|]; [|right; by destruct (Nat.eqb _ 1)].
  destruct (lookup_lt_is_Some_2 _ _ Hnode) as [n Hn].
  destruct (Nat.eqb_spec (length (strings.Split path "/")) 1) as [H1|H1].
  { left. rewrite (bind_Ret _ _ _ _ _ (getData_Some _ _ _ Hn)). by eexists. }
  rewrite (bind_Ret _ _ _ _ _ (getData_Some _ _ _ Hn)).
  destruct (negb _); [left; by eexists|].
  pose proof (newPath_shorter path H1) as Hshort. cbv zeta in Hshort.
  destruct (strings.HasPrefix _ ".").
  - rewrite (bind_Ret _ _ _ _ _ (getParent_Some _ _ _ Hn)).
    apply IH; [lia|].
    destruct (Parent n) as [p|] eqn:E; [|done]. simpl.
    pose proof (wf_parent _ Hwf _ _ _ Hn E). simpl in Hnode. lia.
  - destruct (FindTagReverse_total s
                (strings.TrimPrefix
                   (nth (length (strings.Split path "/") - 2)
                        (strings.Split path "/") "") ".") a Hwf Hnode)
      as (r & Hr & Hok).
    rewrite (bind_Ret _ _ _ _ _ Hr).
    destruct r as [b|]; [|left; by eexists].
    apply IH; [lia|done].
Qed.

Lemma MatchesPath_total s node path :
  wf_nodes (nodes s) -> cursor_ok (nodes s) node ->
  (exists b, MatchesPath node path s = Ret (b, s)) \/
  MatchesPath node path s = Err NilDeref.
Proof. intros Hwf Hn. apply MatchesPath_fuel_total; [done|lia|done]. Qed.

(** ** A stray end tag under an open cursor *)

Lemma FindTagReverse_fuel_onChain s tag fuel : forall p r s',
  FindTagReverse_fuel fuel (Some p) tag s = Ret (Some r, s') ->
  onChain s p r.
Proof.
  induction fuel as [|fuel IH]; intros p r s' H; [done|].
  destruct (nodes s !! p) as [n|] eqn:Hn.
  - rewrite (FindTagReverse_fuel_unfold _ _ _ _ _ Hn) in H.
    destruct (String.eqb (Data (Token n)) tag).
    + simplify_eq. apply onChain_self.
    + destruct (Parent n) as [q|] eqn:E; [|done].
      eapply onChain_up; [done..|]. by eapply IH.
  - cbn [FindTagReverse_fuel] in H. unfold bind, getData, bind, deref in H.
    by rewrite Hn in H.
Qed.

(** No open node has the tag: the search answers nil. *)
Lemma FindTagReverse_stray s p tag :
  wf_nodes (nodes s) -> p < length (nodes s) ->
  (forall r n, onChain s p r -> nodes s !! r = Some n ->
     Data (Token n) <> tag) ->
  FindTagReverse (Some p) tag s = Ret (None, s).
Proof.
  intros Hwf Hp Hno.
  destruct (FindTagReverse_total s tag p Hwf Hp) as ([r|] & Hr & _); [|done].
  exfalso. unfold FindTagReverse, bind, size in Hr.
  pose proof (FindTagReverse_fuel_onChain _ _ _ _ _ _ Hr) as Hch.
  apply FindTagReverse_fuel_found in Hr as (n & Hn & Hd).
  by apply (Hno r n).
Qed.

(** Under an open cursor of a tree, an end tag that no open node answers
    to changes nothing: the loop goes on with the rest of the stream
    from the same cursor, the same root and the same store. *)
Lemma stray_endTag_is_passed_over current ts p root s :
  tree_inv s (Some p) root ->
  Typ current = EndTagToken ->
  (forall r n, onChain s p r -> nodes s !! r = Some n ->
     Data (Token n) <> Data current) ->
  dive_loop (current :: ts) (Some p) root s = dive_loop ts (Some p) root s.
Proof.
  intros (Hwf & Hcur & _) Hty Hno.
  apply stray_endTag_at_open_cursor; [done|].
  by apply FindTagReverse_stray.
Qed.

(** When the two names of [a/b] differ, the node that satisfies [a] is
    strictly above the node that satisfies [b]. *)
Lemma MatchesPath_two_segments_above s i n a b :
  nodes s !! i = Some n ->
  hasByte "/" a = false -> strings.HasPrefix a "." = false ->
  hasByte "/" b = false -> strings.HasPrefix b "." = false ->
  a <> b ->
  MatchesPath (Some i) (a +:+ "/" +:+ b) s = Ret (true, s) ->
  Data (Token n) = b /\
  exists r rn, onChain s i r /\ r <> i /\
    nodes s !! r = Some rn /\ Data (Token rn) = a.
Proof.
  intros Hn Hsa Hda Hsb Hdb Hab H.
  rewrite (MatchesPath_two_segments _ _ _ _ _ Hn Hsa Hda Hsb Hdb) in H.
  destruct (String.eqb_spec b (Data (Token n))) as [Hb|]; [|discriminate].
  split; [done|].
  destruct (FindTagReverse (Some i) a s) as [[[r|] s1]|] eqn:E;
    [|discriminate..].
  unfold FindTagReverse, bind, size in E.
  pose proof (FindTagReverse_fuel_onChain _ _ _ _ _ _ E) as Hch.
  apply FindTagReverse_fuel_found in E as (rn & Hrn & Hd).
  exists r, rn. split_and!; [done| |done..].
  intros ->. congruence.
Qed.

(** ** On a tree the lookups end *)

Lemma attrs_ok_newNode_store token parent s :
  attrs_ok s -> attrs_ok (newNode_store token parent s).
Proof.
  intros Hok i n k c Hn Hk. unfold newNode_store in *. cbn [nodes cells] in *.
  rewrite length_app. simpl.
  apply lookup_snoc_Some in Hn as [[_ Hn]|[_ <-]].
  - pose proof (Hok _ _ _ _ Hn Hk). lia.
  - cbn [Attributes] in Hk.
    apply newNode_attrs_values in Hk as [Hk|Hk]; [lia|].
    by rewrite lookup_empty in Hk.
Qed.

Lemma attrs_ok_attach_store current q qn s :
  nodes (newNode_store current (Some q) s) !! q = Some qn ->
  attrs_ok s -> attrs_ok (attach_store current q qn s).
Proof.
  intros Hq Hok i n k c Hn Hk.
  pose proof (attrs_ok_newNode_store current (Some q) s Hok) as Hok'.
  unfold attach_store in *. cbn [nodes cells] in Hn |- *.
  apply list_lookup_insert_Some in Hn as [(-> & <- & _)|[_ Hn]].
  - by apply (Hok' _ _ _ _ Hq Hk).
  - by apply (Hok' _ _ _ _ Hn Hk).
Qed.

Lemma stepped_attrs_ok current parent root s p r s' :
  attrs_ok s -> stepped current parent root s p r s' -> attrs_ok s'.
Proof.
  intros Hok [Hty ->|q qn Hty Hr -> Hq|q qn Hty -> Hq|t tn Hty Ht|Hty1 Hty2];
    auto using attrs_ok_newNode_store, attrs_ok_attach_store.
Qed.

Lemma dive_attrs_ok ts root s :
  dive ts emptyStore = Ret (root, s) -> attrs_ok s.
Proof.
  intros H. unfold dive in H.
  pose (I := fun (s : Store) (_ _ : ptr) => attrs_ok s).
  assert (I emptyStore None None) as H0.
  { intros i n k c Hn. simpl in Hn. by rewrite lookup_nil in Hn. }
  assert (forall current parent root s p r s',
             current ∈ ts -> I s parent root ->
             stepped current parent root s p r s' -> I s' p r) as Hstep.
  { intros * _. apply stepped_attrs_ok. }
  by destruct (dive_loop_ind I ts Hstep ts (reflexivity _) _ _ _ _ _ H0 H)
    as (parent' & HI).
Qed.

Lemma loadCell_total s c :
  c < length (cells s) -> exists v, loadCell c s = Ret (v, s).
Proof.
  intros Hc. destruct (lookup_lt_is_Some_2 _ _ Hc) as [v Hv].
  exists v. unfold loadCell. by rewrite Hv.
Qed.

Lemma HasClass_total s a class :
  attrs_ok s -> a < length (nodes s) ->
  exists b, HasClass (Some a) class s = Ret (b, s).
Proof.
  intros Hok Ha. destruct (lookup_lt_is_Some_2 _ _ Ha) as [n Hn].
  unfold HasClass. destruct (String.eqb class ""); [by eexists|].
  rewrite (bind_Ret _ _ _ _ _ (getAttributes_Some _ _ _ Hn)).
  destruct (Attributes n !! "class") as [c|] eqn:E; [|by eexists].
  destruct (loadCell_total s c) as [v Hv]; [by eapply Hok|].
  rewrite (bind_Ret _ _ _ _ _ Hv). by eexists.
Qed.

Lemma HasID_total s a ID :
  attrs_ok s -> a < length (nodes s) ->
  exists b, HasID (Some a) ID s = Ret (b, s).
Proof.
  intros Hok Ha. destruct (lookup_lt_is_Some_2 _ _ Ha) as [n Hn].
  unfold HasID. destruct (String.eqb ID ""); [by eexists|].
  rewrite (bind_Ret _ _ _ _ _ (getAttributes_Some _ _ _ Hn)).
  destruct (Attributes n !! "id") as [c|] eqn:E; [|by eexists].
  destruct (loadCell_total s c) as [v Hv]; [by eapply Hok|].
  rewrite (bind_Ret _ _ _ _ _ Hv). by eexists.
Qed.

Lemma matches_total s a q :
  wf_nodes (nodes s) -> attrs_ok s -> a < length (nodes s) ->
  (exists b, matches (Some a) q s = Ret (b, s)) \/
  matches (Some a) q s = Err NilDeref.
Proof.
  intros Hwf Hok Ha. unfold matches.
  destruct (MatchesPath_total s (Some a) (NP_Path q) Hwf Ha) as [[m Hm]|Hm];
    [|right; by rewrite (bind_Err _ _ _ _ Hm)].
  left. rewrite (bind_Ret _ _ _ _ _ Hm).
  destruct m; [|by eexists]. cbn [negb].
  destruct (HasClass_total s a (NP_Class q) Hok Ha) as [c Hc].
  rewrite (bind_Ret _ _ _ _ _ Hc).
  destruct c; [|by eexists]. cbn [negb].
  by apply HasID_total.
Qed.

Lemma preorder_fuel_valid s fuel :
  wf_nodes (nodes s) ->
  forall a x, a < length (nodes s) ->
    x ∈ preorder_fuel fuel (nodes s) a -> x < length (nodes s).
Proof.
  intros Hwf. induction fuel as [|fuel IH]; intros a x Ha Hx.
  - by apply elem_of_nil in Hx.
  - cbn [preorder_fuel] in Hx. apply elem_of_cons in Hx as [->|Hx]; [done|].
    apply list_elem_of_In, in_flat_map in Hx as (c & Hc & Hx).
    apply list_elem_of_In in Hc, Hx.
    unfold childrenOf in Hc.
    destruct (nodes s !! a) as [n|] eqn:Hn; [|by apply elem_of_nil in Hc].
    pose proof (wf_child_bounds s Hwf _ _ _ Hn Hc).
    apply (IH c); [lia|done].
Qed.

Lemma collect_total s q l : forall found,
  (forall a, a ∈ l ->
     (exists b, matches (Some a) q s = Ret (b, s)) \/
     matches (Some a) q s = Err NilDeref) ->
  (exists res, collect q l found s = Ret (res, s)) \/
  collect q l found s = Err NilDeref.
Proof.
  induction l as [|a l IH]; intros found Hm; [left; by exists found|].
  cbn [collect]. destruct (Hm a) as [[b Hb]|Hb]; [left| |].
  - rewrite (bind_Ret _ _ _ _ _ Hb). apply IH. intros a' Ha'. apply Hm. by right.
  - right. by rewrite (bind_Err _ _ _ _ Hb).
Qed.

Lemma firstMatch_total s q l :
  (forall a, a ∈ l ->
     (exists b, matches (Some a) q s = Ret (b, s)) \/
     matches (Some a) q s = Err NilDeref) ->
  (exists res, firstMatch q l s = Ret (res, s)) \/
  firstMatch q l s = Err NilDeref.
Proof.
  induction l as [|a l IH]; intros Hm; [left; by exists None|].
  cbn [firstMatch]. destruct (Hm a) as [[b Hb]|Hb]; [left| |].
  - rewrite (bind_Ret _ _ _ _ _ Hb). destruct b; [left; by eexists|].
    apply IH. intros a' Ha'. apply Hm. by right.
  - right. by rewrite (bind_Err _ _ _ _ Hb).
Qed.

Lemma rangeUntil_total s (body : addr -> M ptr) cs :
  (forall c, c ∈ cs -> exists r, body c s = Ret (r, s)) ->
  exists r, rangeUntil body cs s = Ret (r, s).
Proof.
  induction cs as [|c cs IH]; intros Hb; [by exists None|].
  cbn [rangeUntil]. destruct (Hb c) as [r Hr]; [left|].
  rewrite (bind_Ret _ _ _ _ _ Hr). destruct r; [by eexists|].
  apply IH. intros c' Hc'. apply Hb. by right.
Qed.

Lemma FindTag_fuel_total s tag fuel :
  wf_nodes (nodes s) ->
  forall a, a < length (nodes s) -> length (nodes s) <= a + fuel ->
  exists r, FindTag_fuel fuel (Some a) tag s = Ret (r, s).
Proof.
  intros Hwf. induction fuel as [|fuel IH]; intros a Ha Hfuel; [lia|].
  destruct (lookup_lt_is_Some_2 _ _ Ha) as [n Hn].
  cbn [FindTag_fuel].
  rewrite (bind_Ret _ _ _ _ _ (getData_Some _ _ _ Hn)).
  destruct (String.eqb _ tag); [by eexists|].
  rewrite (bind_Ret _ _ _ _ _ (getChildren_Some _ _ _ Hn)).
  apply rangeUntil_total. intros c Hc.
  pose proof (wf_child_bounds s Hwf _ _ _ Hn Hc). apply IH; lia.
Qed.

Lemma rangeAppend_preorder s (body : addr -> list ptr -> M (list ptr))
    (pre : addr -> list addr) cs :
  (forall c, c ∈ cs -> forall found,
     body c found s = Ret (found ++ (Some <$> pre c), s)) ->
  forall found,
    rangeAppend body cs found s = Ret (found ++ (Some <$> flat_map pre cs), s).
Proof.
  induction cs as [|c cs IH]; intros Hb found.
  - simpl. by rewrite app_nil_r.
  - cbn [rangeAppend flat_map]. rewrite (bind_Ret _ _ _ _ _ (Hb c ltac:(left) found)).
    rewrite IH by (intros c' Hc'; apply Hb; by right).
    by rewrite fmap_app, app_assoc.
Qed.

(** [getChildTree] appends the pre-order of the node. *)
Lemma getChildTree_fuel_preorder s fuel :
  wf_nodes (nodes s) ->
  forall a found, a < length (nodes s) -> length (nodes s) <= a + fuel ->
  getChildTree_fuel fuel (Some a) found s =
    Ret (found ++ (Some <$> preorder_fuel fuel (nodes s) a), s).
Proof.
  intros Hwf. induction fuel as [|fuel IH]; intros a found Ha Hfuel; [lia|].
  destruct (lookup_lt_is_Some_2 _ _ Ha) as [n Hn].
  cbn [getChildTree_fuel preorder_fuel].
  rewrite (bind_Ret _ _ _ _ _ (getChildren_Some _ _ _ Hn)).
  unfold childrenOf. rewrite Hn.
  rewrite (rangeAppend_preorder s _ (preorder_fuel fuel (nodes s))).
  - by rewrite fmap_cons, <- app_assoc.
  - intros c Hc found'.
    pose proof (wf_child_bounds s Hwf _ _ _ Hn Hc). apply IH; lia.
Qed.

(** [FlattenChildren] returns the descendants of the node in pre-order. *)
Lemma FlattenChildren_preorder s a :
  wf_nodes (nodes s) -> a < length (nodes s) ->
  FlattenChildren (Some a) s =
    Ret (Some <$> flat_map (preorder (nodes s)) (childrenOf (nodes s) a), s).
Proof.
  intros Hwf Ha. destruct (lookup_lt_is_Some_2 _ _ Ha) as [n Hn].
  unfold FlattenChildren.
  rewrite (bind_Ret _ _ _ _ _ (getChildren_Some _ _ _ Hn)).
  unfold childrenOf. rewrite Hn.
  rewrite (rangeAppend_preorder s _ (preorder (nodes s))); [done|].
  intros c Hc found. unfold getChildTree, bind, size, preorder.
  pose proof (wf_child_bounds s Hwf _ _ _ Hn Hc).
  apply getChildTree_fuel_preorder; [done|lia..].
Qed.

(** In a tree that [dive] built, every lookup on a node of the tree
    ends within the fuel of its entry point: it returns and leaves the
    store, or, where a path match reaches above the root, it panics with
    the nil dereference. *)
Lemma lookups_end_on_built_trees ts root s a :
  dive ts emptyStore = Ret (root, s) -> a < length (nodes s) ->
  (forall tag, exists r, FindTag (Some a) tag s = Ret (r, s)) /\
  (forall tag, exists r, FindTagReverse (Some a) tag s = Ret (r, s)) /\
  (exists r, FlattenChildren (Some a) s = Ret (r, s)) /\
  (exists r, Path (Some a) s = Ret (r, s)) /\
  (forall path, (exists b, MatchesPath (Some a) path s = Ret (b, s)) \/
                MatchesPath (Some a) path s = Err NilDeref) /\
  (forall q, (exists r, FindPath (Some a) q s = Ret (r, s)) \/
             FindPath (Some a) q s = Err NilDeref) /\
  (forall q, (exists r, FindPathAll (Some a) q s = Ret (r, s)) \/
             FindPathAll (Some a) q s = Err NilDeref).
Proof.
  intros Hd Ha.
  pose proof (dive_attrs_ok _ _ _ Hd) as Hok.
  pose proof (dive_tree _ _ _ Hd) as [Hwf _].
  assert (forall q x, x ∈ preorder (nodes s) a ->
            (exists b, matches (Some x) q s = Ret (b, s)) \/
            matches (Some x) q s = Err NilDeref) as Hm.
  { intros q x Hx. apply matches_total; [done..|].
    by apply (preorder_fuel_valid s (S (length (nodes s))) Hwf a). }
  split_and!.
  - intros tag. unfold FindTag, bind, size.
    apply FindTag_fuel_total; [done|done|lia].
  - intros tag. destruct (FindTagReverse_total s tag a Hwf Ha) as (r & Hr & _).
    by exists r.
  - rewrite FlattenChildren_preorder by done. by eexists.
  - destruct (lookup_lt_is_Some_2 _ _ Ha) as [n Hn].
    destruct (chain_exists s Hwf _ _ Hn) as [tags Hch].
    rewrite (Path_chain _ _ _ Hwf Hch). by eexists.
  - intros path. by apply MatchesPath_total.
  - intros q.
    destruct (FindPathAll_FindPath_document_order s q a Hwf Ha) as (_ & -> & _).
    apply firstMatch_total. apply Hm.
  - intros q.
    destruct (FindPathAll_FindPath_document_order s q a Hwf Ha) as (-> & _).
    apply collect_total. apply Hm.
Qed.

(** ** [dive], case by case *)

Lemma dive_loop_skipped t ts parent root s :
  skipped t -> dive_loop (t :: ts) parent root s = dive_loop ts parent root s.
Proof. intros [H|[H|H]]; cbn [dive_loop]; by rewrite H. Qed.

Lemma dive_loop_first t ts parent s :
  Typ t = StartTagToken ->
  dive_loop (t :: ts) parent None s =
    dive_loop ts (Some (length (nodes s))) (Some (length (nodes s)))
      (newNode_store t parent s).
Proof.
  intros H. cbn [dive_loop]. rewrite H.
  by rewrite (bind_Ret _ _ _ _ _ (newNode_spec _ _ _)).
Qed.

Lemma appendChild_new t p pn s :
  nodes s !! p = Some pn ->
  appendChild (Some p) (length (nodes s)) (newNode_store t (Some p) s)
    = Ret (tt, attach_store t p pn s).
Proof.
  intros Hp. apply appendChild_Some.
  rewrite nodes_newNode_store. by apply lookup_app_l_Some.
Qed.

Lemma dive_loop_start t ts p pn r s :
  Typ t = StartTagToken -> nodes s !! p = Some pn ->
  dive_loop (t :: ts) (Some p) (Some r) s =
    dive_loop ts (Some (length (nodes s))) (Some r) (attach_store t p pn s).
Proof.
  intros H Hp. cbn [dive_loop]. rewrite H.
  rewrite (bind_Ret _ _ _ _ _ (newNode_spec _ _ _)).
  unfold bind at 1. unfold bind at 1.
  by rewrite (appendChild_new _ _ _ _ Hp).
Qed.

Lemma dive_loop_selfClosing t ts p pn root s :
  Typ t = SelfClosingTagToken -> nodes s !! p = Some pn ->
  dive_loop (t :: ts) (Some p) root s =
    dive_loop ts (Some p) root (attach_store t p pn s).
Proof.
  intros H Hp. cbn [dive_loop]. rewrite H.
  rewrite (bind_Ret _ _ _ _ _ (newNode_spec _ _ _)).
  by rewrite (bind_Ret _ _ _ _ _ (appendChild_new _ _ _ _ Hp)).
Qed.

Lemma dive_loop_end_found t ts parent c cn root s :
  Typ t = EndTagToken ->
  FindTagReverse parent (Data t) s = Ret (Some c, s) ->
  nodes s !! c = Some cn ->
  dive_loop (t :: ts) parent root s = dive_loop ts (Parent cn) root s.
Proof.
  intros H Hf Hc. cbn [dive_loop]. rewrite H.
  rewrite (bind_Ret _ _ _ _ _ Hf).
  by rewrite (bind_Ret _ _ _ _ _ (getParent_Some _ _ _ Hc)).
Qed.

(** ** Well-nested streams build *)

Lemma keeps_refl s : keeps s s.
Proof. intros i n H. by exists n. Qed.

Lemma keeps_trans s1 s2 s3 : keeps s1 s2 -> keeps s2 s3 -> keeps s1 s3.
Proof.
  intros H12 H23 i n H.
  destruct (H12 _ _ H) as (n2 & H2 & HT2 & HP2).
  destruct (H23 _ _ H2) as (n3 & H3 & HT3 & HP3).
  exists n3. split_and!; [done|congruence..].
Qed.

Lemma keeps_attach_store t p pn s :
  nodes s !! p = Some pn -> keeps s (attach_store t p pn s).
Proof.
  intros Hp i n Hn. unfold attach_store. cbn [nodes].
  rewrite nodes_newNode_store.
  destruct (decide (i = p)) as [->|Hne].
  - assert (n = pn) as -> by congruence.
    exists (withChild pn (length (nodes s))). split; [|done].
    apply (attach_lookup _ _ _ _ Hp). by left.
  - exists n. split; [|done].
    apply (attach_lookup _ _ _ _ Hp). right. by left.
Qed.

Lemma attach_store_new t p pn s :
  nodes s !! p = Some pn ->
  exists n, nodes (attach_store t p pn s) !! length (nodes s) = Some n /\
    Token n = t /\ Parent n = Some p.
Proof.
  intros Hp. eexists. split.
  - unfold attach_store. cbn [nodes]. rewrite nodes_newNode_store.
    by apply attach_new.
  - done.
Qed.

Lemma tree_inv_attach_store t p pn s root cursor :
  Typ t = StartTagToken \/ Typ t = SelfClosingTagToken ->
  nodes s !! p = Some pn -> root <> None ->
  tree_inv s (Some p) root ->
  cursor = Some p \/ cursor = Some (length (nodes s)) ->
  tree_inv (attach_store t p pn s) cursor root.
Proof.
  intros Hty Hp Hroot (Hwf & Hcur & Hr) Hc.
  unfold tree_inv, attach_store. cbn [nodes]. rewrite nodes_newNode_store.
  split_and!.
  - by apply wf_nodes_attach.
  - simpl in Hcur.
    destruct Hc as [-> | ->]; simpl; rewrite length_insert, length_app; simpl; lia.
  - destruct root as [r0|]; [|done]. destruct Hr as [-> Hlen].
    simpl. rewrite length_insert, length_app. simpl. split; [done|lia].
Qed.

(** Content leaves the cursor where it was. *)
Lemma balanced_keeps_cursor body :
  balanced body ->
  forall rest p r s,
    tree_inv s (Some p) (Some r) ->
    exists s',
      dive_loop (body ++ rest) (Some p) (Some r) s
        = dive_loop rest (Some p) (Some r) s' /\
      tree_inv s' (Some p) (Some r) /\ keeps s s'.
Proof.
  induction 1 as [|t ts Ht Hts IH|t ts Ht Hts IH
                  |open body close ts Hopen Hclose Hname Hbody IHbody Hts IHts];
    intros rest p r s Hinv.
  - exists s. split_and!; [done..|apply keeps_refl].
  - cbn [app]. rewrite (dive_loop_skipped _ _ _ _ _ Ht). by apply IH.
  - pose proof Hinv as (_ & Hcur & _). simpl in Hcur.
    destruct (lookup_lt_is_Some_2 _ _ Hcur) as [pn Hp].
    cbn [app]. rewrite (dive_loop_selfClosing _ _ _ _ _ _ Ht Hp).
    destruct (IH rest p r (attach_store t p pn s)) as (s' & Heq & Hinv' & Hk).
    { apply tree_inv_attach_store; auto. }
    exists s'. split_and!; [done..|].
    eapply keeps_trans; [by apply keeps_attach_store|done].
  - pose proof Hinv as (_ & Hcur & _). simpl in Hcur.
    destruct (lookup_lt_is_Some_2 _ _ Hcur) as [pn Hp].
    cbn [app]. rewrite <- app_assoc. cbn [app].
    rewrite (dive_loop_start _ _ _ _ _ _ Hopen Hp).
    set (s1 := attach_store open p pn s).
    set (c := length (nodes s)).
    destruct (IHbody (close :: ts ++ rest) c r s1) as (s2 & Heq2 & Hinv2 & Hk2).
    { apply tree_inv_attach_store; auto. }
    rewrite Heq2.
    destruct (attach_store_new open p pn s Hp) as (cn & Hcn & HcT & HcP).
    destruct (Hk2 _ _ Hcn) as (cn2 & Hcn2 & HcT2 & HcP2).
    assert (FindTagReverse (Some c) (Data close) s2 = Ret (Some c, s2)) as Hf.
    { rewrite Hname, <- HcT, <- HcT2. by apply FindTagReverse_self. }
    rewrite (dive_loop_end_found _ _ _ _ _ _ _ Hclose Hf Hcn2).
    rewrite HcP2, HcP.
    assert (keeps s s2) as Hk.
    { eapply keeps_trans; [by apply keeps_attach_store|done]. }
    destruct (IHts rest p r s2) as (s3 & Heq3 & Hinv3 & Hk3).
    { destruct Hinv2 as (Hwf2 & _ & Hr2). split_and!; [done| |done].
      destruct (Hk _ _ Hp) as (pn2 & Hpn2 & _). simpl.
      by apply lookup_lt_Some in Hpn2. }
    exists s3. split_and!; [done..|].
    by eapply keeps_trans.
Qed.

Lemma dive_loop_all_skipped post : forall parent root s,
  Forall skipped post -> dive_loop post parent root s = Ret (root, s).
Proof.
  induction post as [|t post IH]; intros parent root s H; [done|].
  apply Forall_cons in H as [Ht Hpost].
  rewrite (dive_loop_skipped _ _ _ _ _ Ht). by apply IH.
Qed.

(** A document builds a tree, rooted at its top-level element. *)
Lemma document_builds ts :
  document ts ->
  exists s n, dive ts emptyStore = Ret (Some 0, s) /\
    nodes s !! 0 = Some n /\ Parent n = None /\
    Typ (Token n) = StartTagToken.
Proof.
  unfold dive.
  induction 1 as [t ts Ht Hts IH|open body close post Hopen Hclose Hname Hbody Hpost].
  - by rewrite (dive_loop_skipped _ _ _ _ _ Ht).
  - rewrite (dive_loop_first _ _ _ _ Hopen).
    set (s1 := newNode_store open None emptyStore).
    change (length (nodes emptyStore)) with 0.
    destruct (balanced_keeps_cursor body Hbody (close :: post) 0 0 s1)
      as (s2 & Heq & Hinv & Hk).
    { split_and!; [apply wf_nodes_first|simpl; lia|simpl; split; [done|lia]]. }
    rewrite Heq.
    destruct (Hk 0 (mkNode open None [] (newNode_attrs 0 (Attr open) ∅)))
      as (n & Hn & HT & HP); [done|].
    assert (FindTagReverse (Some 0) (Data close) s2 = Ret (Some 0, s2)) as Hf.
    { rewrite Hname. change open with (Token (mkNode open None []
        (newNode_attrs 0 (Attr open) ∅))). rewrite <- HT.
      by apply FindTagReverse_self. }
    rewrite (dive_loop_end_found _ _ _ _ _ _ _ Hclose Hf Hn).
    rewrite (dive_loop_all_skipped _ _ _ _ Hpost).
    exists s2, n. split_and!; [done..|]. by rewrite HT.
Qed.

(** So for a document the tree is there, and [Path] on each of its
    nodes is the slash and the joined chain. *)
Lemma Path_on_documents ts :
  document ts ->
  exists s, dive ts emptyStore = Ret (Some 0, s) /\
    forall i n, nodes s !! i = Some n ->
      exists tags, chain s 0 i tags /\
        Path (Some i) s = Ret ("/" +:+ strings.Join tags "/", s).
Proof.
  intros (s & n0 & Hd & _)%document_builds. exists s. split; [done|].
  intros i n Hn. pose proof (dive_tree _ _ _ Hd) as [Hwf _].
  destruct (chain_exists s Hwf _ _ Hn) as [tags Hch].
  exists tags. split; [done|]. by apply Path_chain.
Qed.

(** * The claims *)

(** C1 (the code departs from it): a self-closing tag that arrives while
    the cursor is nil is not passed over in silence.  [dive] makes the
    node and then appends to [parent.Children] with [parent] nil, which
    panics with a nil dereference: so for [<img/>] as the first token, so
    for [<a></a><img/>], and so from every state with a nil cursor. *)
Theorem selfClosing_without_cursor_panics :
  dive [selfClosing "img" []] emptyStore = Err NilDeref /\
  dive [startTag "a" []; endTag "a"; selfClosing "img" []] emptyStore
    = Err NilDeref /\
  forall name attr ts root s,
    dive_loop (selfClosing name attr :: ts) None root s = Err NilDeref.
Proof.
  split_and!; [reflexivity..|].
  intros. by apply selfClosing_at_nil_cursor.
Qed.

(** C2 (the code departs from it): an end tag that no open node answers
    to panics when the cursor is nil, because [parent.FindTagReverse]
    reads [node.Data] through the nil receiver: so for [</span>] alone,
    so for [<p></p></span>], and so from every state with a nil cursor.
    (Under an open cursor the tag is passed over, see
    [stray_endTag_is_passed_over].) *)
Theorem stray_endTag_without_cursor_panics :
  dive [endTag "span"] emptyStore = Err NilDeref /\
  dive [startTag "p" []; endTag "p"; endTag "span"] emptyStore
    = Err NilDeref /\
  forall name ts root s,
    dive_loop (endTag name :: ts) None root s = Err NilDeref.
Proof.
  split_and!; [reflexivity..|].
  intros. by apply endTag_at_nil_cursor.
Qed.

(** C3 (the code departs from it): in the tree of [<div></div>] the root
    is a [div] with no parent, and yet [MatchesPath] answers [true] for
    ["div/div"] on it: the upward search for the second-to-last segment
    starts at the node itself, which satisfies it. *)
Theorem MatchesPath_div_div_on_lone_div :
  let s := store_of doc_div in
  dive doc_div emptyStore = Ret (Some 0, s) /\
  getData (Some 0) s = Ret ("div", s) /\
  getParent (Some 0) s = Ret (None, s) /\
  FindTagReverse (Some 0) "div" s = Ret (Some 0, s) /\
  MatchesPath (Some 0) "div/div" s = Ret (true, s).
Proof. split_and!; vm_compute; reflexivity. Qed.



(** C5, as the code has it: in the tree built from a token stream, every
    node hangs on a chain of child links from the root, and [Path] on
    the node returns ["/"] followed by the ["/"]-joined tag names of that
    chain, root first: the joined chain with a leading slash. *)
Theorem Path_is_slash_then_joined_chain ts root s i n :
  dive ts emptyStore = Ret (root, s) ->
  nodes s !! i = Some n ->
  exists r, root = Some r /\
    (exists tags, chain s r i tags) /\
    (forall tags, chain s r i tags ->
       Path (Some i) s = Ret ("/" +:+ strings.Join tags "/", s)).
Proof.
  intros Hd Hn. apply dive_tree in Hd as [Hwf Hroot].
  destruct root as [r|].
  - destruct Hroot as [-> _]. exists 0. split_and!; [done| |].
    + by eapply chain_exists.
    + intros tags Hch. by apply Path_chain.
  - simpl in Hroot. rewrite Hroot in Hn. by rewrite lookup_nil in Hn.
Qed.

(** C5 as stated fails: for the root of [<div></div>] the chain of tag
    names is [div], joined it is ["div"], and [Path] returns ["/div"]. *)
Lemma Path_has_leading_slash :
  let s := store_of doc_div in
  dive doc_div emptyStore = Ret (Some 0, s) /\
  chain s 0 0 ["div"] /\
  strings.Join ["div"] "/" = "div" /\
  Path (Some 0) s = Ret ("/div", s) /\
  Path (Some 0) s <> Ret (strings.Join ["div"] "/", s).
Proof.
  split_and!; [vm_compute; reflexivity| |reflexivity|vm_compute; reflexivity|].
  - apply (chain_root _ 0 (mkNode (startTag "div" []) None [] ∅)).
    vm_compute. reflexivity.
  - vm_compute. intros H. discriminate H.
Qed.

(** C5 on the [h1] of [<div><section><h1>X</h1></section></div>]. *)
Lemma Path_of_h1 :
  let s := store_of doc_h1 in
  chain s 0 2 ["div"; "section"; "h1"] /\
  Path (Some 2) s = Ret ("/div/section/h1", s).
Proof.
  intros s.
  assert (chain s 0 2 ["div"; "section"; "h1"]) as Hch.
  { pose (n0 := mkNode (startTag "div" []) None [1] ∅).
    pose (n1 := mkNode (startTag "section" []) (Some 0) [2] ∅).
    pose (n2 := mkNode (startTag "h1" []) (Some 1) [] ∅).
    assert (nodes s !! 0 = Some n0) as H0 by (vm_compute; reflexivity).
    assert (nodes s !! 1 = Some n1) as H1 by (vm_compute; reflexivity).
    assert (nodes s !! 2 = Some n2) as H2 by (vm_compute; reflexivity).
    apply (chain_step s 0 1 n1 2 n2 ["div"; "section"]); [|done|left|done].
    apply (chain_step s 0 0 n0 1 n1 ["div"]); [|done|left|done].
    by apply (chain_root s 0 n0). }
  split; [exact Hch|].
  destruct (Path_is_slash_then_joined_chain doc_h1 (Some 0) s 2
              (mkNode (startTag "h1" []) (Some 1) [] ∅))
    as (r & Hr & _ & HP).
  - vm_compute. reflexivity.
  - vm_compute. reflexivity.
  - injection Hr as <-. exact (HP _ Hch).
Defined.

(** C6: in the tree of [<div><section><h1>X</h1></section></div>] the
    [h1] node has parent [section], whose parent is the root [div];
    [MatchesPath] on the [h1] node answers [false] for ["div/.h1"] and
    [true] for ["div/h1"]. *)
Theorem direct_child_marker_on_h1 :
  let s := store_of doc_h1 in
  dive doc_h1 emptyStore = Ret (Some 0, s) /\
  FindTag (Some 0) "h1" s = Ret (Some 2, s) /\
  getParent (Some 2) s = Ret (Some 1, s) /\
  getData (Some 1) s = Ret ("section", s) /\
  getParent (Some 1) s = Ret (Some 0, s) /\
  getData (Some 0) s = Ret ("div", s) /\
  MatchesPath (Some 2) "div/.h1" s = Ret (false, s) /\
  MatchesPath (Some 2) "div/h1" s = Ret (true, s).
Proof. split_and!; vm_compute; reflexivity. Qed.

(** C7 (the code departs from it): on the tree of
    [<a><q><a><b></b></a></q><b></b></a>] and the path ["q/.a/b"],
    [FindPath] returns the first [b], while [FindPathAll] returns no
    sequence at all: at the second [b] the match reaches the root through
    the marked segment [.a] and calls [MatchesPath] on its nil parent,
    which panics. *)
Theorem FindPathAll_panics_where_FindPath_returns :
  let s := store_of doc_nested in
  let q := mkNodePath "q/.a/b" "" "" in
  dive doc_nested emptyStore = Ret (Some 0, s) /\
  FindPath (Some 0) q s = Ret (Some 3, s) /\
  matches (Some 4) q s = Err NilDeref /\
  FindPathAll (Some 0) q s = Err NilDeref.
Proof. split_and!; vm_compute; reflexivity. Qed.

(** C8: every lookup, when it returns, leaves the store it was given
    (every node's token, parent, children and attributes, and every
    attribute variable), and run again on that store it returns the same
    result. *)
Theorem lookups_leave_the_tree_unchanged (s : Store) (node : ptr) :
  (forall q r s', FindPath node q s = Ret (r, s') ->
     s' = s /\ FindPath node q s' = Ret (r, s')) /\
  (forall q r s', FindPathAll node q s = Ret (r, s') ->
     s' = s /\ FindPathAll node q s' = Ret (r, s')) /\
  (forall tag r s', FindTag node tag s = Ret (r, s') ->
     s' = s /\ FindTag node tag s' = Ret (r, s')) /\
  (forall tag r s', FindTagReverse node tag s = Ret (r, s') ->
     s' = s /\ FindTagReverse node tag s' = Ret (r, s')) /\
  (forall path r s', MatchesPath node path s = Ret (r, s') ->
     s' = s /\ MatchesPath node path s' = Ret (r, s')) /\
  (forall r s', FlattenChildren node s = Ret (r, s') ->
     s' = s /\ FlattenChildren node s' = Ret (r, s')) /\
  (forall r s', Path node s = Ret (r, s') ->
     s' = s /\ Path node s' = Ret (r, s')).
Proof.
  split_and!; intros *; apply readonly_twice.
  - apply readonly_FindPath.
  - apply readonly_FindPathAll.
  - apply readonly_FindTag.
  - apply readonly_FindTagReverse.
  - apply readonly_MatchesPath.
  - apply readonly_FlattenChildren.
  - apply readonly_Path.
Qed.

(** C8 on the tree of [<div><section><h1>X</h1></section></div>], where
    the seven lookups return. *)
Lemma lookups_on_h1_tree :
  let s := store_of doc_h1 in
  let q := mkNodePath "div/h1" "" "" in
  (FindPath (Some 0) q s = Ret (Some 2, s) /\
   FindPathAll (Some 0) q s = Ret ([Some 2], s) /\
   FindTag (Some 0) "section" s = Ret (Some 1, s) /\
   FindTagReverse (Some 2) "div" s = Ret (Some 0, s) /\
   MatchesPath (Some 2) "div/h1" s = Ret (true, s) /\
   FlattenChildren (Some 0) s = Ret ([Some 1; Some 2], s) /\
   Path (Some 2) s = Ret ("/div/section/h1", s)) /\
  (s = s /\ FindPathAll (Some 0) q s = Ret ([Some 2], s)).
Proof.
  intros s q. split.
  - split_and!; vm_compute; reflexivity.
  - apply (proj1 (proj2 (lookups_leave_the_tree_unchanged s (Some 0)))).
    vm_compute. reflexivity.
Defined.

(** C9: [<a></a><b></b>] makes [dive] panic.  After [<a></a>] the root
    is the node [a] and the cursor is nil; a start tag that arrives in
    such a state, whatever the store, makes a node and appends it to the
    children of the nil cursor, a nil dereference. *)
Theorem second_top_level_element_panics :
  dive doc_two_roots emptyStore = Err NilDeref /\
  (forall ts, dive (startTag "a" [] :: endTag "a" :: ts) emptyStore =
     dive_loop ts None (Some 0) (store_of [startTag "a" []; endTag "a"])) /\
  (forall name attr ts r s,
     dive_loop (startTag name attr :: ts) None (Some r) s = Err NilDeref).
Proof.
  split_and!; [reflexivity|reflexivity|].
  intros. by apply startTag_at_nil_cursor.
Qed.

(** C10: text tokens contribute nothing.  From any store, [dive] on a
    stream does what it does on the stream without its text tokens; and
    in a tree that [dive] returns, every node was made from a start-tag
    or self-closing-tag token of the stream. *)
Theorem text_tokens_contribute_nothing (ts : list html_Token) :
  (forall s0, dive ts s0 = dive (noText ts) s0) /\
  (forall root s n,
     dive ts emptyStore = Ret (root, s) -> n ∈ nodes s ->
     Token n ∈ noText ts /\ fromTag n).
Proof.
  split.
  - intros s0. apply dive_loop_noText.
  - intros root s n H Hn.
    unfold dive in H. rewrite dive_loop_noText in H.
    apply dive_fromTag in H.
    by apply (proj1 (Forall_forall _ _) H).
Qed.

(** C10 on [<p>Test</p>]: the tree is the one node [p]. *)
Lemma text_of_p_is_not_in_the_tree :
  exists n, nodes (store_of doc_p) = [n] /\
    Token n = startTag "p" [] /\
    noText doc_p = [startTag "p" []; endTag "p"] /\
    dive doc_p emptyStore = dive (noText doc_p) emptyStore /\
    (Token n ∈ noText doc_p /\ fromTag n).
Proof.
  eexists. split; [vm_compute; reflexivity|].
  split; [reflexivity|]. split; [reflexivity|].
  split; [apply (proj1 (text_tokens_contribute_nothing doc_p))|].
  eapply (proj2 (text_tokens_contribute_nothing doc_p) (Some 0)).
  - vm_compute. reflexivity.
  - vm_compute. left.
Defined.

(** * Further properties *)

(** ** What [dive] keeps *)

Lemma stepped_built_inv current parent root s p r s' :
  tree_inv s parent root -> built_inv s parent ->
  stepped current parent root s p r s' ->
  built_inv s' p.
Proof.
  intros (Hwf & Hcur & Hroot) (Hc & Hk & H0 & Hnd) Hst.
  assert (forall q qn, parent = Some q ->
            nodes (newNode_store current parent s) !! q = Some qn ->
            Typ current = StartTagToken \/ Typ current = SelfClosingTagToken ->
            forall cursor,
              (cursor = Some (length (nodes s)) -> Typ current = StartTagToken) ->
              (cursor = parent \/ cursor = Some (length (nodes s))) ->
              built_inv (attach_store current q qn s) cursor) as Hattach.
  { intros q qn -> Hq Hty cursor Hcty Hcursor.
    simpl in Hcur. rewrite nodes_newNode_store in Hq.
    rewrite lookup_app_l in Hq by done.
    pose proof (Hc _ _ eq_refl Hq) as Hqty.
    unfold built_inv, attach_store. cbn [nodes]. rewrite nodes_newNode_store.
    split_and!.
    - intros p0 pn -> Hpn.
      apply (attach_inv _ _ _ _ Hq) in Hpn as [(n0 & Hn0 & _ & HT & _)|[-> ->]].
      + rewrite HT. destruct Hcursor as [Heq|Heq]; simplify_eq; [done|].
        apply lookup_lt_Some in Hn0. lia.
      + apply Hcty. done.
    - intros i n Hn Hne.
      apply (attach_inv _ _ _ _ Hq) in Hn as [(n0 & Hn0 & _ & HT & HC)|[-> ->]].
      + rewrite HT. destruct HC as [HC|[-> HC]].
        * rewrite HC in Hne. by eapply Hk.
        * assert (n0 = qn) as -> by congruence. done.
      + done.
    - intros n Hn.
      apply (attach_inv _ _ _ _ Hq) in Hn as [(n0 & Hn0 & _ & HT & _)|[Hlen ->]].
      + rewrite HT. by apply H0.
      + apply lookup_lt_Some in Hq. lia.
    - intros i n Hn.
      apply (attach_inv _ _ _ _ Hq) in Hn as [(n0 & Hn0 & _ & _ & HC)|[-> ->]].
      + destruct HC as [HC|[-> HC]]; rewrite HC; [by eapply Hnd|].
        assert (n0 = qn) as -> by congruence.
        apply NoDup_app. split_and!; [by eapply Hnd| |apply NoDup_singleton].
        intros c Hcin ->%list_elem_of_singleton.
        destruct (wf_children _ Hwf _ _ _ Hq Hcin) as (cn & Hcn & _).
        apply lookup_lt_Some in Hcn. lia.
      + apply NoDup_nil_2. }
  destruct Hst as [Hty ->|q qn Hty Hr -> Hq|q qn Hty -> Hq|t tn Hty Ht|Hty1 Hty2].
  - simpl in Hroot. unfold built_inv. rewrite nodes_newNode_store, Hroot.
    split_and!.
    + intros p0 pn [= <-] [_ <-]%list_lookup_singleton_Some. done.
    + intros i n [_ <-]%list_lookup_singleton_Some. done.
    + intros n [_ <-]%list_lookup_singleton_Some. done.
    + intros i n [_ <-]%list_lookup_singleton_Some. apply NoDup_nil_2.
  - apply (Hattach q qn eq_refl Hq (or_introl Hty)); auto.
  - apply (Hattach q qn eq_refl Hq (or_intror Hty)); [|by left].
    intros [= ->]. simpl in Hcur. lia.
  - split_and!; [|done..].
    intros p0 pn Hp Hpn.
    destruct (wf_attached _ Hwf _ _ _ Ht Hp) as (pn' & Hpn' & Hin).
    assert (pn' = pn) as -> by congruence.
    apply (Hk _ _ Hpn). intros Hnil. rewrite Hnil in Hin.
    by apply elem_of_nil in Hin.
  - done.
Qed.

Lemma dive_built ts root s :
  dive ts emptyStore = Ret (root, s) ->
  wf_nodes (nodes s) /\ root_ok (nodes s) root /\
  exists parent, cursor_ok (nodes s) parent /\ built_inv s parent.
Proof.
  intros H. unfold dive in H.
  pose (I := fun (s : Store) (parent root : ptr) =>
               tree_inv s parent root /\ built_inv s parent).
  assert (I emptyStore None None) as H0.
  { split; [split_and!; [apply wf_nodes_nil|done..]|].
    split_and!; intros *; try done; simpl; rewrite lookup_nil; done. }
  assert (forall current parent root s p r s',
             current ∈ ts -> I s parent root ->
             stepped current parent root s p r s' -> I s' p r) as Hstep.
  { intros * _ [Ht Hb] Hst. split.
    - by eapply stepped_tree_inv.
    - by eapply stepped_built_inv. }
  destruct (dive_loop_ind I ts Hstep ts (reflexivity _) _ _ _ _ _ H0 H)
    as (parent' & (Hwf & Hcur & Hroot) & Hb).
  split_and!; [done..|]. by exists parent'.
Qed.

Lemma stepped_tokens current parent root s p r s' :
  stepped current parent root s p r s' ->
  Token <$> nodes s' =
    (Token <$> nodes s) ++ (if isTag current then [current] else []).
Proof.
  assert (forall q qn,
    nodes (newNode_store current (Some q) s) !! q = Some qn ->
    Token <$> nodes (attach_store current q qn s) =
      (Token <$> nodes s) ++ [current]) as Hattach.
  { intros q qn Hq. unfold attach_store. cbn [nodes].
    rewrite list_fmap_insert. rewrite list_insert_id.
    - rewrite nodes_newNode_store, fmap_app. done.
    - rewrite list_lookup_fmap, Hq. done. }
  intros [Hty ->|q qn Hty Hr -> Hq|q qn Hty -> Hq|t tn Hty Ht|Hty1 Hty2];
    unfold isTag.
  - rewrite Hty, nodes_newNode_store, fmap_app. done.
  - rewrite Hty. by apply Hattach.
  - rewrite Hty. by apply Hattach.
  - rewrite Hty. by rewrite app_nil_r.
  - destruct (Typ current); try done; by rewrite app_nil_r.
Qed.

Lemma dive_loop_tokens ts : forall parent root s root' s',
  dive_loop ts parent root s = Ret (root', s') ->
  Token <$> nodes s' =
    (Token <$> nodes s) ++ List.filter isTag (beforeError ts).
Proof.
  induction ts as [|current ts IH]; intros parent root s root' s' H.
  - unfold dive_loop, ret in H. simplify_eq. by rewrite app_nil_r.
  - rewrite dive_loop_cons in H. cbn [beforeError].
    assert (bind (dive_step current parent root)
              (fun pr => dive_loop ts (fst pr) (snd pr)) s = Ret (root', s') ->
            Token <$> nodes s' =
              (Token <$> nodes s) ++
              List.filter isTag (current :: beforeError ts)) as Hgo.
    { intros H'. apply bind_inv in H' as ([p r] & s1 & H1 & H2).
      apply dive_step_stepped, stepped_tokens in H1. simpl in H2.
      apply IH in H2. rewrite H2, H1. cbn [List.filter].
      destruct (isTag current); by rewrite <- app_assoc. }
    destruct (Typ current); try (by apply Hgo).
    simplify_eq. by rewrite app_nil_r.
Qed.

Lemma dive_loop_ErrorToken ts e rest : forall parent root s,
  Typ e = ErrorToken ->
  dive_loop (ts ++ e :: rest) parent root s = dive_loop ts parent root s.
Proof.
  induction ts as [|current ts IH]; intros parent root s He.
  - cbn [app dive_loop]. by rewrite He.
  - cbn [app]. rewrite !dive_loop_cons.
    destruct (Typ current); try done;
      apply bind_ext; intros [p r] s1; by apply IH.
Qed.

Lemma beforeError_id ts :
  Forall (fun t => Typ t <> ErrorToken) ts -> beforeError ts = ts.
Proof.
  induction 1 as [|t ts Ht _ IH]; [done|].
  cbn [beforeError]. rewrite IH. by destruct (Typ t).
Qed.

Lemma balanced_no_ErrorToken ts :
  balanced ts -> Forall (fun t => Typ t <> ErrorToken) ts.
Proof.
  induction 1 as [|t ts Ht _ IH|t ts Ht _ IH
                  |open body close ts Hopen Hclose _ _ IHbody _ IHts].
  - done.
  - apply Forall_cons. split; [|done]. destruct Ht as [H|[H|H]]; by rewrite H.
  - apply Forall_cons. split; [|done]. by rewrite Ht.
  - apply Forall_cons. split; [by rewrite Hopen|].
    apply Forall_app. split; [done|].
    apply Forall_cons. split; [by rewrite Hclose|done].
Qed.

Lemma document_no_ErrorToken ts :
  document ts -> Forall (fun t => Typ t <> ErrorToken) ts.
Proof.
  induction 1 as [t ts Ht _ IH|open body close post Hopen Hclose _ Hbody Hpost].
  - apply Forall_cons. split; [|done]. destruct Ht as [H|[H|H]]; by rewrite H.
  - apply Forall_cons. split; [by rewrite Hopen|].
    apply Forall_app. split; [by apply balanced_no_ErrorToken|].
    apply Forall_cons. split; [by rewrite Hclose|].
    eapply Forall_impl; [done|]. intros t [H|[H|H]]; by rewrite H.
Qed.

(** ** The tree [dive] builds *)

(** X1: in the store [dive] returns, the nodes are linked into one tree.
    The root is nil exactly when no node was made; otherwise it is the
    first node, which has no parent.  Every other node has a parent
    that was made before it and lists it among its children; every entry
    of a child slice points back to the node that holds the slice; and
    no child slice holds a node twice. *)
Theorem built_tree_is_linked ts root s :
  dive ts emptyStore = Ret (root, s) ->
  (root = None <-> nodes s = []) /\
  (forall n, nodes s !! 0 = Some n -> root = Some 0 /\ Parent n = None) /\
  (forall i n, nodes s !! i = Some n -> i <> 0 ->
     exists p pn, Parent n = Some p /\ p < i /\
       nodes s !! p = Some pn /\ i ∈ Children pn) /\
  (forall i n c, nodes s !! i = Some n -> c ∈ Children n ->
     i < c /\ exists cn, nodes s !! c = Some cn /\ Parent cn = Some i) /\
  (forall i n, nodes s !! i = Some n -> NoDup (Children n)).
Proof.
  intros H. apply dive_built in H as (Hwf & Hroot & parent & _ & _ & _ & _ & Hnd).
  split_and!.
  - destruct root as [r|]; simpl in Hroot.
    + split; [done|]. intros Hnil. rewrite Hnil in Hroot. simpl in Hroot. lia.
    + done.
  - intros n Hn. split; [|by eapply wf_first_no_parent].
    destruct root as [r|]; simpl in Hroot.
    + by destruct Hroot as [-> _].
    + by rewrite Hroot in Hn.
  - intros i n Hn Hi. destruct (Parent n) as [p|] eqn:E.
    + destruct (wf_attached _ Hwf _ _ _ Hn E) as (pn & Hpn & Hin).
      exists p, pn. split_and!; [done| |done..]. by eapply wf_parent.
    + by pose proof (wf_root _ Hwf _ _ Hn E).
  - intros i n c Hn Hc.
    destruct (wf_children _ Hwf _ _ _ Hn Hc) as (cn & Hcn & Hp).
    split; [by eapply wf_parent|]. by exists cn.
  - done.
Qed.

(** X1 on [<div><section><h1>X</h1></section></div>]. *)
Lemma built_tree_is_linked_h1 :
  let s := store_of doc_h1 in
  exists p pn, p < 2 /\ nodes s !! p = Some pn /\ 2 ∈ Children pn.
Proof.
  intros s.
  destruct (built_tree_is_linked doc_h1 (Some 0) s) as (_ & _ & H & _).
  { vm_compute. reflexivity. }
  destruct (H 2 (mkNode (startTag "h1" []) (Some 1) [] ∅))
    as (p & pn & _ & Hlt & Hp & Hin).
  { vm_compute. reflexivity. }
  { lia. }
  by exists p, pn.
Defined.

(** X2: [dive] makes one node for every start tag and every self-closing
    tag it reads, in the order of the stream, and keeps the token in the
    node: the tokens of the nodes, in allocation order, are the tag
    tokens of the stream up to its first [ErrorToken]. *)
Theorem nodes_are_the_tags_in_stream_order ts root s :
  dive ts emptyStore = Ret (root, s) ->
  Token <$> nodes s = List.filter isTag (beforeError ts).
Proof. intros H. by apply dive_loop_tokens in H. Qed.

(** X2 on [<div><section><h1>X</h1></section></div>]. *)
Lemma nodes_are_the_tags_of_h1 :
  Token <$> nodes (store_of doc_h1) =
    [startTag "div" []; startTag "section" []; startTag "h1" []].
Proof.
  apply (nodes_are_the_tags_in_stream_order doc_h1 (Some 0)).
  vm_compute. reflexivity.
Defined.

(** X3: a node made from a self-closing tag is a leaf and stays one: in
    the store [dive] returns it has no children and it is nobody's
    parent.  Only nodes made from start tags have children. *)
Theorem selfClosing_nodes_are_leaves ts root s i n :
  dive ts emptyStore = Ret (root, s) ->
  nodes s !! i = Some n ->
  Typ (Token n) = SelfClosingTagToken ->
  Children n = [] /\
  forall c cn, nodes s !! c = Some cn -> Parent cn <> Some i.
Proof.
  intros H Hn Hty.
  apply dive_built in H as (Hwf & _ & parent & _ & _ & Hk & _ & _).
  assert (Children n = []) as Hnil.
  { destruct (Children n) as [|c cs] eqn:E; [done|].
    assert (Typ (Token n) = StartTagToken) as Hst.
    { apply (Hk _ _ Hn). by rewrite E. }
    congruence. }
  split; [done|]. intros c cn Hcn Hp.
  destruct (wf_attached _ Hwf _ _ _ Hcn Hp) as (pn & Hpn & Hin).
  assert (pn = n) as -> by congruence.
  rewrite Hnil in Hin. by apply elem_of_nil in Hin.
Qed.

(** X3 on [<div><img/><p>X</p></div>]: [img] has no children, and [p],
    which comes after it, is a child of [div]. *)
Lemma img_is_a_leaf :
  let s := store_of doc_img in
  nodes s !! 0 = Some (mkNode (startTag "div" []) None [1; 2] ∅) /\
  (Children (mkNode (selfClosing "img" []) (Some 0) [] ∅) = [] /\
   forall c cn, nodes s !! c = Some cn -> Parent cn <> Some 1).
Proof.
  intros s. split; [vm_compute; reflexivity|].
  apply (selfClosing_nodes_are_leaves doc_img (Some 0) s 1).
  - vm_compute. reflexivity.
  - vm_compute. reflexivity.
  - reflexivity.
Defined.

(** X4: [dive] stops at the first [ErrorToken] and returns the root it
    has: whatever follows that token in the stream is never read. *)
Theorem dive_stops_at_ErrorToken ts data attr rest s0 :
  dive (ts ++ mkToken ErrorToken data attr :: rest) s0 = dive ts s0.
Proof. unfold dive. by apply dive_loop_ErrorToken. Qed.

Lemma dive_first_token ts :
  match head (List.filter actedOn (beforeError ts)) with
  | None => dive ts emptyStore = Ret (None, emptyStore)
  | Some t => Typ t = StartTagToken \/ dive ts emptyStore = Err NilDeref
  end.
Proof.
  unfold dive. induction ts as [|t ts IH]; [done|].
  cbn [beforeError].
  assert (actedOn t = match Typ t with
                      | StartTagToken | SelfClosingTagToken | EndTagToken => true
                      | _ => false
                      end) as Hact by done.
  destruct (Typ t) eqn:Hty; cbn [List.filter]; rewrite ?Hact; cbn [head].
  - cbn [dive_loop]. by rewrite Hty.
  - rewrite dive_loop_skipped; [done|]. by left.
  - by left.
  - right. by apply endTag_at_nil_cursor.
  - right. by apply selfClosing_at_nil_cursor.
  - rewrite dive_loop_skipped; [done|]. right. by left.
  - rewrite dive_loop_skipped; [done|]. right. by right.
Qed.

Lemma head_filter_isTag l t :
  head (List.filter actedOn l) = Some t -> isTag t = true ->
  head (List.filter isTag l) = Some t.
Proof.
  intros H Ht. induction l as [|x l IH]; [done|].
  cbn [List.filter] in *.
  assert (actedOn x = match Typ x with
                      | StartTagToken | SelfClosingTagToken | EndTagToken => true
                      | _ => false
                      end) as Hact by done.
  assert (isTag x = match Typ x with
                    | StartTagToken | SelfClosingTagToken => true
                    | _ => false
                    end) as Htag by done.
  rewrite Hact in H. rewrite Htag.
  destruct (Typ x) eqn:Hx; cbn [head] in *; try (by apply IH).
  - by simplify_eq.
  - simplify_eq. unfold isTag in Ht. by rewrite Hx in Ht.
  - by simplify_eq.
Qed.

(** X5: [dive] returns nil exactly when the stream holds no start tag,
    no self-closing tag and no end tag before its first [ErrorToken],
    and then it has allocated nothing.  A root other than nil is the
    first node: it has no parent, and it was made from the first of
    those tokens of the stream, which is a start tag. *)
Theorem root_is_the_first_tag ts :
  (forall s, dive ts emptyStore = Ret (None, s) <->
     List.filter actedOn (beforeError ts) = [] /\ s = emptyStore) /\
  (forall r s, dive ts emptyStore = Ret (Some r, s) ->
     r = 0 /\
     exists n, nodes s !! 0 = Some n /\ Parent n = None /\
       Typ (Token n) = StartTagToken /\
       head (List.filter actedOn (beforeError ts)) = Some (Token n)).
Proof.
  pose proof (dive_first_token ts) as Hfirst.
  assert (forall root s, dive ts emptyStore = Ret (root, s) ->
    match root with
    | Some r => r = 0 /\ exists n, nodes s !! 0 = Some n /\ Parent n = None /\
        Typ (Token n) = StartTagToken /\
        head (List.filter isTag (beforeError ts)) = Some (Token n)
    | None => List.filter isTag (beforeError ts) = []
    end) as Hroot.
  { intros root s H. pose proof (dive_loop_tokens _ _ _ _ _ _ H) as Htok.
    simpl in Htok.
    apply dive_built in H as (Hwf & Hroot & parent & _ & _ & _ & H0 & _).
    destruct root as [r|]; simpl in Hroot.
    - destruct Hroot as [-> Hlen]. split; [done|].
      destruct (lookup_lt_is_Some_2 _ _ Hlen) as [n Hn].
      exists n. split_and!; [done|by eapply wf_first_no_parent|by apply H0|].
      rewrite <- Htok. destruct (nodes s) as [|n' ns]; [done|].
      simpl in Hn. by simplify_eq.
    - rewrite Hroot in Htok. by rewrite <- Htok. }
  split.
  - intros s. split.
    + intros H. destruct (head _) as [t|] eqn:Hhead.
      * destruct Hfirst as [Ht|Herr]; [|congruence].
        apply Hroot in H.
        assert (isTag t = true) as Htag by (unfold isTag; by rewrite Ht).
        pose proof (head_filter_isTag _ _ Hhead Htag) as Hh.
        by rewrite H in Hh.
      * split; [by destruct (List.filter _ _)|congruence].
    + intros [Hnone ->]. by rewrite Hnone in Hfirst.
  - intros r s H. destruct (Hroot _ _ H) as (-> & n & Hn & HP & Hty & Hhead).
    split; [done|]. exists n. split_and!; [done..|].
    destruct (head (List.filter actedOn _)) as [t|] eqn:Hhead'.
    + destruct Hfirst as [Ht|Herr]; [|congruence].
      assert (isTag t = true) as Htag by (unfold isTag; by rewrite Ht).
      rewrite (head_filter_isTag _ _ Hhead' Htag) in Hhead. done.
    + congruence.
Qed.

(** X5 on [<div><img/><p>X</p></div>], on a stream of text alone, and on
    [</span>], where [dive] returns nothing. *)
Lemma root_of_doc_img :
  (exists n, nodes (store_of doc_img) !! 0 = Some n /\ Parent n = None /\
     Typ (Token n) = StartTagToken /\
     head (List.filter actedOn (beforeError doc_img)) = Some (Token n)) /\
  dive [text "x"] emptyStore = Ret (None, emptyStore) /\
  (forall s, dive [endTag "span"] emptyStore <> Ret (None, s)).
Proof.
  split_and!.
  - apply (proj2 (root_is_the_first_tag doc_img) 0 (store_of doc_img)).
    vm_compute. reflexivity.
  - apply (proj1 (root_is_the_first_tag [text "x"]) emptyStore).
    split; reflexivity.
  - intros s H.
    apply (proj1 (root_is_the_first_tag [endTag "span"]) s) in H as [H _].
    discriminate H.
Defined.

(** X6: a well-nested stream with one top-level element never makes
    [dive] panic: [dive] returns the node of the top-level element as
    the root, and the tree has one node for each start tag and each
    self-closing tag of the stream, in stream order. *)
Theorem well_nested_documents_build ts :
  document ts ->
  exists s, dive ts emptyStore = Ret (Some 0, s) /\
    Token <$> nodes s = List.filter isTag ts.
Proof.
  intros Hdoc.
  destruct (document_builds ts Hdoc) as (s & n & Hd & _).
  exists s. split; [done|].
  apply dive_loop_tokens in Hd. simpl in Hd.
  by rewrite (beforeError_id ts (document_no_ErrorToken ts Hdoc)) in Hd.
Qed.

(** [<div><img/><p>X</p></div>] is a document. *)
Lemma doc_img_is_a_document : document doc_img.
Proof.
  change doc_img with
    (startTag "div" [] ::
       [selfClosing "img" []; startTag "p" []; text "X"; endTag "p"]
       ++ endTag "div" :: []).
  apply document_root; [done..| |done].
  apply balanced_selfClosing; [done|].
  change [startTag "p" []; text "X"; endTag "p"] with
    (startTag "p" [] :: [text "X"] ++ endTag "p" :: []).
  apply balanced_element; [done..| |apply balanced_nil].
  apply balanced_skipped; [by left|apply balanced_nil].
Defined.

(** X6 on [<div><img/><p>X</p></div>]. *)
Lemma doc_img_builds :
  exists s, dive doc_img emptyStore = Ret (Some 0, s) /\
    Token <$> nodes s = List.filter isTag doc_img.
Proof. exact (well_nested_documents_build doc_img doc_img_is_a_document). Defined.

(** ** Searches by tag name *)

Lemma find_app {A} (P : A -> bool) (l1 l2 : list A) :
  List.find P (l1 ++ l2) =
    match List.find P l1 with
    | Some x => Some x
    | None => List.find P l2
    end.
Proof.
  induction l1 as [|x l1 IH]; [done|]. cbn [app List.find].
  by destruct (P x).
Qed.

Lemma FindTagReverse_fuel_upward s tag fuel :
  wf_nodes (nodes s) ->
  forall p, p < length (nodes s) -> p < fuel ->
  FindTagReverse_fuel fuel (Some p) tag s =
    Ret (List.find (hasTag (nodes s) tag) (upward_fuel fuel (nodes s) p), s).
Proof.
  intros Hwf. induction fuel as [|fuel IH]; intros p Hp Hfuel; [lia|].
  destruct (lookup_lt_is_Some_2 _ _ Hp) as [n Hn].
  rewrite (FindTagReverse_fuel_unfold _ _ _ _ _ Hn).
  cbn [upward_fuel List.find]. unfold hasTag at 1. rewrite Hn.
  destruct (String.eqb (Data (Token n)) tag); [done|].
  destruct (Parent n) as [q|] eqn:E; [|done].
  pose proof (wf_parent _ Hwf _ _ _ Hn E). apply IH; lia.
Qed.

Lemma FindTagReverse_upward s tag p :
  wf_nodes (nodes s) -> p < length (nodes s) ->
  FindTagReverse (Some p) tag s =
    Ret (List.find (hasTag (nodes s) tag) (upward (nodes s) p), s).
Proof.
  intros Hwf Hp. unfold FindTagReverse, bind, size, upward.
  apply FindTagReverse_fuel_upward; [done|done|lia].
Qed.

Lemma rangeUntil_find s (P : addr -> bool) (body : addr -> M ptr)
    (pre : addr -> list addr) cs :
  (forall c, c ∈ cs -> body c s = Ret (List.find P (pre c), s)) ->
  rangeUntil body cs s = Ret (List.find P (flat_map pre cs), s).
Proof.
  induction cs as [|c cs IH]; intros Hb; [done|].
  cbn [rangeUntil flat_map]. rewrite find_app.
  rewrite (bind_Ret _ _ _ _ _ (Hb c ltac:(left))).
  destruct (List.find P (pre c)); [done|].
  apply IH. intros c' Hc'. apply Hb. by right.
Qed.

Lemma FindTag_fuel_preorder s tag fuel :
  wf_nodes (nodes s) ->
  forall a, a < length (nodes s) -> length (nodes s) <= a + fuel ->
  FindTag_fuel fuel (Some a) tag s =
    Ret (List.find (hasTag (nodes s) tag) (preorder_fuel fuel (nodes s) a), s).
Proof.
  intros Hwf. induction fuel as [|fuel IH]; intros a Ha Hfuel; [lia|].
  destruct (lookup_lt_is_Some_2 _ _ Ha) as [n Hn].
  cbn [FindTag_fuel preorder_fuel List.find].
  rewrite (bind_Ret _ _ _ _ _ (getData_Some _ _ _ Hn)).
  unfold hasTag at 1. rewrite Hn.
  destruct (String.eqb (Data (Token n)) tag); [done|].
  rewrite (bind_Ret _ _ _ _ _ (getChildren_Some _ _ _ Hn)).
  unfold childrenOf. rewrite Hn.
  apply rangeUntil_find. intros c Hc.
  pose proof (wf_child_bounds s Hwf _ _ _ Hn Hc). apply IH; lia.
Qed.

(** X7: [FindTagReverse] on a node of a built tree returns the nearest
    node with the tag on the way up, the node itself included: the first
    node with the tag in the sequence node, parent, grandparent, ..., and
    nil when that sequence has none.  It never panics there. *)
Theorem FindTagReverse_finds_nearest_upward ts root s p tag :
  dive ts emptyStore = Ret (root, s) ->
  p < length (nodes s) ->
  FindTagReverse (Some p) tag s =
    Ret (List.find (hasTag (nodes s) tag) (upward (nodes s) p), s).
Proof.
  intros H Hp. apply dive_tree in H as [Hwf _].
  by apply FindTagReverse_upward.
Qed.

(** X7 on the [h1] of [<div><section><h1>X</h1></section></div>]. *)
Lemma FindTagReverse_from_h1 :
  let s := store_of doc_h1 in
  upward (nodes s) 2 = [2; 1; 0] /\
  FindTagReverse (Some 2) "div" s = Ret (Some 0, s) /\
  FindTagReverse (Some 2) "span" s = Ret (None, s).
Proof.
  intros s. split; [vm_compute; reflexivity|]. split.
  - rewrite (FindTagReverse_finds_nearest_upward doc_h1 (Some 0) s 2 "div").
    + vm_compute. reflexivity.
    + vm_compute. reflexivity.
    + vm_compute. lia.
  - rewrite (FindTagReverse_finds_nearest_upward doc_h1 (Some 0) s 2 "span").
    + vm_compute. reflexivity.
    + vm_compute. reflexivity.
    + vm_compute. lia.
Defined.

(** X8: [FindTag] on a node of a built tree returns the first node with
    the tag in the pre-order of the nodes below the receiver, the
    receiver first, and nil when there is none.  It never panics
    there. *)
Theorem FindTag_finds_first_in_document_order ts root s a tag :
  dive ts emptyStore = Ret (root, s) ->
  a < length (nodes s) ->
  FindTag (Some a) tag s =
    Ret (List.find (hasTag (nodes s) tag) (preorder (nodes s) a), s).
Proof.
  intros H Ha. apply dive_tree in H as [Hwf _].
  unfold FindTag, bind, size, preorder.
  apply FindTag_fuel_preorder; [done|done|lia].
Qed.

(** X8 on [<a><q><a><b></b></a></q><b></b></a>]: of the two [b] the one
    nested deeper comes first. *)
Lemma FindTag_b_in_doc_nested :
  let s := store_of doc_nested in
  preorder (nodes s) 0 = [0; 1; 2; 3; 4] /\
  FindTag (Some 0) "b" s = Ret (Some 3, s).
Proof.
  intros s. split; [vm_compute; reflexivity|].
  rewrite (FindTag_finds_first_in_document_order doc_nested (Some 0) s 0 "b").
  - vm_compute. reflexivity.
  - vm_compute. reflexivity.
  - vm_compute. lia.
Defined.

(** X9: an end tag that arrives under an open cursor closes the nearest
    open node with its name, and with it every node opened inside: the
    cursor becomes the parent of the first node with that name in the
    sequence cursor, parent, grandparent, ...; when there is none the
    cursor stays.  The root and the store are left as they are. *)
Theorem endTag_closes_nearest_open_node current ts p root s :
  tree_inv s (Some p) root ->
  Typ current = EndTagToken ->
  dive_loop (current :: ts) (Some p) root s =
    dive_loop ts
      (match List.find (hasTag (nodes s) (Data current)) (upward (nodes s) p) with
       | Some r => parentOf (nodes s) r
       | None => Some p
       end) root s.
Proof.
  intros (Hwf & Hcur & _) Hty. simpl in Hcur.
  pose proof (FindTagReverse_upward s (Data current) p Hwf Hcur) as Hf.
  cbn [dive_loop]. rewrite Hty, (bind_Ret _ _ _ _ _ Hf).
  destruct (List.find _ _) as [r|] eqn:E; [|done].
  unfold FindTagReverse, bind, size in Hf.
  apply FindTagReverse_fuel_found in Hf as (rn & Hrn & _).
  rewrite (bind_Ret _ _ _ _ _ (getParent_Some _ _ _ Hrn)).
  unfold parentOf. by rewrite Hrn.
Qed.

(** X9 on [<a><b>] followed by [</a>]: the end tag closes [b] and [a],
    and the cursor becomes nil. *)
Lemma endTag_a_closes_b_and_a :
  let s := store_of [startTag "a" []; startTag "b" []] in
  dive_loop [endTag "a"] (Some 1) (Some 0) s = dive_loop [] None (Some 0) s.
Proof.
  intros s.
  rewrite (endTag_closes_nearest_open_node (endTag "a") [] 1 (Some 0) s).
  - vm_compute. reflexivity.
  - destruct (dive_tree [startTag "a" []; startTag "b" []] (Some 0) s)
      as [Hwf Hroot]; [vm_compute; reflexivity|].
    split_and!; [done| |done]. vm_compute. lia.
  - reflexivity.
Defined.

(** ** Document order *)

Lemma flat_map_ext_elem {A B} (f g : A -> list B) (l : list A) :
  (forall x, x ∈ l -> f x = g x) -> flat_map f l = flat_map g l.
Proof.
  induction l as [|x l IH]; intros H; [done|]. cbn [flat_map].
  rewrite (H x) by left. rewrite IH; [done|].
  intros y Hy. apply H. by right.
Qed.

Lemma elem_of_flat_map {A B} (f : A -> list B) (l : list A) (y : B) :
  y ∈ flat_map f l <-> exists x, x ∈ l /\ y ∈ f x.
Proof.
  rewrite list_elem_of_In, in_flat_map. split.
  - intros (x & Hx & Hy). exists x. by rewrite !list_elem_of_In.
  - intros (x & Hx & Hy). exists x. by rewrite <- !list_elem_of_In.
Qed.

Lemma NoDup_flat_map {A B} (f : A -> list B) (l : list A) :
  NoDup l ->
  (forall x, x ∈ l -> NoDup (f x)) ->
  (forall x1 x2 y, x1 ∈ l -> x2 ∈ l -> x1 <> x2 -> y ∈ f x1 -> y ∈ f x2 -> False) ->
  NoDup (flat_map f l).
Proof.
  induction 1 as [|x l Hx Hl IH]; intros Hf Hdis; [apply NoDup_nil_2|].
  cbn [flat_map]. apply NoDup_app. split_and!.
  - apply Hf. left.
  - intros y Hy1 (x' & Hx' & Hy2)%elem_of_flat_map.
    apply (Hdis x x' y); [left|by right| |done..].
    intros ->. done.
  - apply IH.
    + intros x' Hx'. apply Hf. by right.
    + intros x1 x2 y H1 H2. apply Hdis; by right.
Qed.

Section descendants.
Variable s : Store.
Hypothesis Hwf : wf_nodes (nodes s).

Lemma onChain_trans x y z : onChain s x y -> onChain s y z -> onChain s x z.
Proof.
  induction 1 as [|p n q r Hp Hpar _ IH]; [done|].
  intros Hz. eapply onChain_up; [done..|]. by apply IH.
Qed.

Lemma onChain_le x a : onChain s x a -> a <= x.
Proof.
  induction 1 as [|p n q r Hp Hpar _ IH]; [done|].
  pose proof (wf_parent _ Hwf _ _ _ Hp Hpar). lia.
Qed.

(** The way up from a node is one line. *)
Lemma onChain_linear x c1 c2 :
  onChain s x c1 -> onChain s x c2 -> onChain s c1 c2 \/ onChain s c2 c1.
Proof.
  intros H1. revert c2.
  induction H1 as [|p n q r Hp Hpar H1 IH]; intros c2 H2; [by left|].
  inversion H2 as [|p' n' q' r' Hp' Hpar' H2']; subst.
  - right. by eapply onChain_up.
  - assert (q' = q) as -> by congruence. by apply IH.
Qed.

Lemma child_onChain a n c :
  nodes s !! a = Some n -> c ∈ Children n -> onChain s c a.
Proof.
  intros Hn Hc. destruct (wf_children _ Hwf _ _ _ Hn Hc) as (cn & Hcn & Hp).
  eapply onChain_up; [done..|]. apply onChain_self.
Qed.

Lemma preorder_fuel_onChain fuel : forall a x,
  x ∈ preorder_fuel fuel (nodes s) a -> onChain s x a.
Proof.
  induction fuel as [|fuel IH]; intros a x Hx.
  - by apply elem_of_nil in Hx.
  - cbn [preorder_fuel] in Hx. apply elem_of_cons in Hx as [->|Hx].
    + apply onChain_self.
    + apply elem_of_flat_map in Hx as (c & Hc & Hx).
      unfold childrenOf in Hc.
      destruct (nodes s !! a) as [n|] eqn:Hn; [|by apply elem_of_nil in Hc].
      eapply onChain_trans; [by apply IH|]. by eapply child_onChain.
Qed.

Lemma preorder_fuel_enough fuel : forall a,
  a < length (nodes s) -> length (nodes s) <= a + fuel ->
  preorder_fuel (S fuel) (nodes s) a = preorder_fuel fuel (nodes s) a.
Proof.
  induction fuel as [|fuel IH]; intros a Ha Hfuel; [lia|].
  change (a :: flat_map (preorder_fuel (S fuel) (nodes s)) (childrenOf (nodes s) a)
          = a :: flat_map (preorder_fuel fuel (nodes s)) (childrenOf (nodes s) a)).
  f_equal. apply flat_map_ext_elem. intros c Hc.
  unfold childrenOf in Hc.
  destruct (nodes s !! a) as [n|] eqn:Hn; [|by apply elem_of_nil in Hc].
  pose proof (wf_child_bounds s Hwf _ _ _ Hn Hc). apply IH; lia.
Qed.

Lemma preorder_fuel_child fuel : forall a q c,
  a < length (nodes s) -> length (nodes s) <= a + fuel ->
  q ∈ preorder_fuel fuel (nodes s) a ->
  c ∈ childrenOf (nodes s) q ->
  c ∈ preorder_fuel fuel (nodes s) a.
Proof.
  induction fuel as [|fuel IH]; intros a q c Ha Hfuel Hq Hc; [lia|].
  cbn [preorder_fuel] in Hq |- *. right.
  apply elem_of_flat_map.
  apply elem_of_cons in Hq as [->|Hq].
  - exists c. split; [done|].
    unfold childrenOf in Hc.
    destruct (nodes s !! a) as [n|] eqn:Hn; [|by apply elem_of_nil in Hc].
    pose proof (wf_child_bounds s Hwf _ _ _ Hn Hc).
    destruct fuel as [|fuel]; [lia|]. left.
  - apply elem_of_flat_map in Hq as (c' & Hc' & Hq).
    exists c'. split; [done|].
    pose proof Hc' as Hc''. unfold childrenOf in Hc''.
    destruct (nodes s !! a) as [n|] eqn:Hn; [|by apply elem_of_nil in Hc''].
    pose proof (wf_child_bounds s Hwf _ _ _ Hn Hc'').
    apply (IH c' q c); [lia|lia|done..].
Qed.

Lemma onChain_preorder x a :
  a < length (nodes s) -> onChain s x a -> x ∈ preorder (nodes s) a.
Proof.
  intros Ha. induction 1 as [|p n q r Hp Hpar _ IH].
  - left.
  - destruct (wf_attached _ Hwf _ _ _ Hp Hpar) as (qn & Hqn & Hin).
    apply (preorder_fuel_child _ r q p); [done|lia|by apply IH|].
    unfold childrenOf. by rewrite Hqn.
Qed.

Lemma NoDup_preorder_fuel (Hnd : forall i n, nodes s !! i = Some n -> NoDup (Children n))
    fuel : forall a, NoDup (preorder_fuel fuel (nodes s) a).
Proof.
  induction fuel as [|fuel IH]; intros a; [apply NoDup_nil_2|].
  cbn [preorder_fuel]. unfold childrenOf.
  destruct (nodes s !! a) as [n|] eqn:Hn; [|apply NoDup_singleton].
  apply NoDup_cons. split.
  - intros (c & Hc & Hx)%elem_of_flat_map.
    apply preorder_fuel_onChain, onChain_le in Hx.
    pose proof (wf_child_bounds s Hwf _ _ _ Hn Hc). lia.
  - apply NoDup_flat_map; [by eapply Hnd|by intros; apply IH|].
    intros c1 c2 y Hc1 Hc2 Hne Hy1%preorder_fuel_onChain Hy2%preorder_fuel_onChain.
    pose proof (wf_child_bounds s Hwf _ _ _ Hn Hc1) as Hb1.
    pose proof (wf_child_bounds s Hwf _ _ _ Hn Hc2) as Hb2.
    destruct (wf_children _ Hwf _ _ _ Hn Hc1) as (n1 & Hn1 & Hp1).
    destruct (wf_children _ Hwf _ _ _ Hn Hc2) as (n2 & Hn2 & Hp2).
    destruct (onChain_linear _ _ _ Hy1 Hy2) as [H12|H21].
    + inversion H12 as [|p' n' q' r' Hp' Hpar' H']; subst; [done|].
      assert (q' = a) as -> by congruence.
      apply onChain_le in H'. lia.
    + inversion H21 as [|p' n' q' r' Hp' Hpar' H']; subst; [done|].
      assert (q' = a) as -> by congruence.
      apply onChain_le in H'. lia.
Qed.

End descendants.

Lemma preorder_unfold s a :
  wf_nodes (nodes s) ->
  preorder (nodes s) a =
    a :: flat_map (preorder (nodes s)) (childrenOf (nodes s) a).
Proof.
  intros Hwf. unfold preorder at 1. cbn [preorder_fuel]. f_equal.
  apply flat_map_ext_elem. intros c Hc. unfold preorder.
  unfold childrenOf in Hc.
  destruct (nodes s !! a) as [n|] eqn:Hn; [|by apply elem_of_nil in Hc].
  pose proof (wf_child_bounds s Hwf _ _ _ Hn Hc).
  symmetry. apply preorder_fuel_enough; [done|lia..].
Qed.

(** X10: [FlattenChildren] on a node of a built tree returns the nodes
    strictly below it, each once, in depth-first pre-order: its result
    is the pre-order of the node without the node itself.  It never
    panics there. *)
Theorem FlattenChildren_is_the_preorder_below ts root s a :
  dive ts emptyStore = Ret (root, s) ->
  a < length (nodes s) ->
  exists l,
    FlattenChildren (Some a) s = Ret (Some <$> l, s) /\
    preorder (nodes s) a = a :: l /\
    NoDup l /\
    (forall x, x ∈ l <-> x <> a /\ onChain s x a).
Proof.
  intros H Ha.
  apply dive_built in H as (Hwf & _ & parent & _ & _ & _ & _ & Hnd).
  exists (flat_map (preorder (nodes s)) (childrenOf (nodes s) a)).
  pose proof (preorder_unfold s a Hwf) as Hpre.
  pose proof (NoDup_preorder_fuel s Hwf Hnd (S (length (nodes s))) a) as Hnodup.
  fold (preorder (nodes s) a) in Hnodup. rewrite Hpre in Hnodup.
  apply NoDup_cons in Hnodup as [Hnotin Hnodup].
  split_and!; [by apply FlattenChildren_preorder|done..|].
  intros x. split.
  - intros Hx. split; [by intros ->|].
    apply (preorder_fuel_onChain s Hwf (S (length (nodes s)))).
    fold (preorder (nodes s) a). rewrite Hpre. by right.
  - intros [Hne Hch].
    pose proof (onChain_preorder s Hwf _ _ Ha Hch) as Hin.
    rewrite Hpre in Hin. by apply elem_of_cons in Hin as [?|?].
Qed.

(** X10 on [<a><q><a><b></b></a></q><b></b></a>]. *)
Lemma FlattenChildren_of_doc_nested :
  let s := store_of doc_nested in
  FlattenChildren (Some 1) s = Ret ([Some 2; Some 3], s) /\
  exists l, FlattenChildren (Some 0) s = Ret (Some <$> l, s) /\
    preorder (nodes s) 0 = 0 :: l /\ NoDup l /\
    (forall x, x ∈ l <-> x <> 0 /\ onChain s x 0).
Proof.
  intros s. split; [vm_compute; reflexivity|].
  apply (FlattenChildren_is_the_preorder_below doc_nested (Some 0)).
  - vm_compute. reflexivity.
  - vm_compute. lia.
Defined.

(** ** Queries *)

Lemma matches_empty_query node s :
  matches node (mkNodePath "" "" "") s = Ret (true, s).
Proof. reflexivity. Qed.

Lemma collect_all q s l : forall found,
  (forall x, x ∈ l -> matches (Some x) q s = Ret (true, s)) ->
  collect q l found s = Ret (found ++ (Some <$> l), s).
Proof.
  induction l as [|x l IH]; intros found H.
  - simpl. by rewrite app_nil_r.
  - cbn [collect]. rewrite (bind_Ret _ _ _ _ _ (H x ltac:(left))).
    rewrite IH by (intros y Hy; apply H; by right).
    by rewrite fmap_cons, <- app_assoc.
Qed.

(** X11: with the empty query (no path, no class, no id) every node
    matches: on a node of a built tree [FindPathAll] returns the node
    followed by what [FlattenChildren] returns for it, and [FindPath]
    returns the node itself. *)
Theorem empty_query_selects_every_node ts root s a :
  dive ts emptyStore = Ret (root, s) ->
  a < length (nodes s) ->
  exists below,
    FlattenChildren (Some a) s = Ret (below, s) /\
    FindPathAll (Some a) (mkNodePath "" "" "") s = Ret (Some a :: below, s) /\
    FindPath (Some a) (mkNodePath "" "" "") s = Ret (Some a, s).
Proof.
  intros H Ha. pose proof (dive_tree _ _ _ H) as [Hwf _].
  exists (Some <$> flat_map (preorder (nodes s)) (childrenOf (nodes s) a)).
  split_and!; [by apply FlattenChildren_preorder| |].
  - destruct (FindPathAll_FindPath_document_order s (mkNodePath "" "" "") a Hwf Ha)
      as (-> & _).
    rewrite collect_all by (intros; apply matches_empty_query).
    by rewrite (preorder_unfold s a Hwf).
  - unfold FindPath, bind, size. reflexivity.
Qed.

(** X11 on [<div><img/><p>X</p></div>]. *)
Lemma empty_query_on_doc_img :
  let s := store_of doc_img in
  exists below,
    FlattenChildren (Some 0) s = Ret (below, s) /\
    FindPathAll (Some 0) (mkNodePath "" "" "") s = Ret (Some 0 :: below, s) /\
    FindPath (Some 0) (mkNodePath "" "" "") s = Ret (Some 0, s).
Proof.
  intros s. apply (empty_query_selects_every_node doc_img (Some 0)).
  - vm_compute. reflexivity.
  - vm_compute. lia.
Defined.

(** X12: on a node of a built tree, whenever [FindPathAll] returns, it
    returns the nodes of the pre-order below the receiver for which the
    condition path-and-class-and-id answers true, in that order, and
    [FindPath] returns the first of them, nil exactly when there is
    none. *)
Theorem FindPath_is_the_head_of_FindPathAll ts root s a q found s' :
  dive ts emptyStore = Ret (root, s) ->
  a < length (nodes s) ->
  FindPathAll (Some a) q s = Ret (found, s') ->
  found = Some <$> List.filter (matchesb s q) (preorder (nodes s) a) /\
  FindPath (Some a) q s = Ret (default None (head found), s) /\
  (FindPath (Some a) q s = Ret (None, s) <-> found = []).
Proof.
  intros H Ha Hall. apply dive_tree in H as [Hwf _].
  destruct (FindPathAll_FindPath_document_order s q a Hwf Ha) as (_ & _ & Hgo).
  exact (Hgo found s' Hall).
Qed.

(** X12 on [<a><q><a><b></b></a></q><b></b></a>] and the path [a/b]. *)
Lemma FindPath_a_b_in_doc_nested :
  let s := store_of doc_nested in
  let q := mkNodePath "a/b" "" "" in
  FindPathAll (Some 0) q s = Ret ([Some 3; Some 4], s) /\
  FindPath (Some 0) q s = Ret (Some 3, s).
Proof.
  intros s q.
  assert (FindPathAll (Some 0) q s = Ret ([Some 3; Some 4], s)) as Hall
    by (vm_compute; reflexivity).
  split; [exact Hall|].
  assert (dive doc_nested emptyStore = Ret (Some 0, s)) as Hd
    by (vm_compute; reflexivity).
  assert (0 < length (nodes s)) as Ha by (vm_compute; lia).
  exact (proj1 (proj2 (FindPath_is_the_head_of_FindPathAll
                         doc_nested (Some 0) s 0 q _ _ Hd Ha Hall))).
Defined.

(** ** Paths without the direct-child marker *)

Lemma Split_sepfree p sep :
  Forall (fun seg => hasByte sep seg = false) (strings.Split p sep).
Proof.
  induction p as [|c p IH]; [by apply Forall_singleton|].
  cbn [strings.Split]. destruct (Ascii.eqb c sep) eqn:Hc.
  - apply Forall_cons. done.
  - destruct (strings.Split p sep) as [|seg segs].
    + apply Forall_singleton. cbn [hasByte]. by rewrite Hc.
    + apply Forall_cons in IH as [Hseg Hsegs]. apply Forall_cons. split; [|done].
      cbn [hasByte]. by rewrite Hc.
Qed.

(** Splitting the joined pieces gives the pieces back. *)
Lemma Split_Join l sep :
  l <> [] -> Forall (fun seg => hasByte sep seg = false) l ->
  strings.Split (strings.Join l (String sep "")) sep = l.
Proof.
  induction l as [|x l IH]; [done|]. intros _ [Hx Hl]%Forall_cons.
  destruct l as [|y l].
  - by apply Split_no_sep.
  - rewrite Join_cons_cons.
    change (x +:+ String sep "" +:+ strings.Join (y :: l) (String sep ""))
      with (x +:+ String sep (strings.Join (y :: l) (String sep ""))).
    rewrite (Split_append_sep _ _ _ Hx). by rewrite IH.
Qed.

Lemma Forall_nth_last {A} (P : A -> Prop) (l : list A) (d : A) i :
  Forall P l -> i < length l -> P (nth i l d).
Proof.
  intros H Hi. apply (proj1 (List.Forall_forall P l) H). by apply nth_In.
Qed.

Lemma MatchesPath_fuel_markerFree s :
  wf_nodes (nodes s) ->
  forall fuel path a,
    String.length path < fuel -> a < length (nodes s) ->
    markerFree path ->
    exists b, MatchesPath_fuel fuel (Some a) path s = Ret (b, s).
Proof.
  intros Hwf fuel. induction fuel as [|fuel IH]; intros path a Hlen Ha Hfree; [lia|].
  destruct (String.eqb_spec path "") as [->|Hne]; [by exists true|].
  rewrite MatchesPath_fuel_unfold by done. cbv zeta.
  destruct (lookup_lt_is_Some_2 _ _ Ha) as [n Hn].
  destruct (Nat.eqb_spec (length (strings.Split path "/")) 1) as [H1|H1].
  { rewrite (bind_Ret _ _ _ _ _ (getData_Some _ _ _ Hn)). by eexists. }
  rewrite (bind_Ret _ _ _ _ _ (getData_Some _ _ _ Hn)).
  destruct (negb _); [by eexists|].
  pose proof (newPath_shorter path H1) as Hshort. cbv zeta in Hshort.
  pose proof (Split_nonempty path "/") as Hnonempty.
  unfold markerFree in Hfree.
  rewrite (Forall_nth_last _ _ "" _ Hfree).
  2: { destruct (strings.Split path "/"); [done|]. simpl. lia. }
  destruct (FindTagReverse_total s
              (strings.TrimPrefix
                 (nth (length (strings.Split path "/") - 2)
                      (strings.Split path "/") "") ".") a Hwf Ha)
    as (r & Hr & Hok).
  rewrite (bind_Ret _ _ _ _ _ Hr).
  destruct r as [b|]; [|by eexists].
  apply IH; [lia|done|].
  unfold markerFree. rewrite Split_Join.
  - by apply Forall_take.
  - destruct (strings.Split path "/") as [|x [|y l]]; done.
  - apply Forall_take, Split_sepfree.
Qed.

Lemma matches_markerFree s a q :
  wf_nodes (nodes s) -> attrs_ok s -> a < length (nodes s) ->
  markerFree (NP_Path q) ->
  exists b, matches (Some a) q s = Ret (b, s).
Proof.
  intros Hwf Hok Ha Hfree. unfold matches.
  destruct (MatchesPath_fuel_markerFree s Hwf (S (String.length (NP_Path q)))
              (NP_Path q) a) as [m Hm]; [lia|done..|].
  fold (MatchesPath (Some a) (NP_Path q)) in Hm.
  rewrite (bind_Ret _ _ _ _ _ Hm).
  destruct m; [|by eexists]. cbn [negb].
  destruct (HasClass_total s a (NP_Class q) Hok Ha) as [c Hc].
  rewrite (bind_Ret _ _ _ _ _ Hc).
  destruct c; [|by eexists]. cbn [negb].
  by apply HasID_total.
Qed.

(** X13: a query whose path has no direct-child marker never panics on
    a built tree.  [MatchesPath] answers on every node; [FindPathAll]
    returns the matching nodes of the pre-order below the receiver, in
    that order; and [FindPath] returns the first of them, or nil when
    there is none. *)
Theorem queries_without_marker_never_panic ts root s a q :
  dive ts emptyStore = Ret (root, s) ->
  a < length (nodes s) ->
  markerFree (NP_Path q) ->
  (exists b, MatchesPath (Some a) (NP_Path q) s = Ret (b, s)) /\
  FindPathAll (Some a) q s =
    Ret (Some <$> List.filter (matchesb s q) (preorder (nodes s) a), s) /\
  FindPath (Some a) q s =
    Ret (default None
           (head (Some <$> List.filter (matchesb s q) (preorder (nodes s) a))),
         s).
Proof.
  intros H Ha Hfree.
  pose proof (dive_attrs_ok _ _ _ H) as Hok.
  pose proof (dive_tree _ _ _ H) as [Hwf _].
  split.
  { apply (MatchesPath_fuel_markerFree s Hwf); [lia|done..]. }
  destruct (FindPathAll_FindPath_document_order s q a Hwf Ha)
    as (Hall & _ & Hgo).
  destruct (collect_returns q s (preorder (nodes s) a) []) as [found Hfound].
  { intros x Hx. apply matches_markerFree; [done..| |done].
    by apply (preorder_fuel_valid s (S (length (nodes s))) Hwf a). }
  rewrite <- Hall in Hfound.
  destruct (Hgo _ _ Hfound) as (Heq & Hfirst & _).
  rewrite Hfound, Hfirst. by rewrite Heq.
Qed.

(** X13 on [<a><q><a><b></b></a></q><b></b></a>] and the path [q/a/b]. *)
Lemma query_q_a_b_in_doc_nested :
  let s := store_of doc_nested in
  let q := mkNodePath "q/a/b" "" "" in
  List.filter (matchesb s q) (preorder (nodes s) 0) = [3] /\
  FindPathAll (Some 0) q s = Ret ([Some 3], s) /\
  FindPath (Some 0) q s = Ret (Some 3, s).
Proof.
  intros s q.
  assert (List.filter (matchesb s q) (preorder (nodes s) 0) = [3]) as Hf
    by (vm_compute; reflexivity).
  split; [exact Hf|].
  destruct (queries_without_marker_never_panic doc_nested (Some 0) s 0 q)
    as (_ & Hall & Hfirst).
  - vm_compute. reflexivity.
  - vm_compute. lia.
  - unfold markerFree. vm_compute. repeat constructor.
  - rewrite Hf in Hall, Hfirst. split; [exact Hall|exact Hfirst].
Defined.

(** ** [MatchesPath] on short paths *)

Lemma substring_all b : String.substring 0 (String.length b) b = b.
Proof.
  induction b as [|c b IH]; [done|].
  change (String c (String.substring 0 (String.length b) b) = String c b).
  by rewrite IH.
Qed.

Lemma HasPrefix_dot b : strings.HasPrefix (String "." b) "." = true.
Proof. unfold strings.HasPrefix. cbn. by destruct b. Qed.

Lemma TrimPrefix_dot b : strings.TrimPrefix (String "." b) "." = b.
Proof.
  unfold strings.TrimPrefix. rewrite HasPrefix_dot.
  change (String.length ".") with 1.
  change (String.length (String "." b)) with (S (String.length b)).
  replace (S (String.length b) - 1) with (String.length b) by lia.
  change (String.substring 1 (String.length b) (String "." b))
    with (String.substring 0 (String.length b) b).
  apply substring_all.
Qed.

Lemma MatchesPath_fuel_single fuel node t s :
  hasByte "/" t = false ->
  MatchesPath_fuel (S fuel) node t s =
    if String.eqb t "" then Ret (true, s)
    else bind (getData node)
           (fun d => ret (String.eqb (strings.TrimPrefix t ".") d)) s.
Proof.
  intros Hsep. cbn [MatchesPath_fuel].
  destruct (String.eqb t ""); [done|]. cbv zeta.
  rewrite (Split_no_sep _ _ Hsep). reflexivity.
Qed.

(** X14: the empty path matches every node, and a path of one segment
    matches exactly the nodes whose tag is that segment; a direct-child
    marker on the only segment is dropped and has no effect. *)
Theorem MatchesPath_one_segment s i n path :
  nodes s !! i = Some n ->
  hasByte "/" path = false ->
  MatchesPath (Some i) path s =
    Ret (String.eqb path "" ||
         String.eqb (strings.TrimPrefix path ".") (Data (Token n)), s).
Proof.
  intros Hn Hsep. unfold MatchesPath.
  rewrite (MatchesPath_fuel_single _ _ _ _ Hsep).
  destruct (String.eqb path ""); [done|].
  by rewrite (bind_Ret _ _ _ _ _ (getData_Some _ _ _ Hn)).
Qed.

(** X14 on the root of [<div></div>]. *)
Lemma one_segment_on_div :
  let s := store_of doc_div in
  MatchesPath (Some 0) "" s = Ret (true, s) /\
  MatchesPath (Some 0) "div" s = Ret (true, s) /\
  MatchesPath (Some 0) ".div" s = Ret (true, s) /\
  MatchesPath (Some 0) "p" s = Ret (false, s).
Proof.
  intros s.
  assert (nodes s !! 0 = Some (mkNode (startTag "div" []) None [] ∅)) as Hn
    by (vm_compute; reflexivity).
  split_and!.
  - by rewrite (MatchesPath_one_segment s 0 _ "" Hn).
  - by rewrite (MatchesPath_one_segment s 0 _ "div" Hn).
  - by rewrite (MatchesPath_one_segment s 0 _ ".div" Hn).
  - by rewrite (MatchesPath_one_segment s 0 _ "p" Hn).
Defined.

Lemma MatchesPath_fuel_marked_last s i n a b :
  nodes s !! i = Some n ->
  hasByte "/" a = false -> hasByte "/" b = false ->
  MatchesPath (Some i) (a +:+ "/." +:+ b) s =
    if negb (String.eqb b (Data (Token n))) then Ret (false, s)
    else match Parent n with
         | Some q =>
             match nodes s !! q with
             | Some qn =>
                 Ret (String.eqb a "" ||
                      String.eqb (strings.TrimPrefix a ".") (Data (Token qn)), s)
             | None => if String.eqb a "" then Ret (true, s) else Err Dangling
             end
         | None => if String.eqb a "" then Ret (true, s) else Err NilDeref
         end.
Proof.
  intros Hn Hsa Hsb. unfold MatchesPath.
  change (a +:+ "/." +:+ b) with (a +:+ String "/" (String "." b)).
  rewrite MatchesPath_fuel_unfold by (by destruct a).
  cbv zeta.
  assert (hasByte "/" (String "." b) = false) as Hsb' by (cbn [hasByte]; done).
  rewrite (Split_append_sep _ _ _ Hsa), (Split_no_sep _ _ Hsb').
  cbn [length Nat.sub nth Nat.eqb take].
  rewrite HasPrefix_dot, TrimPrefix_dot.
  rewrite (bind_Ret _ _ _ _ _ (getData_Some _ _ _ Hn)).
  destruct (negb (String.eqb b (Data (Token n)))); [done|].
  change (strings.Join [a] "/") with a.
  rewrite (bind_Ret _ _ _ _ _ (getParent_Some _ _ _ Hn)).
  rewrite length_append.
  change (String.length (String "/" (String "." b)))
    with (S (S (String.length b))).
  replace (String.length a + S (S (String.length b)))
    with (S (String.length a + S (String.length b))) by lia.
  rewrite (MatchesPath_fuel_single _ _ _ _ Hsa).
  destruct (Parent n) as [q|].
  - destruct (nodes s !! q) as [qn|] eqn:Hq.
    + destruct (String.eqb a ""); [done|].
      by rewrite (bind_Ret _ _ _ _ _ (getData_Some _ _ _ Hq)).
    + destruct (String.eqb a ""); [done|].
      unfold bind, getData, bind, deref. by rewrite Hq.
  - by destruct (String.eqb a "").
Qed.

(** X15: a path [a/.b] of two segments with the marker on the last one
    is a test of the node and its immediate parent.  On a node with a
    parent it answers whether the node has the tag [b] and the parent
    matches [a] as a path of one segment.  On a node without a parent
    (the root) it answers false when the node has another tag than [b],
    and otherwise panics with a nil dereference, unless [a] is empty. *)
Theorem MatchesPath_marked_last_segment s i n a b :
  nodes s !! i = Some n ->
  hasByte "/" a = false -> hasByte "/" b = false ->
  (forall q qn, Parent n = Some q -> nodes s !! q = Some qn ->
     MatchesPath (Some i) (a +:+ "/." +:+ b) s =
       Ret (String.eqb b (Data (Token n)) &&
            (String.eqb a "" ||
             String.eqb (strings.TrimPrefix a ".") (Data (Token qn))), s)) /\
  (Parent n = None ->
     MatchesPath (Some i) (a +:+ "/." +:+ b) s =
       if negb (String.eqb b (Data (Token n))) then Ret (false, s)
       else if String.eqb a "" then Ret (true, s)
       else Err NilDeref).
Proof.
  intros Hn Hsa Hsb.
  rewrite (MatchesPath_fuel_marked_last s i n a b Hn Hsa Hsb). split.
  - intros q qn -> ->. by destruct (String.eqb b (Data (Token n))).
  - by intros ->.
Qed.

(** X15 on [<div><section><h1>X</h1></section></div>]: [section/.h1]
    holds for the [h1], [div/.h1] does not, and [x/.div] panics on the
    root. *)
Lemma marked_last_segment_on_doc_h1 :
  let s := store_of doc_h1 in
  MatchesPath (Some 2) "section/.h1" s = Ret (true, s) /\
  MatchesPath (Some 2) "div/.h1" s = Ret (false, s) /\
  MatchesPath (Some 0) "x/.div" s = Err NilDeref.
Proof.
  intros s.
  assert (nodes s !! 2 = Some (mkNode (startTag "h1" []) (Some 1) [] ∅)) as H2
    by (vm_compute; reflexivity).
  assert (nodes s !! 0 = Some (mkNode (startTag "div" []) None [1] ∅)) as H0
    by (vm_compute; reflexivity).
  assert (nodes s !! 1 = Some (mkNode (startTag "section" []) (Some 0) [2] ∅))
    as H1 by (vm_compute; reflexivity).
  split_and!.
  - exact (proj1 (MatchesPath_marked_last_segment s 2 _ "section" "h1"
                    H2 eq_refl eq_refl) 1 _ eq_refl H1).
  - exact (proj1 (MatchesPath_marked_last_segment s 2 _ "div" "h1"
                    H2 eq_refl eq_refl) 1 _ eq_refl H1).
  - exact (proj2 (MatchesPath_marked_last_segment s 0 _ "x" "div"
                    H0 eq_refl eq_refl) eq_refl).
Defined.

(** ** [Path] and [MatchesPath] *)

Lemma append_sep_not_empty a c b : String.eqb (a +:+ String c b) "" = false.
Proof. by destruct a. Qed.

Lemma Join_nil_head l :
  l <> [] -> strings.Join ("" :: l) "/" = "/" +:+ strings.Join l "/".
Proof. destruct l as [|x l]; [done|]. intros _. by rewrite Join_cons_cons. Qed.

(** A path that starts with a slash matches nothing in a tree without
    empty tag names: the search for its first, empty segment fails. *)
Lemma MatchesPath_fuel_rooted s :
  wf_nodes (nodes s) ->
  (forall i n, nodes s !! i = Some n -> Data (Token n) <> "") ->
  forall l, l <> [] ->
    Forall (fun t => hasByte "/" t = false /\ strings.HasPrefix t "." = false) l ->
    forall fuel a, a < length (nodes s) ->
      String.length (strings.Join ("" :: l) "/") < fuel ->
      MatchesPath_fuel fuel (Some a) (strings.Join ("" :: l) "/") s
        = Ret (false, s).
Proof.
  intros Hwf Hdata l.
  induction l as [|x l' IH] using rev_ind; [done|].
  intros _ [Hl' [Hxs Hxd]%Forall_singleton]%Forall_app fuel a Ha Hfuel.
  destruct fuel as [|fuel]; [lia|].
  set (init := "" :: l') in *.
  change ("" :: l' ++ [x]) with (init ++ [x]) in *.
  assert (init <> []) as Hinit by done.
  assert (Forall (fun t => hasByte "/" t = false) (init ++ [x])) as Hsep.
  { apply Forall_app. split; [|by apply Forall_singleton].
    apply Forall_cons. split; [done|].
    eapply Forall_impl; [exact Hl'|]. by intros t [? _]. }
  assert (Forall (fun t => strings.HasPrefix t "." = false) init) as Hdot.
  { apply Forall_cons. split; [done|].
    eapply Forall_impl; [exact Hl'|]. by intros t [_ ?]. }
  rewrite (Join_snoc init x "/" Hinit) in Hfuel |- *.
  rewrite MatchesPath_fuel_unfold.
  2: { intros Heq. pose proof (append_sep_not_empty (strings.Join init "/") "/" x) as Hne.
       change (strings.Join init "/" +:+ "/" +:+ x)
         with (strings.Join init "/" +:+ String "/" x) in Heq.
       rewrite Heq in Hne. done. }
  cbv zeta. rewrite <- (Join_snoc init x "/" Hinit).
  rewrite (Split_Join (init ++ [x]) "/") by (done || by destruct init).
  rewrite length_app. cbn [length].
  replace (length init + 1 - 1) with (length init) by lia.
  replace (length init + 1 - 2) with (length init - 1) by lia.
  rewrite nth_middle, take_app_length.
  rewrite Hxd, (TrimPrefix_no_prefix _ _ Hxd).
  destruct (lookup_lt_is_Some_2 _ _ Ha) as [n Hn].
  replace (Nat.eqb (length init + 1) 1) with false
    by (symmetry; apply Nat.eqb_neq; destruct init; simpl; [done|lia]).
  rewrite (bind_Ret _ _ _ _ _ (getData_Some _ _ _ Hn)).
  destruct (negb _); [done|].
  rewrite app_nth1 by (destruct init; simpl; [done|lia]).
  assert (strings.HasPrefix (nth (length init - 1) init "") "." = false) as Hpd.
  { apply Forall_nth_last; [done|]. destruct init; simpl; [done|lia]. }
  rewrite (TrimPrefix_no_prefix _ _ Hpd).
  destruct (FindTagReverse_total s (nth (length init - 1) init "") a Hwf Ha)
    as (r & Hr & Hok).
  rewrite (bind_Ret _ _ _ _ _ Hr).
  destruct r as [b|]; [|done].
  unfold FindTagReverse, bind, size in Hr.
  apply FindTagReverse_fuel_found in Hr as (bn & Hbn & Hbd).
  destruct l' as [|y l''] eqn:El'.
  - exfalso. subst init. simpl in Hbd. by apply (Hdata _ _ Hbn).
  - rewrite <- El' in *. subst init. apply IH.
    + by rewrite El'.
    + done.
    + done.
    + rewrite !length_append in Hfuel.
      change (String.length "/") with 1 in Hfuel. lia.
Qed.

Lemma chain_tags s r i tags :
  chain s r i tags ->
  Forall (fun t => exists j n, nodes s !! j = Some n /\ Data (Token n) = t) tags.
Proof.
  induction 1 as [n Hn|m mn c cn tags _ IH _ _ Hcn].
  - apply Forall_singleton. by exists r, n.
  - apply Forall_app. split; [done|]. apply Forall_singleton. by exists c, cn.
Qed.

(** X16: [Path] is no inverse of [MatchesPath].  In a built tree whose
    tag names are plain (not empty, no slash, no leading dot, as the
    tokenizer delivers them), the path that [Path] returns for a node is
    never matched by that node: it starts with a slash, so its first
    segment is empty, and no node answers to the empty name. *)
Theorem Path_is_never_matched_by_its_node ts root s i n :
  dive ts emptyStore = Ret (root, s) ->
  (forall j m, nodes s !! j = Some m -> plainTag (Data (Token m))) ->
  nodes s !! i = Some n ->
  exists path,
    Path (Some i) s = Ret (path, s) /\
    MatchesPath (Some i) path s = Ret (false, s).
Proof.
  intros H Hplain Hn. apply dive_tree in H as [Hwf _].
  destruct (chain_exists s Hwf _ _ Hn) as [tags Hch].
  exists ("/" +:+ strings.Join tags "/"). split; [by apply Path_chain|].
  pose proof (chain_nonempty _ _ _ _ Hch) as Hne.
  rewrite <- (Join_nil_head tags Hne). unfold MatchesPath.
  apply MatchesPath_fuel_rooted; [done| |done| | |lia].
  - intros j m Hm. by destruct (Hplain _ _ Hm).
  - eapply Forall_impl; [by eapply chain_tags|].
    intros t (j & m & Hm & <-). by destruct (Hplain _ _ Hm) as (_ & ? & ?).
  - by apply lookup_lt_Some in Hn.
Qed.

(** X16 on the [h1] of [<div><section><h1>X</h1></section></div>]. *)
Lemma Path_of_h1_is_not_matched :
  let s := store_of doc_h1 in
  Path (Some 2) s = Ret ("/div/section/h1", s) /\
  exists path, Path (Some 2) s = Ret (path, s) /\
    MatchesPath (Some 2) path s = Ret (false, s).
Proof.
  intros s. split; [vm_compute; reflexivity|].
  apply (Path_is_never_matched_by_its_node doc_h1 (Some 0) s 2
           (mkNode (startTag "h1" []) (Some 1) [] ∅)).
  - vm_compute. reflexivity.
  - intros j m Hm.
    assert (j < 3) as Hj by (apply lookup_lt_Some in Hm; exact Hm).
    destruct j as [|[|[|j]]]; [| | |lia];
      vm_compute in Hm; injection Hm as <-; repeat split; discriminate.
  - vm_compute. reflexivity.
Defined.

(** X17: [Path] of a node is the [Path] of its parent followed by a
    slash and the node's tag name; [Path] of the root is a slash and its
    tag name. *)
Theorem Path_extends_the_parents_Path ts root s i n :
  dive ts emptyStore = Ret (root, s) ->
  nodes s !! i = Some n ->
  match Parent n with
  | Some p =>
      exists above, Path (Some p) s = Ret (above, s) /\
        Path (Some i) s = Ret (above +:+ "/" +:+ Data (Token n), s)
  | None => Path (Some i) s = Ret ("/" +:+ Data (Token n), s)
  end.
Proof.
  intros H Hn. apply dive_tree in H as [Hwf _].
  destruct (Parent n) as [p|] eqn:E.
  - destruct (wf_attached _ Hwf _ _ _ Hn E) as (pn & Hpn & Hin).
    destruct (chain_exists s Hwf _ _ Hpn) as [tags Hch].
    exists ("/" +:+ strings.Join tags "/"). split; [by apply Path_chain|].
    rewrite (Path_chain s i (tags ++ [Data (Token n)]) Hwf).
    + rewrite Join_snoc by (by eapply chain_nonempty).
      by rewrite !append_assoc.
    + by eapply chain_step.
  - pose proof (wf_root _ Hwf _ _ Hn E) as ->.
    by rewrite (Path_chain s 0 [Data (Token n)] Hwf (chain_root s 0 n Hn)).
Qed.

(** X17 on the [h1] of [<div><section><h1>X</h1></section></div>]. *)
Lemma Path_of_h1_extends_Path_of_section :
  let s := store_of doc_h1 in
  exists above, Path (Some 1) s = Ret (above, s) /\
    Path (Some 2) s = Ret (above +:+ "/" +:+ "h1", s).
Proof.
  intros s.
  apply (Path_extends_the_parents_Path doc_h1 (Some 0) s 2
           (mkNode (startTag "h1" []) (Some 1) [] ∅)).
  - vm_compute. reflexivity.
  - vm_compute. reflexivity.
Defined.

(** ** Class and id filters on a built tree *)




(** ** The order of the children *)

Lemma increasing_snoc l c :
  increasing l -> (forall x, x ∈ l -> x < c) -> increasing (l ++ [c]).
Proof.
  intros Hl Hc j k c1 c2 Hj Hk Hjk.
  apply lookup_snoc_Some in Hj as [[Hj1 Hj]|[-> <-]];
    apply lookup_snoc_Some in Hk as [[Hk1 Hk]|[-> <-]].
  - by eapply Hl.
  - apply Hc. by eapply list_elem_of_lookup_2.
  - lia.
  - lia.
Qed.

Lemma stepped_increasing current parent root s p r s' :
  tree_inv s parent root ->
  (forall i n, nodes s !! i = Some n -> increasing (Children n)) ->
  stepped current parent root s p r s' ->
  forall i n, nodes s' !! i = Some n -> increasing (Children n).
Proof.
  intros (Hwf & Hcur & Hroot) Hinc Hst.
  assert (forall q qn,
            parent = Some q ->
            nodes (newNode_store current parent s) !! q = Some qn ->
            forall i n, nodes (attach_store current q qn s) !! i = Some n ->
                        increasing (Children n)) as Hattach.
  { intros q qn -> Hq i n Hn. simpl in Hcur.
    rewrite nodes_newNode_store in Hq. rewrite lookup_app_l in Hq by done.
    unfold attach_store in Hn. cbn [nodes] in Hn.
    rewrite nodes_newNode_store in Hn.
    apply (attach_inv _ _ _ _ Hq) in Hn as [(n0 & Hn0 & _ & _ & HC)|[-> ->]].
    - destruct HC as [HC|[-> HC]]; rewrite HC; [by eapply Hinc|].
      assert (n0 = qn) as -> by congruence.
      apply increasing_snoc; [by eapply Hinc|].
      intros x Hx. destruct (wf_children _ Hwf _ _ _ Hq Hx) as (xn & Hxn & _).
      by apply lookup_lt_Some in Hxn.
    - intros j k c1 c2 Hj. done. }
  destruct Hst as [Hty ->|q qn Hty Hr -> Hq|q qn Hty -> Hq|t tn Hty Ht|Hty1 Hty2];
    try done.
  - intros i n Hn. rewrite nodes_newNode_store in Hn.
    apply lookup_snoc_Some in Hn as [[_ Hn]|[_ <-]]; [by eapply Hinc|].
    intros j k c1 c2 Hj. done.
  - by apply Hattach.
  - by apply Hattach.
Qed.

(** X19: the child slice of every node of a built tree is in increasing
    order of address, and the node at an address holds the tag token at
    that position among the tag tokens of the stream: the children of a
    node are listed in the order in which their tags come in the
    stream. *)
Theorem children_are_in_stream_order ts root s i n :
  dive ts emptyStore = Ret (root, s) ->
  nodes s !! i = Some n ->
  increasing (Children n) /\
  forall c, c ∈ Children n ->
    exists cn, nodes s !! c = Some cn /\
      List.filter isTag (beforeError ts) !! c = Some (Token cn).
Proof.
  intros H Hn. split.
  - unfold dive in H.
    pose (I := fun (s : Store) (parent root : ptr) =>
                 tree_inv s parent root /\
                 forall i n, nodes s !! i = Some n -> increasing (Children n)).
    assert (I emptyStore None None) as H0.
    { split; [split_and!; [apply wf_nodes_nil|done..]|].
      intros j m Hm. simpl in Hm. by rewrite lookup_nil in Hm. }
    assert (forall current parent root s p r s',
               current ∈ ts -> I s parent root ->
               stepped current parent root s p r s' -> I s' p r) as Hstep.
    { intros * _ [Ht Hi] Hst. split.
      - by eapply stepped_tree_inv.
      - by eapply stepped_increasing. }
    destruct (dive_loop_ind I ts Hstep ts (reflexivity _) _ _ _ _ _ H0 H)
      as (parent' & _ & Hinc).
    by eapply Hinc.
  - intros c Hc. pose proof (dive_loop_tokens _ _ _ _ _ _ H) as Htok.
    simpl in Htok. apply dive_tree in H as [Hwf _].
    destruct (wf_children _ Hwf _ _ _ Hn Hc) as (cn & Hcn & _).
    exists cn. split; [done|].
    rewrite <- Htok, list_lookup_fmap, Hcn. done.
Qed.

(** X19 on [<div><img/><p>X</p></div>]: [img] comes before [p]. *)
Lemma children_of_div_in_doc_img :
  let s := store_of doc_img in
  increasing [1; 2] /\
  forall c, c ∈ [1; 2] ->
    exists cn, nodes s !! c = Some cn /\
      List.filter isTag (beforeError doc_img) !! c = Some (Token cn).
Proof.
  intros s.
  apply (children_are_in_stream_order doc_img (Some 0) s 0
           (mkNode (startTag "div" []) None [1; 2] ∅)).
  - vm_compute. reflexivity.
  - vm_compute. reflexivity.
Defined.

(** ** [PrintStructure] *)

Lemma countByte_append c a b :
  countByte c (a +:+ b) = countByte c a + countByte c b.
Proof.
  induction a as [|x a IH]; [done|].
  change (countByte c (String x (a +:+ b))
          = countByte c (String x a) + countByte c b).
  cbn [countByte]. rewrite IH. lia.
Qed.

Lemma countByte_absent c t : hasByte c t = false -> countByte c t = 0.
Proof.
  induction t as [|x t IH]; [done|]. cbn [hasByte countByte].
  intros [-> Ht]%orb_false_elim. by rewrite IH.
Qed.

Lemma countByte_repeatString c t k :
  hasByte c t = false -> countByte c (repeatString t k) = 0.
Proof.
  intros Ht. induction k as [|k IH]; [done|]. cbn [repeatString].
  by rewrite countByte_append, IH, (countByte_absent _ _ Ht).
Qed.

Lemma readonly_rangePrint body cs : forall out,
  (forall c o, readonly (body c o)) -> readonly (rangePrint body cs out).
Proof.
  induction cs as [|c cs IH]; intros out Hb; simpl; ro.
Qed.

Lemma readonly_PrintStructure_fuel fuel : forall node indent character out,
  readonly (PrintStructure_fuel fuel node indent character out).
Proof.
  induction fuel as [|fuel IH]; intros node indent character out; simpl; ro.
  apply readonly_rangePrint. intros c o. apply IH.
Qed.

Lemma linesFor_app ns l1 l2 :
  linesFor ns (l1 ++ l2) = linesFor ns l1 + linesFor ns l2.
Proof.
  unfold linesFor. rewrite List.filter_app, !length_app. lia.
Qed.

Section PrintStructure_lines.
Variables (s : Store) (character : string).
Hypothesis Hwf : wf_nodes (nodes s).

Lemma countByte_line indent n i out :
  noLineFeed s character ->
  nodes s !! i = Some n ->
  countByte (ascii_of_nat 10)
    ((out +:+ repeatString character (Z.to_nat indent))
       +:+ Data (Token n) +:+ newline)
  = countByte (ascii_of_nat 10) out + 1.
Proof.
  intros [Hchar Htags] Hn. rewrite !countByte_append.
  rewrite (countByte_repeatString _ _ _ Hchar).
  rewrite (countByte_absent _ _ (Htags _ _ Hn)).
  change (countByte (ascii_of_nat 10) newline) with 1. lia.
Qed.

Lemma rangePrint_lines (body : addr -> string -> M string)
    (pre : addr -> list addr) cs :
  (forall c, c ∈ cs -> forall out,
     exists out', body c out s = Ret (out', s) /\
       (noLineFeed s character ->
        countByte (ascii_of_nat 10) out'
        = countByte (ascii_of_nat 10) out + linesFor (nodes s) (pre c))) ->
  forall out,
    exists out', rangePrint body cs out s = Ret (out', s) /\
      (noLineFeed s character ->
       countByte (ascii_of_nat 10) out'
       = countByte (ascii_of_nat 10) out
         + linesFor (nodes s) (flat_map pre cs)).
Proof.
  induction cs as [|c cs IH]; intros Hb out.
  - exists out. split; [done|]. intros _. cbn. lia.
  - destruct (Hb c ltac:(left) out) as (out1 & H1 & Hc1).
    destruct (IH (fun c' Hc' => Hb c' (list_elem_of_further _ _ _ Hc')) out1)
      as (out2 & H2 & Hc2).
    exists out2. cbn [rangePrint flat_map].
    rewrite (bind_Ret _ _ _ _ _ H1). split; [done|].
    intros Hlf. specialize (Hc1 Hlf). specialize (Hc2 Hlf).
    rewrite linesFor_app. lia.
Qed.

Lemma PrintStructure_fuel_lines fuel : forall a indent out,
  a < length (nodes s) -> length (nodes s) <= a + fuel ->
  exists out',
    PrintStructure_fuel fuel (Some a) indent character out s = Ret (out', s) /\
    (noLineFeed s character ->
     countByte (ascii_of_nat 10) out'
     = countByte (ascii_of_nat 10) out
       + linesFor (nodes s) (preorder_fuel fuel (nodes s) a)).
Proof.
  induction fuel as [|fuel IH]; intros a indent out Ha Hfuel; [lia|].
  destruct (lookup_lt_is_Some_2 _ _ Ha) as [n Hn].
  cbn [PrintStructure_fuel preorder_fuel]. cbv zeta.
  rewrite (bind_Ret _ _ _ _ _ (getData_Some _ _ _ Hn)).
  rewrite (bind_Ret _ _ _ _ _ (getChildren_Some _ _ _ Hn)).
  destruct (rangePrint_lines
              (fun child =>
                 PrintStructure_fuel fuel (Some child) (int_add indent 1)
                                     character)
              (preorder_fuel fuel (nodes s)) (Children n))
    with (out := (out +:+ repeatString character (Z.to_nat indent))
                   +:+ Data (Token n) +:+ newline)
    as (out1 & H1 & Hc1).
  { intros c Hc out0. pose proof (wf_child_bounds s Hwf _ _ _ Hn Hc).
    apply IH; lia. }
  rewrite (bind_Ret _ _ _ _ _ H1).
  rewrite (bind_Ret _ _ _ _ _ (getChildren_Some _ _ _ Hn)).
  change (a :: flat_map (preorder_fuel fuel (nodes s)) (childrenOf (nodes s) a))
    with ([a] ++ flat_map (preorder_fuel fuel (nodes s)) (childrenOf (nodes s) a)).
  rewrite linesFor_app. unfold linesFor at 1. cbn [List.filter length].
  unfold hasChildren at 1. unfold childrenOf at 1 2. rewrite Hn.
  destruct (Nat.eqb (length (Children n)) 0) eqn:E.
  - exists out1. split; [done|]. intros Hlf. specialize (Hc1 Hlf).
    rewrite (countByte_line _ _ _ _ Hlf Hn) in Hc1. cbn. lia.
  - rewrite (bind_Ret _ _ _ _ _ (getData_Some _ _ _ Hn)).
    eexists. split; [done|]. intros Hlf. specialize (Hc1 Hlf).
    rewrite (countByte_line _ _ _ _ Hlf Hn) in Hc1.
    rewrite (countByte_line _ _ _ _ Hlf Hn). cbn. lia.
Qed.

Lemma PrintStructure_fuel_leaf fuel c n indent out :
  nodes s !! c = Some n -> Children n = [] ->
  PrintStructure_fuel (S fuel) (Some c) indent character out s =
    Ret (out +:+ lineOf character indent (Data (Token n)), s).
Proof.
  intros Hn Hleaf. cbn [PrintStructure_fuel]. cbv zeta.
  rewrite (bind_Ret _ _ _ _ _ (getData_Some _ _ _ Hn)).
  rewrite (bind_Ret _ _ _ _ _ (getChildren_Some _ _ _ Hn)).
  rewrite Hleaf. cbn [rangePrint]. unfold bind at 1. unfold ret at 1.
  rewrite (bind_Ret _ _ _ _ _ (getChildren_Some _ _ _ Hn)).
  rewrite Hleaf. cbn [length Nat.eqb]. unfold ret, lineOf.
  by rewrite append_assoc.
Qed.

Lemma rangePrint_leaves fuel indent cs : forall out,
  (forall c, c ∈ cs -> c < length (nodes s) /\ childrenOf (nodes s) c = []) ->
  rangePrint
    (fun child => PrintStructure_fuel (S fuel) (Some child) indent character)
    cs out s
  = Ret (out +:+ linesOf (nodes s) character indent cs, s).
Proof.
  induction cs as [|c cs IH]; intros out Hcs.
  - cbn [rangePrint linesOf]. unfold ret. by rewrite append_nil_r.
  - destruct (Hcs c ltac:(left)) as [Hc Hleaf].
    destruct (lookup_lt_is_Some_2 _ _ Hc) as [n Hn].
    unfold childrenOf in Hleaf. rewrite Hn in Hleaf.
    cbn [rangePrint linesOf].
    rewrite (bind_Ret _ _ _ _ _ (PrintStructure_fuel_leaf _ _ _ _ _ Hn Hleaf)).
    rewrite IH by (intros c' Hc'; apply Hcs; by right).
    unfold tagOf. rewrite Hn. by rewrite append_assoc.
Qed.

End PrintStructure_lines.

(** X20: [PrintStructure] on a node of a built tree never panics and
    leaves the tree as it is, whatever the indentation and the
    indentation string.  When neither the indentation string nor a tag
    name holds a line feed, the text it writes has one line for each
    node at or below the receiver and one more line for each of those
    nodes that has children.  For a receiver without children the text
    is its one line, the indentation string [indent] times (not at all
    when [indent] is negative) and the tag name.  For a receiver whose
    children have no children it is the line of the receiver, a line
    for each child at the indentation [indent+1] of [int], and the line
    of the receiver again. *)
Theorem PrintStructure_writes_one_line_per_node ts root s a indent character :
  dive ts emptyStore = Ret (root, s) ->
  a < length (nodes s) ->
  exists out,
    PrintStructure (Some a) indent character s = Ret (out, s) /\
    (hasByte (ascii_of_nat 10) character = false ->
     (forall i n, nodes s !! i = Some n ->
        hasByte (ascii_of_nat 10) (Data (Token n)) = false) ->
     countByte (ascii_of_nat 10) out
       = linesFor (nodes s) (preorder (nodes s) a)) /\
    (forall n, nodes s !! a = Some n -> Children n = [] ->
       out = repeatString character (Z.to_nat indent)
               +:+ Data (Token n) +:+ newline) /\
    (forall n, nodes s !! a = Some n -> Children n <> [] ->
       (forall c, c ∈ Children n -> childrenOf (nodes s) c = []) ->
       out = lineOf character indent (Data (Token n))
               +:+ linesOf (nodes s) character (int_add indent 1) (Children n)
               +:+ lineOf character indent (Data (Token n))).
Proof.
  intros H Ha. apply dive_tree in H as [Hwf _].
  destruct (PrintStructure_fuel_lines s character Hwf
              (S (length (nodes s))) a indent "" Ha ltac:(lia))
    as (out & Hout & Hcount).
  exists out. unfold PrintStructure, bind, size. split_and!; [done| | |].
  - intros Hchar Htags. by apply Hcount.
  - intros n Hn Hleaf.
    rewrite (PrintStructure_fuel_leaf s character _ _ _ _ _ Hn Hleaf) in Hout.
    unfold lineOf in Hout. by simplify_eq.
  - intros n Hn Hcs Hleaves.
    destruct (length (nodes s)) as [|fuel] eqn:Hlen; [lia|].
    cbn [PrintStructure_fuel] in Hout. cbv zeta in Hout.
    rewrite (bind_Ret _ _ _ _ _ (getData_Some _ _ _ Hn)) in Hout.
    rewrite (bind_Ret _ _ _ _ _ (getChildren_Some _ _ _ Hn)) in Hout.
    rewrite (bind_Ret _ _ _ _ _
               (rangePrint_leaves s character fuel (int_add indent 1)
                  (Children n) _
                  (fun c Hc => conj
                     (proj2 (wf_child_bounds s Hwf _ _ _ Hn Hc))
                     (Hleaves c Hc)))) in Hout.
    rewrite (bind_Ret _ _ _ _ _ (getChildren_Some _ _ _ Hn)) in Hout.
    assert (Nat.eqb (length (Children n)) 0 = false) as E
      by (by destruct (Children n)).
    rewrite E in Hout.
    rewrite (bind_Ret _ _ _ _ _ (getData_Some _ _ _ Hn)) in Hout.
    unfold ret in Hout. injection Hout as <-. unfold lineOf.
    rewrite !append_assoc. reflexivity.
Qed.

(** X20 on [<div><img/><p>X</p></div>], indented by two blanks a level:
    four lines, and the two children at one level of indentation; with
    the largest [int] as indentation the children are not indented at
    all. *)
Lemma PrintStructure_of_doc_img :
  let s := store_of doc_img in
  (exists out,
     PrintStructure (Some 0) 0 "  " s = Ret (out, s) /\
     countByte (ascii_of_nat 10) out = 4 /\
     out = "div" +:+ newline +:+ "  img" +:+ newline +:+ "  p" +:+ newline
             +:+ "div" +:+ newline) /\
  (exists out,
     PrintStructure (Some 1) 3 "-" s = Ret (out, s) /\
     out = "---img" +:+ newline) /\
  (exists out,
     PrintStructure (Some 0) (2 ^ 63 - 1) "" s = Ret (out, s) /\
     out = lineOf "" (2 ^ 63 - 1) "div"
             +:+ linesOf (nodes s) "" (- 2 ^ 63) [1; 2]
             +:+ lineOf "" (2 ^ 63 - 1) "div").
Proof.
  intros s.
  assert (dive doc_img emptyStore = Ret (Some 0, s)) as Hd
    by (vm_compute; reflexivity).
  assert (nodes s !! 0 = Some (mkNode (startTag "div" []) None [1; 2] ∅)) as H0
    by (vm_compute; reflexivity).
  assert (nodes s !! 1 = Some (mkNode (selfClosing "img" []) (Some 0) [] ∅))
    as H1 by (vm_compute; reflexivity).
  assert (forall c, c ∈ [1; 2] -> childrenOf (nodes s) c = []) as Hleaves.
  { intros c Hc. apply elem_of_cons in Hc as [->|Hc]; [vm_compute; reflexivity|].
    apply elem_of_cons in Hc as [->|Hc]; [vm_compute; reflexivity|].
    by apply elem_of_nil in Hc. }
  split_and!.
  - destruct (PrintStructure_writes_one_line_per_node doc_img (Some 0) s 0 0 "  "
                Hd ltac:(vm_compute; lia)) as (out & Hout & Hcount & _ & Hkids).
    exists out. split; [exact Hout|]. split.
    + rewrite Hcount; [vm_compute; reflexivity|reflexivity|].
      intros j m Hm.
      assert (j < 3) as Hj by (apply lookup_lt_Some in Hm; exact Hm).
      destruct j as [|[|[|j]]]; [| | |lia];
        vm_compute in Hm; injection Hm as <-; reflexivity.
    + rewrite (Hkids _ H0 ltac:(done) Hleaves). vm_compute. reflexivity.
  - destruct (PrintStructure_writes_one_line_per_node doc_img (Some 0) s 1 3 "-"
                Hd ltac:(vm_compute; lia)) as (out & Hout & _ & Hleaf & _).
    exists out. split; [exact Hout|].
    rewrite (Hleaf _ H1 eq_refl). vm_compute. reflexivity.
  - destruct (PrintStructure_writes_one_line_per_node doc_img (Some 0) s 0
                (2 ^ 63 - 1) "" Hd ltac:(vm_compute; lia))
      as (out & Hout & _ & _ & Hkids).
    exists out. split; [exact Hout|].
    exact (Hkids _ H0 ltac:(done) Hleaves).
Defined.

(** ** Two unmarked segments *)

(** X21: a path [a/b] of two segments without markers is matched by the
    nodes with tag [b] that have a node with tag [a] at or above them:
    the upward search for [a] starts at the node itself, so when [a] and
    [b] are one name every node with that tag matches.  On a built tree
    the match never panics. *)
Theorem MatchesPath_two_unmarked_segments ts root s i n a b :
  dive ts emptyStore = Ret (root, s) ->
  nodes s !! i = Some n ->
  hasByte "/" a = false -> strings.HasPrefix a "." = false ->
  hasByte "/" b = false -> strings.HasPrefix b "." = false ->
  MatchesPath (Some i) (a +:+ "/" +:+ b) s =
    Ret (String.eqb b (Data (Token n)) &&
         bool_decide (is_Some (List.find (hasTag (nodes s) a)
                                         (upward (nodes s) i))), s).
Proof.
  intros H Hn Hsa Hda Hsb Hdb. apply dive_tree in H as [Hwf _].
  rewrite (MatchesPath_two_segments _ _ _ _ _ Hn Hsa Hda Hsb Hdb).
  destruct (String.eqb b (Data (Token n))); [|done].
  rewrite (FindTagReverse_upward s a i Hwf) by (by apply lookup_lt_Some in Hn).
  by destruct (List.find _ _).
Qed.

(** X21 on [<div><section><h1>X</h1></section></div>]: [div/h1] holds
    for the [h1], and [div/div] holds for the root. *)
Lemma two_unmarked_segments_on_doc_h1 :
  let s := store_of doc_h1 in
  MatchesPath (Some 2) "div/h1" s = Ret (true, s) /\
  MatchesPath (Some 0) "div/div" s = Ret (true, s).
Proof.
  intros s.
  assert (dive doc_h1 emptyStore = Ret (Some 0, s)) as Hd
    by (vm_compute; reflexivity).
  assert (nodes s !! 2 = Some (mkNode (startTag "h1" []) (Some 1) [] ∅)) as H2
    by (vm_compute; reflexivity).
  assert (nodes s !! 0 = Some (mkNode (startTag "div" []) None [1] ∅)) as H0
    by (vm_compute; reflexivity).
  split.
  - exact (MatchesPath_two_unmarked_segments doc_h1 (Some 0) s 2 _ "div" "h1"
             Hd H2 eq_refl eq_refl eq_refl eq_refl).
  - exact (MatchesPath_two_unmarked_segments doc_h1 (Some 0) s 0 _ "div" "div"
             Hd H0 eq_refl eq_refl eq_refl eq_refl).
Defined.

(** ** One top-level element only *)

Lemma document_leaves_nil_cursor ts :
  document ts ->
  forall rest, exists s,
    dive_loop (ts ++ rest) None None emptyStore
      = dive_loop rest None (Some 0) s.
Proof.
  induction 1 as [t ts Ht Hts IH|open body close post Hopen Hclose Hname Hbody Hpost];
    intros rest.
  - cbn [app]. rewrite (dive_loop_skipped _ _ _ _ _ Ht). apply IH.
  - cbn [app]. rewrite <- app_assoc. cbn [app].
    rewrite (dive_loop_first _ _ _ _ Hopen).
    set (s1 := newNode_store open None emptyStore).
    change (length (nodes emptyStore)) with 0.
    destruct (balanced_keeps_cursor body Hbody (close :: post ++ rest) 0 0 s1)
      as (s2 & Heq & Hinv & Hk).
    { split_and!; [apply wf_nodes_first|simpl; lia|simpl; split; [done|lia]]. }
    rewrite Heq.
    destruct (Hk 0 (mkNode open None [] (newNode_attrs 0 (Attr open) ∅)))
      as (n & Hn & HT & HP); [done|].
    assert (FindTagReverse (Some 0) (Data close) s2 = Ret (Some 0, s2)) as Hf.
    { rewrite Hname. change open with (Token (mkNode open None []
        (newNode_attrs 0 (Attr open) ∅))). rewrite <- HT.
      by apply FindTagReverse_self. }
    rewrite (dive_loop_end_found _ _ _ _ _ _ _ Hclose Hf Hn).
    rewrite HP. cbn [Parent].
    exists s2. clear -Hpost.
    induction Hpost as [|t post Ht _ IHpost]; [done|].
    cbn [app]. by rewrite (dive_loop_skipped _ _ _ _ _ Ht).
Qed.

(** X22: [dive] takes one top-level element and no more.  After a
    well-nested document the cursor is nil, and the next start tag,
    self-closing tag or end tag of the stream makes it panic with a nil
    dereference, whatever follows. *)
Theorem tag_after_the_document_panics ts t rest :
  document ts ->
  Typ t = StartTagToken \/ Typ t = SelfClosingTagToken \/ Typ t = EndTagToken ->
  dive (ts ++ t :: rest) emptyStore = Err NilDeref.
Proof.
  intros Hdoc Ht. unfold dive.
  destruct (document_leaves_nil_cursor ts Hdoc (t :: rest)) as [s ->].
  destruct Ht as [Ht|[Ht|Ht]].
  - by apply startTag_at_nil_cursor.
  - by apply selfClosing_at_nil_cursor.
  - by apply endTag_at_nil_cursor.
Qed.

(** X22 on [<div><img/><p>X</p></div>] followed by [<br/>]. *)
Lemma tag_after_doc_img_panics :
  dive (doc_img ++ [selfClosing "br" []]) emptyStore = Err NilDeref.
Proof.
  apply (tag_after_the_document_panics doc_img (selfClosing "br" []) []).
  - exact doc_img_is_a_document.
  - right. left. reflexivity.
Defined.
